(** * Blog API worker: slug generation, query building and resource handlers

    A shallow embedding of [src/index.ts] (the Hono worker over a D1
    database) and of the table declarations of the schema file, followed by
    the properties the specification states about them. *)

From Stdlib Require Import Bool Ascii String List ZArith Lia SpecFloat.
From Stdlib Require Import Sorted Permutation.
Import ListNotations.

Local Open Scope string_scope.
Local Open Scope Z_scope.

(* ================================================================== *)
(** ** JavaScript strings *)

(** A JavaScript string is modelled as the sequence of its code units,
    one [ascii] code each. The character classes below are ASCII classes:
    no code of 128 or more is in any of them. *)
Definition chars := list ascii.

Definition code (c : ascii) : N := N_of_ascii c.

Definition is_ascii (c : ascii) : bool := (code c <? 128)%N.

Definition is_upper (c : ascii) : bool := ((65 <=? code c) && (code c <=? 90))%N.
Definition is_lower (c : ascii) : bool := ((97 <=? code c) && (code c <=? 122))%N.
Definition is_digit (c : ascii) : bool := ((48 <=? code c) && (code c <=? 57))%N.

Definition hyphen : ascii := "-"%char.

Definition is_hyphen (c : ascii) : bool := Ascii.eqb c hyphen.

(** ASCII case folding: [A-Z] goes to [a-z], every other code is kept.
    This is how SQLite's LIKE compares letters, and what [toLowerCase]
    does to a text of ASCII characters. *)
Definition lower_char (c : ascii) : ascii :=
  if is_upper c then ascii_of_N (code c + 32) else c.

(* ================================================================== *)
(** ** Rows of the tables (schema file; index.ts, lines 94-136) *)

Module Post.
Record t := {
  id : Z;
  title : string;
  slug : string;
  content : string;
  excerpt : option string;
  author : string;
  status : string;
  featured_image : option string;
  tags : option string;
  category_id : option Z;
  created_at : string;
  updated_at : string;
  published_at : option string
}.
End Post.

Module Category.
Record t := {
  id : Z;
  name : string;
  slug : string;
  description : option string;
  created_at : string
}.
End Category.

Module Comment.
Record t := {
  id : Z;
  post_id : Z;
  author_name : string;
  author_email : string;
  content : string;
  status : string;
  created_at : string
}.
End Comment.

(* ================================================================== *)
(** ** Outcomes of statements *)

(** What a failing statement throws. *)
Inductive sql_error :=
| unique_failed
| not_null_failed
| foreign_key_failed
| datatype_mismatch.

Definition message (e : sql_error) : string :=
  match e with
  | unique_failed => "UNIQUE constraint failed"
  | not_null_failed => "NOT NULL constraint failed"
  | foreign_key_failed => "FOREIGN KEY constraint failed"
  | datatype_mismatch => "datatype mismatch"
  end.

(** A statement gives a result or throws. *)
Inductive outcome (A : Type) :=
| Done (a : A)
| Throws (e : sql_error).
Arguments Done {A} a.
Arguments Throws {A} e.

(* ================================================================== *)
(** ** The handlers and what they call *)

Section Handlers.

(** [String.prototype.toLowerCase] is a built-in whose result follows the
    Unicode case tables: it changes characters outside ASCII as well, at
    times into an ASCII letter (U+212A, the Kelvin sign, into [k]) or into
    more than one character (U+0130). It is a parameter here; what is
    assumed of it is its effect on ASCII text. *)
Variable toLowerCase : chars -> chars.
Hypothesis toLowerCase_ascii :
  forall s, forallb is_ascii s = true -> toLowerCase s = map lower_char s.

(* ================================================================== *)
(** ** generateSlug (index.ts, lines 73-78) *)

(** The class [[a-z0-9]] of the first regular expression. *)
Definition in_az09 (c : ascii) : bool := is_lower c || is_digit c.

(** [.replace(/[^a-z0-9]+/g, '-')]: scanning left to right, every maximal
    run of characters outside [[a-z0-9]] is replaced by one hyphen.
    [in_run] tells that the scan is inside a run whose hyphen is already
    written. *)
Fixpoint replace_runs (in_run : bool) (s : chars) : chars :=
  match s with
  | [] => []
  | c :: rest =>
      if in_az09 c then c :: replace_runs false rest
      else if in_run then replace_runs true rest
      else hyphen :: replace_runs true rest
  end.

(** [.replace(/(^-|-$)/g, '')]: a hyphen is matched, and removed, at the
    first position ([^-]) or at the last one ([-$]); [at_start] tells that
    the scan is at index 0. *)
Fixpoint strip_edges (at_start : bool) (s : chars) : chars :=
  match s with
  | [] => []
  | c :: rest =>
      if is_hyphen c && (at_start || match rest with [] => true | _ => false end)
      then strip_edges false rest
      else c :: strip_edges false rest
  end.

Definition slug_chars (title : chars) : chars :=
  strip_edges true (replace_runs false (toLowerCase title)).

Definition generateSlug (title : string) : string :=
  string_of_list_ascii (slug_chars (list_ascii_of_string title)).

(** What the specification says of a slug, as decidable checks. *)
Definition slug_char (c : ascii) : bool := is_lower c || is_digit c || is_hyphen c.

Fixpoint no_double_hyphen (s : chars) : bool :=
  match s with
  | [] => true
  | c :: rest =>
      negb (is_hyphen c && match rest with d :: _ => is_hyphen d | [] => false end)
      && no_double_hyphen rest
  end.

Definition starts_with_hyphen (s : chars) : bool :=
  match s with c :: _ => is_hyphen c | [] => false end.

Fixpoint ends_with_hyphen (s : chars) : bool :=
  match s with
  | [] => false
  | c :: rest =>
      match rest with [] => is_hyphen c | _ :: _ => ends_with_hyphen rest end
  end.

(** A well-formed slug: only [[a-z0-9-]], hyphens single and not at an edge. *)
Definition well_formed_slug (s : chars) : bool :=
  forallb slug_char s && no_double_hyphen s
  && negb (starts_with_hyphen s) && negb (ends_with_hyphen s).

(* ================================================================== *)
(** ** JavaScript numbers and values *)

(** A number is an IEEE 754 double. The doubles the handlers meet hold
    integers (ids, counts, what [parseInt] reads, their differences and
    products) or are [NaN] or an infinity; a double that holds an integer
    is written [Int z] for that integer. The signs of zero and of an
    infinity are not tracked: JSON renders both zeros as [0] and both
    infinities as [null], a statement binds both zeros as 0, and no handler
    adds or subtracts two infinities, the one operation whose result
    depends on their signs. A number with a fraction in a request body is
    outside the model. *)
Inductive number := NaN | Infinity | Int (z : Z).

(** The arithmetic is that of binary64 as the Standard Library specifies
    it: [SpecFloat] with 53 bits of precision and exponents up to 1024,
    rounding to the nearest double, ties to even. *)
Definition double := spec_float.

(** The double for a number; an integer that no double holds is rounded,
    as the conversion of a 64-bit integer to a double does. *)
Definition to_double (n : number) : double :=
  match n with
  | NaN => S754_nan
  | Infinity => S754_infinity false
  | Int z => binary_normalize 53 1024 z 0 false
  end.

(** The number for a double that holds an integer; a double with a
    fraction is cut at its point (a difference or product of integers has
    none). *)
Definition of_double (x : double) : number :=
  match x with
  | S754_nan => NaN
  | S754_infinity _ => Infinity
  | S754_zero _ => Int 0
  | S754_finite s m e =>
      Int (cond_Zopp s (if 0 <=? e then Zpos m * 2 ^ e else Zpos m / 2 ^ (- e)))
  end.

(** [a - b] and [a * b]. *)
Definition num_sub (a b : number) : number :=
  of_double (SFsub 53 1024 (to_double a) (to_double b)).

Definition num_mul (a b : number) : number :=
  of_double (SFmul 53 1024 (to_double a) (to_double b)).

(** [a / b], a double that may hold a fraction. *)
Definition num_div (a b : number) : double :=
  SFdiv 53 1024 (to_double a) (to_double b).

(** [Math.ceil(x)]: the least integer that is not below [x]. *)
Definition Math_ceil (x : double) : number :=
  match x with
  | S754_finite s m e =>
      if 0 <=? e then Int (cond_Zopp s (Zpos m * 2 ^ e))
      else
        let q := Zpos m / 2 ^ (- e) in
        if s then Int (- q)
        else Int (if Zpos m mod 2 ^ (- e) =? 0 then q else q + 1)
  | _ => of_double x
  end.

(** [Math.ceil(a / b)]. *)
Definition ceil_quotient (a b : number) : number := Math_ceil (num_div a b).

(** [parseInt] is a built-in as well: it skips the white space of
    Unicode, reads a sign, a radix prefix and the digits that follow, and
    gives the double nearest to what it read, or [NaN]. It is a parameter
    here; what is assumed of it is how it reads the two literals the
    listing of posts falls back on. *)
Variable parseInt : string -> number.
Hypothesis parseInt_1 : parseInt "1" = Int 1.
Hypothesis parseInt_10 : parseInt "10" = Int 10.

(** [q || d] for a query parameter [q] ([None] is [undefined]): the empty
    string is falsy as well. *)
Definition or_default (q : option string) (d : string) : string :=
  match q with
  | Some s => if (s =? "")%string then d else s
  | None => d
  end.

(** [if (q)] for an optional string; the string when it is truthy. *)
Definition truthy (q : option string) : option string :=
  match q with
  | Some s => if (s =? "")%string then None else Some s
  | None => None
  end.

(** JSON and bound-parameter values. *)
Inductive value :=
| VNull
| VBool (b : bool)
| VNum (n : number)
| VStr (s : string).

(** A JavaScript object as the list of its entries, in insertion order
    (the order of [Object.entries]). *)
Definition object := list (string * value).

(** [o[k]]; [None] is [undefined]. *)
Fixpoint get (k : string) (o : object) : option value :=
  match o with
  | [] => None
  | (k', v) :: rest => if (k' =? k)%string then Some v else get k rest
  end.

Definition get_string (k : string) (o : object) : option string :=
  match get k o with Some (VStr s) => Some s | _ => None end.

(** [v === s] for a string literal [s]. *)
Definition is_string (v : option value) (s : string) : bool :=
  match v with Some (VStr x) => (x =? s)%string | _ => false end.

(* ================================================================== *)
(** ** Validation schemas (index.ts, lines 48-70) *)

(** The zod types the schemas use. [min] and [max] bound the length of a
    string; [url] asks [is_url] of it. *)
Inductive ztype :=
| zstring (min max : option nat) (url : bool)
| znumber
| zenum (options : list string).

Inductive zfield :=
| required (t : ztype)
| optional (t : ztype)
| default (t : ztype) (d : value)
| optional_default (t : ztype) (d : value).

Definition schema := list (string * zfield).

Definition postSchema : schema :=
  [ ("title", required (zstring (Some 1%nat) (Some 200%nat) false));
    ("content", required (zstring (Some 1%nat) None false));
    ("excerpt", optional (zstring None (Some 500%nat) false));
    ("author", required (zstring (Some 1%nat) (Some 100%nat) false));
    ("status", default (zenum ["draft"; "published"]) (VStr "draft"));
    ("featured_image", optional (zstring None None true));
    ("tags", optional (zstring None None false));
    ("category_id", optional znumber) ].

(** [.partial()] wraps every field in an optional: an absent key stays
    absent, also where the field has a default. *)
Definition partial_field (f : zfield) : zfield :=
  match f with
  | required t => optional t
  | optional t => optional t
  | default t d => optional_default t d
  | optional_default t d => optional_default t d
  end.

Definition partial (s : schema) : schema :=
  map (fun kf => (fst kf, partial_field (snd kf))) s.

(* ================================================================== *)
(** ** The database *)

(** The database: the three tables, rows in insertion order, and the
    AUTOINCREMENT high-water mark of [posts]. *)
Record DB := {
  posts : list Post.t;
  categories : list Category.t;
  comments : list Comment.t;
  posts_seq : Z
}.

(** PRIMARY KEY: no two rows of a table share an id. *)
Fixpoint distinct (l : list Z) : bool :=
  match l with
  | [] => true
  | x :: rest => negb (existsb (Z.eqb x) rest) && distinct rest
  end.

(** [s.includes(needle)]. *)
Fixpoint includes (needle s : string) : bool :=
  prefix needle s
  || match s with String _ rest => includes needle rest | EmptyString => false end.

(** The result of [run()], as the D1 binding declares it (the type is
    declared outside the repository, in the types of the Workers runtime):
    [success] and [meta], which holds the number of rows the statement
    changed and the id of the last inserted row. *)
Record D1Meta := { changes : Z; last_row_id : Z }.
Record D1Result := { success : bool; meta : D1Meta }.

(** [result.changes]: the result has no property of that name, the number
    of changed rows being [result.meta.changes]; the read gives
    [undefined], here [None]. *)
Definition result_changes (result : D1Result) : option Z := None.

(** [v === 0]. *)
Definition is_zero (v : option Z) : bool :=
  match v with Some 0 => true | _ => false end.

(** SQL truth values; [None] is NULL. A WHERE clause keeps the rows where
    it is [Some true]. *)
Definition tri := option bool.

Definition and3 (a b : tri) : tri :=
  match a, b with
  | Some false, _ | _, Some false => Some false
  | Some true, Some true => Some true
  | _, _ => None
  end.

Definition or3 (a b : tri) : tri :=
  match a, b with
  | Some true, _ | _, Some true => Some true
  | Some false, Some false => Some false
  | _, _ => None
  end.

Definition is_true (a : tri) : bool :=
  match a with Some true => true | _ => false end.

(** [x LIKE pattern]: [%] matches any run of characters, [_] any one
    character, a letter matches in either case. *)
Fixpoint like_chars (pattern x : chars) : bool :=
  match pattern with
  | [] => match x with [] => true | _ :: _ => false end
  | c :: pattern' =>
      if Ascii.eqb c "%" then
        (fix skip (y : chars) : bool :=
           like_chars pattern' y
           || match y with [] => false | _ :: y' => skip y' end) x
      else
        match x with
        | [] => false
        | d :: x' =>
            (Ascii.eqb c "_" || Ascii.eqb (lower_char c) (lower_char d))
            && like_chars pattern' x'
        end
  end.

Definition like (x pattern : string) : bool :=
  like_chars (list_ascii_of_string pattern) (list_ascii_of_string x).

(** ORDER BY: a stable sort by [le]. *)
Fixpoint insert_by {A} (le : A -> A -> bool) (x : A) (l : list A) : list A :=
  match l with
  | [] => [x]
  | y :: rest => if le x y then x :: l else y :: insert_by le x rest
  end.

Definition order_by {A} (le : A -> A -> bool) (l : list A) : list A :=
  fold_right (insert_by le) [] l.

(** Nullable text in ascending order: NULL sorts before every value. *)
Definition opt_leb (a b : option string) : bool :=
  match a, b with
  | None, _ => true
  | Some _, None => false
  | Some x, Some y => (x <=? y)%string
  end.

(** LIMIT l OFFSET o: a negative offset is 0, a negative limit is no limit. *)
Definition limit_offset {A} (l o : Z) (rows : list A) : list A :=
  let rest := skipn (Z.to_nat o) rows in
  if l <? 0 then rest else firstn (Z.to_nat l) rest.

(** What SQLite takes for a LIMIT or an OFFSET: an integer of 64 bits. *)
Definition int64 (z : Z) : bool := (- 2 ^ 63 <=? z) && (z <? 2 ^ 63).

(* ================================================================== *)
(** ** HTTP requests and responses *)

(** The query string of a request; [req_query] is [c.req.query(name)]. *)
Definition query_string := list (string * string).

Fixpoint req_query (name : string) (qs : query_string) : option string :=
  match qs with
  | [] => None
  | (k, v) :: rest => if (k =? name)%string then Some v else req_query name rest
  end.

(** A post row of the listing: the post's columns with those of the
    joined category. *)
Record PostRow := {
  post : Post.t;
  category_name : option string;
  category_slug : option string
}.

(** A comment row of the moderation queue. *)
Record CommentRow := {
  comment : Comment.t;
  post_title : string;
  post_slug : string
}.

Record Pagination := {
  page : number;
  limit : number;
  total : number;
  pages : number
}.

(** The JSON bodies of the answers. [BPost] is [{ post }] with a row of
    [posts]; [BPostRow] and [BPostComments] are [{ post }] and
    [{ post, comments }] with a row of the join, which has the columns of
    the category as well. *)
Inductive body :=
| BPosts (posts : list PostRow) (pagination : Pagination)
| BPost (post : Post.t)
| BPostRow (post : PostRow)
| BPostComments (post : PostRow) (comments : list Comment.t)
| BComments (comments : list Comment.t)
| BCommentQueue (comments : list CommentRow) (pagination : Pagination)
| BMessage (message : string)
| BError (error : string).

Record response := { http_status : Z; payload : body }.

Definition json (b : body) (status : Z) : response :=
  {| http_status := status; payload := b |}.

(** [app.use('/api/admin/*', bearerAuth(...))] and the guard of
    [/api/init]: the paths that ask for the bearer token. *)
Definition asks_bearer (path : string) : bool :=
  prefix "/api/admin/" path || (path =? "/api/admin")%string
  || (path =? "/api/init")%string.

(* ================================================================== *)
(** ** Query builder for the post listing (index.ts, lines 196-257) *)

(** The clauses a listing statement is assembled from; each [?] is bound
    to the next parameter. *)
Inductive clause :=
| status_eq          (* p.status = ? *)
| category_slug_eq   (* c.slug = ?, over the LEFT JOIN *)
| category_exists    (* EXISTS (SELECT 1 FROM categories c
                          WHERE c.id = p.category_id AND c.slug = ?) *)
| search_like.       (* (p.title LIKE ? OR p.content LIKE ?) *)

Definition arity (c : clause) : nat :=
  match c with search_like => 2%nat | _ => 1%nat end.

Definition where_arity (q : list clause) : nat := list_sum (map arity q).

Definition references (p : Post.t) (c : Category.t) : bool :=
  match Post.category_id p with
  | Some k => Category.id c =? k
  | None => false
  end.

(** The rows one post gives in [posts p LEFT JOIN categories c ON
    p.category_id = c.id]: one for each category it references, and one
    with NULL category columns when it references none. *)
Definition join_categories (cs : list Category.t) (p : Post.t) : list PostRow :=
  match filter (references p) cs with
  | [] => [ {| post := p; category_name := None; category_slug := None |} ]
  | matches =>
      map (fun c => {| post := p;
                       category_name := Some (Category.name c);
                       category_slug := Some (Category.slug c) |}) matches
  end.

Definition left_join (ps : list Post.t) (cs : list Category.t) : list PostRow :=
  flat_map (join_categories cs) ps.

(** [FROM posts p]: no category column is in scope. *)
Definition from_posts (ps : list Post.t) : list PostRow :=
  map (fun p => {| post := p; category_name := None; category_slug := None |}) ps.

Definition eval_clause (cs : list Category.t) (c : clause) (params : list value)
    (r : PostRow) : option (tri * list value) :=
  match c, params with
  | status_eq, VStr s :: rest =>
      Some (Some (Post.status (post r) =? s)%string, rest)
  | category_slug_eq, VStr s :: rest =>
      Some (match category_slug r with
            | Some x => Some (x =? s)%string
            | None => None
            end, rest)
  | category_exists, VStr s :: rest =>
      Some (Some (existsb (fun c => references (post r) c
                                    && (Category.slug c =? s)%string) cs), rest)
  | search_like, VStr a :: VStr b :: rest =>
      Some (or3 (Some (like (Post.title (post r)) a))
                (Some (like (Post.content (post r)) b)), rest)
  | _, _ => None
  end.

(** The AND of the clauses, and the parameters left for what follows. *)
Fixpoint eval_where (cs : list Category.t) (q : list clause) (params : list value)
    (r : PostRow) : option (tri * list value) :=
  match q with
  | [] => Some (Some true, params)
  | c :: q' =>
      match eval_clause cs c params r with
      | Some (t, rest) =>
          match eval_where cs q' rest r with
          | Some (t', rest') => Some (and3 t t', rest')
          | None => None
          end
      | None => None
      end
  end.

Definition holds (cs : list Category.t) (q : list clause) (params : list value)
    (r : PostRow) : bool :=
  match eval_where cs q params r with
  | Some (t, _) => is_true t
  | None => false
  end.

Definition is_text (v : value) : bool :=
  match v with VStr _ => true | _ => false end.

(** [ORDER BY p.published_at DESC, p.created_at DESC]: [a] may stand
    before [b]. *)
Definition newest_first (a b : PostRow) : bool :=
  let pa := Post.published_at (post a) in
  let pb := Post.published_at (post b) in
  if opt_leb pa pb && opt_leb pb pa
  then (Post.created_at (post b) <=? Post.created_at (post a))%string
  else opt_leb pb pa.

(** The rows of the list statement before LIMIT and OFFSET apply. *)
Definition matching_rows (db : DB) (q : list clause) (params : list value)
    : list PostRow :=
  order_by newest_first
    (filter (holds (categories db) q params)
            (left_join (posts db) (categories db))).

(** The list statement: the clauses [q] followed by
    [ORDER BY ... LIMIT ? OFFSET ?]. A limit or offset that is no integer
    of 64 bits makes the statement fail. *)
Definition select_posts (db : DB) (q : list clause) (params : list value)
    : outcome (list PostRow) :=
  let n := where_arity q in
  if forallb is_text (firstn n params) && (length (firstn n params) =? n)%nat then
    match skipn n params with
    | [VNum (Int l); VNum (Int o)] =>
        if int64 l && int64 o
        then Done (limit_offset l o (matching_rows db q (firstn n params)))
        else Throws datatype_mismatch
    | _ => Throws datatype_mismatch
    end
  else Throws datatype_mismatch.

(** The rows the count statement counts. *)
Definition counted_rows (db : DB) (q : list clause) (params : list value)
    : list PostRow :=
  filter (holds (categories db) q params) (from_posts (posts db)).

(** [SELECT COUNT( * ) as total FROM posts p WHERE ...]. *)
Definition count_posts (db : DB) (q : list clause) (params : list value)
    : outcome Z :=
  let n := where_arity q in
  if forallb is_text params && (length params =? n)%nat then
    Done (Z.of_nat (length (counted_rows db q params)))
  else Throws datatype_mismatch.

Definition posts_page (qs : query_string) : number :=
  parseInt (or_default (req_query "page" qs) "1").

Definition posts_limit (qs : query_string) : number :=
  parseInt (or_default (req_query "limit" qs) "10").

Definition posts_status (qs : query_string) : string :=
  or_default (req_query "status" qs) "published".

Definition posts_offset (qs : query_string) : number :=
  num_mul (num_sub (posts_page qs) (Int 1)) (posts_limit qs).

Definition pattern (search : string) : value := VStr ("%" ++ search ++ "%").

(** The filter part both statements share, with the clause that
    expresses the category filter. *)
Definition filters (by_category : clause) (qs : query_string)
    : list clause * list value :=
  let query := [status_eq] in
  let params := [VStr (posts_status qs)] in
  let '(query, params) :=
    match truthy (req_query "category" qs) with
    | Some category => ((query ++ [by_category])%list, (params ++ [VStr category])%list)
    | None => (query, params)
    end in
  match truthy (req_query "search" qs) with
  | Some search =>
      ((query ++ [search_like])%list, (params ++ [pattern search; pattern search])%list)
  | None => (query, params)
  end.

(** [query] and [params] of the list statement, the ORDER BY ... LIMIT ?
    OFFSET ? tail understood. *)
Definition list_statement (qs : query_string) : list clause * list value :=
  let '(query, params) := filters category_slug_eq qs in
  (query, (params ++ [VNum (posts_limit qs); VNum (posts_offset qs)])%list).

(** [countQuery] and [countParams]. *)
Definition count_statement (qs : query_string) : list clause * list value :=
  filters category_exists qs.

(* ================================================================== *)
(** ** Statements of the post and comment handlers *)

(** A value bound to a NOT NULL text column, to a nullable text column and
    to a nullable integer column; [None] where the statement fails. *)
Definition as_text (v : value) : option string :=
  match v with VStr s => Some s | _ => None end.

Definition as_nullable_text (v : value) : option (option string) :=
  match v with VStr s => Some (Some s) | VNull => Some None | _ => None end.

Definition as_nullable_int (v : value) : option (option Z) :=
  match v with VNum (Int z) => Some (Some z) | VNull => Some None | _ => None end.

(** [SET col = ?] on one row. *)
Definition set_column (col : string) (v : value) (p : Post.t) : option Post.t :=
  let '(Post.Build_t id title slug content excerpt author status featured_image
                     tags category_id created_at updated_at published_at) := p in
  if (col =? "id")%string then
    match v with
    | VNum (Int z) =>
        Some (Post.Build_t z title slug content excerpt author status featured_image
                           tags category_id created_at updated_at published_at)
    | _ => None
    end
  else if (col =? "title")%string then
    option_map (fun x => Post.Build_t id x slug content excerpt author status
                  featured_image tags category_id created_at updated_at published_at)
               (as_text v)
  else if (col =? "slug")%string then
    option_map (fun x => Post.Build_t id title x content excerpt author status
                  featured_image tags category_id created_at updated_at published_at)
               (as_text v)
  else if (col =? "content")%string then
    option_map (fun x => Post.Build_t id title slug x excerpt author status
                  featured_image tags category_id created_at updated_at published_at)
               (as_text v)
  else if (col =? "excerpt")%string then
    option_map (fun x => Post.Build_t id title slug content x author status
                  featured_image tags category_id created_at updated_at published_at)
               (as_nullable_text v)
  else if (col =? "author")%string then
    option_map (fun x => Post.Build_t id title slug content excerpt x status
                  featured_image tags category_id created_at updated_at published_at)
               (as_text v)
  else if (col =? "status")%string then
    option_map (fun x => Post.Build_t id title slug content excerpt author x
                  featured_image tags category_id created_at updated_at published_at)
               (as_text v)
  else if (col =? "featured_image")%string then
    option_map (fun x => Post.Build_t id title slug content excerpt author status
                  x tags category_id created_at updated_at published_at)
               (as_nullable_text v)
  else if (col =? "tags")%string then
    option_map (fun x => Post.Build_t id title slug content excerpt author status
                  featured_image x category_id created_at updated_at published_at)
               (as_nullable_text v)
  else if (col =? "category_id")%string then
    option_map (fun x => Post.Build_t id title slug content excerpt author status
                  featured_image tags x created_at updated_at published_at)
               (as_nullable_int v)
  else if (col =? "created_at")%string then
    option_map (fun x => Post.Build_t id title slug content excerpt author status
                  featured_image tags category_id x updated_at published_at)
               (as_text v)
  else if (col =? "updated_at")%string then
    option_map (fun x => Post.Build_t id title slug content excerpt author status
                  featured_image tags category_id created_at x published_at)
               (as_text v)
  else if (col =? "published_at")%string then
    option_map (fun x => Post.Build_t id title slug content excerpt author status
                  featured_image tags category_id created_at updated_at x)
               (as_nullable_text v)
  else None.

(** The assignments of a SET list, left to right. *)
Fixpoint set_columns (cols : list string) (vals : list value) (p : Post.t)
    : option Post.t :=
  match cols, vals with
  | [], [] => Some p
  | col :: cols', v :: vals' =>
      match set_column col v p with
      | Some p' => set_columns cols' vals' p'
      | None => None
      end
  | _, _ => None
  end.

Definition with_posts (db : DB) (ps : list Post.t) (seq : Z) : DB :=
  {| posts := ps; categories := categories db; comments := comments db;
     posts_seq := seq |}.

(** AUTOINCREMENT: one more than every id the table holds or has held. *)
Definition next_post_id (db : DB) : Z :=
  1 + fold_right Z.max (posts_seq db) (map Post.id (posts db)).

(** FOREIGN KEY (category_id) REFERENCES categories(id). *)
Definition category_known (db : DB) (k : option Z) : bool :=
  match k with
  | Some k => existsb (fun c => Category.id c =? k) (categories db)
  | None => true
  end.

(** [INSERT INTO posts (title, slug, ...) VALUES (?, ...)]: [row] gives
    the bound columns for the id the table assigns. [slug] is UNIQUE NOT
    NULL: a text value, the empty one too, is not NULL. *)
Definition insert_post (db : DB) (row : Z -> Post.t) : outcome (D1Result * DB) :=
  let id := next_post_id db in
  let r := row id in
  if existsb (fun p => (Post.slug p =? Post.slug r)%string) (posts db)
  then Throws unique_failed
  else if negb (category_known db (Post.category_id r))
  then Throws foreign_key_failed
  else Done ({| success := true; meta := {| changes := 1; last_row_id := id |} |},
             with_posts db (posts db ++ [r]) id).

(** [SELECT * FROM posts WHERE id = ?], [.first()]. *)
Definition post_by_id (db : DB) (id : Z) : option Post.t :=
  find (fun p => Post.id p =? id) (posts db).

(** Rewrites the rows with the given id; [None] when an assignment fails. *)
Fixpoint update_rows (id : Z) (cols : list string) (vals : list value)
    (ps : list Post.t) : option (list Post.t * Z) :=
  match ps with
  | [] => Some ([], 0)
  | p :: rest =>
      match update_rows id cols vals rest with
      | Some (rest', n) =>
          if Post.id p =? id then
            match set_columns cols vals p with
            | Some p' => Some (p' :: rest', n + 1)
            | None => None
            end
          else Some (p :: rest', n)
      | None => None
      end
  end.

Fixpoint unique_slugs (ps : list Post.t) : bool :=
  match ps with
  | [] => true
  | p :: rest =>
      negb (existsb (fun p' => (Post.slug p' =? Post.slug p)%string) rest)
      && unique_slugs rest
  end.

(** [UPDATE posts SET col1 = ?, ... WHERE id = ?]: [vals] are the bound
    values, the id last. *)
Definition update_post (db : DB) (cols : list string) (vals : list value)
    : outcome (D1Result * DB) :=
  match rev vals with
  | VNum (Int id) :: assigned =>
      match update_rows id cols (rev assigned) (posts db) with
      | Some (ps, n) =>
          if n =? 0
          then Done ({| success := true;
                        meta := {| changes := 0; last_row_id := 0 |} |}, db)
          else if negb (unique_slugs ps) then Throws unique_failed
          else if negb (forallb (fun p => category_known db (Post.category_id p)) ps)
          then Throws foreign_key_failed
          else Done ({| success := true;
                        meta := {| changes := n; last_row_id := 0 |} |},
                     with_posts db ps (posts_seq db))
      | None => Throws not_null_failed
      end
  | _ => Throws datatype_mismatch
  end.

(** [DELETE FROM posts WHERE id = ?]; the comments of a deleted post go
    with it (ON DELETE CASCADE). *)
Definition delete_post (db : DB) (id : Z) : outcome (D1Result * DB) :=
  let kept := filter (fun p => negb (Post.id p =? id)) (posts db) in
  let n := Z.of_nat (length (posts db)) - Z.of_nat (length kept) in
  Done ({| success := true; meta := {| changes := n; last_row_id := 0 |} |},
        if n =? 0 then db
        else {| posts := kept; categories := categories db;
                comments := filter (fun c => negb (Comment.post_id c =? id))
                                   (comments db);
                posts_seq := posts_seq db |}).

Definition oldest_first (a b : Comment.t) : bool :=
  (Comment.created_at a <=? Comment.created_at b)%string.

Definition newest_comment_first (a b : CommentRow) : bool :=
  (Comment.created_at (comment b) <=? Comment.created_at (comment a))%string.

(** [SELECT * FROM comments WHERE post_id = ? AND status = ?
     ORDER BY created_at ASC]. *)
Definition comments_of_post (db : DB) (post_id : Z) (status : string)
    : list Comment.t :=
  order_by oldest_first
    (filter (fun c => (Comment.post_id c =? post_id)
                      && (Comment.status c =? status)%string) (comments db)).

(** [FROM comments c JOIN posts p ON c.post_id = p.id]. *)
Definition join_posts (cs : list Comment.t) (ps : list Post.t) : list CommentRow :=
  flat_map
    (fun c =>
       map (fun p => {| comment := c; post_title := Post.title p;
                        post_slug := Post.slug p |})
           (filter (fun p => Comment.post_id c =? Post.id p) ps)) cs.

(** The moderation queue: [WHERE c.status = ? ORDER BY c.created_at DESC
    LIMIT ? OFFSET ?]. *)
Definition comment_queue (db : DB) (status : string) (l o : number)
    : outcome (list CommentRow) :=
  match l, o with
  | Int l, Int o =>
      if int64 l && int64 o
      then Done (limit_offset l o
                   (order_by newest_comment_first
                      (filter (fun r => (Comment.status (comment r) =? status)%string)
                              (join_posts (comments db) (posts db)))))
      else Throws datatype_mismatch
  | _, _ => Throws datatype_mismatch
  end.

(** [SELECT COUNT( * ) as total FROM comments WHERE status = ?]. *)
Definition count_comments (db : DB) (status : string) : Z :=
  Z.of_nat (length (filter (fun c => (Comment.status c =? status)%string)
                           (comments db))).

(* ================================================================== *)
(** ** Handlers *)

(** Two library functions the worker calls: zod's test for a URL, and
    [new Date(s).toISOString()], which throws ([None]) on a string that is
    no date. *)
Variable is_url : string -> bool.
Variable toISOString : string -> option string.

Definition within (min max : option nat) (s : string) : bool :=
  match min with Some n => (n <=? String.length s)%nat | None => true end
  && match max with Some n => (String.length s <=? n)%nat | None => true end.

Definition check (t : ztype) (v : value) : bool :=
  match t, v with
  | zstring min max url, VStr s => within min max s && (if url then is_url s else true)
  | znumber, VNum (Int _) => true
  | zenum options, VStr s => existsb (String.eqb s) options
  | _, _ => false
  end.

(** One field on the input's value for its key ([None]: the key is
    absent). [None] is an issue; [Some None] leaves the key out of the
    parsed object. *)
Definition parse_field (f : zfield) (v : option value) : option (option value) :=
  match f, v with
  | required t, Some v | optional t, Some v
  | default t _, Some v | optional_default t _, Some v =>
      if check t v then Some (Some v) else None
  | required _, None => None
  | optional _, None => Some None
  | default _ d, None => Some (Some d)
  | optional_default _ _, None => Some None
  end.

(** [schema.safeParse(input)]: the parsed object holds the schema's keys,
    in the schema's order; keys the schema does not name are dropped.
    [None] stands for [success: false]. *)
Fixpoint safeParse (s : schema) (input : object) : option object :=
  match s with
  | [] => Some []
  | (k, f) :: rest =>
      match parse_field f (get k input), safeParse rest input with
      | Some (Some v), Some o => Some ((k, v) :: o)
      | Some None, Some o => Some o
      | _, _ => None
      end
  end.

(** formatPost (index.ts, lines 80-88). *)
Definition formatPost (p : Post.t) : option Post.t :=
  match toISOString (Post.created_at p), toISOString (Post.updated_at p) with
  | Some created, Some updated =>
      let formatted published :=
        {| Post.id := Post.id p; Post.title := Post.title p;
           Post.slug := Post.slug p; Post.content := Post.content p;
           Post.excerpt := Post.excerpt p; Post.author := Post.author p;
           Post.status := Post.status p;
           Post.featured_image := Post.featured_image p;
           Post.tags := Some (or_default (Post.tags p) "");
           Post.category_id := Post.category_id p;
           Post.created_at := created; Post.updated_at := updated;
           Post.published_at := published |} in
      match truthy (Post.published_at p) with
      | Some at_ =>
          match toISOString at_ with
          | Some published => Some (formatted (Some published))
          | None => None
          end
      | None => Some (formatted None)
      end
  | _, _ => None
  end.

Definition formatRow (r : PostRow) : option PostRow :=
  option_map (fun p => {| post := p; category_name := category_name r;
                          category_slug := category_slug r |})
             (formatPost (post r)).

(** [rows.map(f)] for an [f] that may throw. *)
Fixpoint map_throwing {A B} (f : A -> option B) (l : list A) : option (list B) :=
  match l with
  | [] => Some []
  | x :: rest =>
      match f x, map_throwing f rest with
      | Some y, Some ys => Some (y :: ys)
      | _, _ => None
      end
  end.

(** GET /api/posts (index.ts, lines 196-257). *)
Definition get_posts (db : DB) (qs : query_string) : response :=
  let failed := json (BError "Failed to fetch posts") 500 in
  let '(query, params) := list_statement qs in
  match select_posts db query params with
  | Throws _ => failed
  | Done rows =>
      let '(countQuery, countParams) := count_statement qs in
      match count_posts db countQuery countParams with
      | Throws _ => failed
      | Done total =>
          match map_throwing formatRow rows with
          | None => failed
          | Some formatted =>
              json (BPosts formatted
                      {| page := posts_page qs;
                         limit := posts_limit qs;
                         total := Int total;
                         pages := ceil_quotient (Int total) (posts_limit qs) |})
                   200
          end
      end
  end.

(** The row POST /api/admin/posts binds (index.ts, lines 315-328). *)
Definition new_post (data : object) (now : string) (id : Z) : Post.t :=
  let text k := match get_string k data with Some s => s | None => "" end in
  {| Post.id := id;
     Post.title := text "title";
     Post.slug := generateSlug (text "title");
     Post.content := text "content";
     Post.excerpt :=
       Some (or_default (get_string "excerpt" data)
                        (substring 0 200 (text "content") ++ "..."));
     Post.author := text "author";
     Post.status := text "status";
     Post.featured_image := truthy (get_string "featured_image" data);
     Post.tags := Some (or_default (get_string "tags" data) "");
     Post.category_id :=
       match get "category_id" data with
       | Some (VNum (Int z)) => if z =? 0 then None else Some z
       | _ => None
       end;
     Post.created_at := now;
     Post.updated_at := now;
     Post.published_at :=
       if (text "status" =? "published")%string then Some now else None |}.

(** POST /api/admin/posts (index.ts, lines 300-340); [now] is
    [new Date().toISOString()]. The [details] of a 400 answer are left
    out. *)
Definition create_post (db : DB) (input : object) (now : string) : response * DB :=
  match safeParse postSchema input with
  | None => (json (BError "Invalid input") 400, db)
  | Some data =>
      match insert_post db (new_post data now) with
      | Throws e =>
          if includes "UNIQUE constraint failed" (message e)
          then (json (BError "A post with this title already exists") 409, db)
          else (json (BError "Failed to create post") 500, db)
      | Done (result, db') =>
          match post_by_id db' (last_row_id (meta result)) with
          | Some p =>
              match formatPost p with
              | Some formatted => (json (BPost formatted) 201, db')
              | None => (json (BError "Failed to create post") 500, db')
              end
          | None => (json (BError "Failed to create post") 500, db')
          end
      end
  end.

(** The [forEach] over [Object.entries(data)] (index.ts, lines 357-365):
    the assigned columns and, in step, their values. *)
Fixpoint entries_updates (entries : object) : list string * list value :=
  match entries with
  | [] => ([], [])
  | (key, value) :: rest =>
      let '(updates, values) := entries_updates rest in
      if (key =? "title")%string then
        ("title" :: "slug" :: updates,
         value :: VStr (generateSlug
                          (match value with VStr s => s | _ => "" end)) :: values)
      else if negb (key =? "id")%string then (key :: updates, value :: values)
      else (updates, values)
  end.

(** [updates] and [values] as the UPDATE statement gets them (index.ts,
    lines 354-375), the id not yet pushed. *)
Definition assignments (data : object) (now : string) : list string * list value :=
  let '(updates, values) := entries_updates data in
  let updates := (updates ++ ["updated_at"])%list in
  let values := (values ++ [VStr now])%list in
  if is_string (get "status" data) "published"
  then ((updates ++ ["published_at"])%list, (values ++ [VStr now])%list)
  else (updates, values).

(** PUT /api/admin/posts/:id (index.ts, lines 342-392); [id] is the
    route parameter as [parseInt] reads it. *)
Definition put_post (db : DB) (id : Z) (input : object) (now : string)
    : response * DB :=
  match safeParse (partial postSchema) input with
  | None => (json (BError "Invalid input") 400, db)
  | Some data =>
      let '(updates, values) := assignments data now in
      match update_post db updates (values ++ [VNum (Int id)]) with
      | Throws _ => (json (BError "Failed to update post") 500, db)
      | Done (_, db') =>
          match post_by_id db' id with
          | None => (json (BError "Post not found") 404, db')
          | Some p =>
              match formatPost p with
              | Some formatted => (json (BPost formatted) 200, db')
              | None => (json (BError "Failed to update post") 500, db')
              end
          end
      end
  end.

(** DELETE /api/admin/posts/:id (index.ts, lines 394-409). *)
Definition remove_post (db : DB) (id : Z) : response * DB :=
  match delete_post db id with
  | Throws _ => (json (BError "Failed to delete post") 500, db)
  | Done (result, db') =>
      if is_zero (result_changes result)
      then (json (BError "Post not found") 404, db')
      else (json (BMessage "Post deleted successfully") 200, db')
  end.

(** GET /api/posts/:postId/comments (index.ts, lines 458-474). *)
Definition get_post_comments (db : DB) (postId : Z) (qs : query_string) : response :=
  let status := or_default (req_query "status" qs) "approved" in
  json (BComments (comments_of_post db postId status)) 200.

(** GET /api/admin/comments (index.ts, lines 508-539). *)
Definition get_admin_comments (db : DB) (qs : query_string) : response :=
  let status := or_default (req_query "status" qs) "pending" in
  let page := parseInt (or_default (req_query "page" qs) "1") in
  let limit := parseInt (or_default (req_query "limit" qs) "20") in
  let offset := num_mul (num_sub page (Int 1)) limit in
  match comment_queue db status limit offset with
  | Throws _ => json (BError "Failed to fetch comments") 500
  | Done rows =>
      let total := Int (count_comments db status) in
      json (BCommentQueue rows
              {| page := page; limit := limit; total := total;
                 pages := ceil_quotient total limit |})
           200
  end.

(** GET /api/posts/:slug (index.ts, lines 259-295). *)
Definition get_post (db : DB) (slug : string) (qs : query_string) : response :=
  let includeComments :=
    match req_query "comments" qs with
    | Some v => (v =? "true")%string
    | None => false
    end in
  match find (fun r => (Post.slug (post r) =? slug)%string
                       && (Post.status (post r) =? "published")%string)
             (left_join (posts db) (categories db)) with
  | None => json (BError "Post not found") 404
  | Some r =>
      match formatRow r with
      | None => json (BError "Failed to fetch post") 500
      | Some formatted =>
          if includeComments
          then json (BPostComments formatted
                       (comments_of_post db (Post.id (post r)) "approved")) 200
          else json (BPostRow formatted) 200
      end
  end.

(* ================================================================== *)
(** ** Categories, comment submission and moderation *)

Definition categorySchema : schema :=
  [ ("name", required (zstring (Some 1%nat) (Some 100%nat) false));
    ("description", optional (zstring None (Some 500%nat) false)) ].

(** commentSchema (index.ts, lines 65-70), the [.email()] test of
    [author_email] apart: [parse_comment] below adds it. *)
Definition commentSchema : schema :=
  [ ("post_id", required znumber);
    ("author_name", required (zstring (Some 1%nat) (Some 100%nat) false));
    ("author_email", required (zstring None None false));
    ("content", required (zstring (Some 1%nat) (Some 1000%nat) false)) ].

(** The schema of a moderation decision (index.ts, lines 542-544). *)
Definition statusSchema : schema :=
  [ ("status", required (zenum ["pending"; "approved"; "rejected"])) ].

(** [commentSchema.safeParse(input)]; [is_email] is zod's test for an
    e-mail address, a library function. *)
Definition parse_comment (is_email : string -> bool) (input : object)
    : option object :=
  match safeParse commentSchema input with
  | Some data =>
      match get_string "author_email" data with
      | Some e => if is_email e then Some data else None
      | None => None
      end
  | None => None
  end.

(** The database with the AUTOINCREMENT high-water marks of [categories]
    and [comments]. *)
Record Store := {
  tables : DB;
  categories_seq : Z;
  comments_seq : Z
}.

(** What the category and comment handlers answer with. *)
Record CategoryCount := {
  category : Category.t;
  post_count : Z
}.

Inductive reply :=
| RCategories (categories : list CategoryCount)
| RCategory (category : Category.t)
| RComment (comment : Comment.t)
| RMessage (message : string)
| RError (error : string).

Record answer := { answer_status : Z; answer_body : reply }.

Definition answer_json (b : reply) (status : Z) : answer :=
  {| answer_status := status; answer_body := b |}.

(** The posts one category row is joined with in
    [categories c LEFT JOIN posts p ON c.id = p.category_id
     AND p.status = 'published']. *)
Definition published_in (ps : list Post.t) (c : Category.t) : list Post.t :=
  filter (fun p => references p c && (Post.status p =? "published")%string) ps.

(** [SELECT c.*, COUNT(p.id) as post_count ... GROUP BY c.id ORDER BY
    c.name]: one row for each category id, [c.*] taken from the first
    category of the group, [COUNT(p.id)] the number of joined posts of the
    group (a row joined with no post has a NULL [p.id] and counts for 0). *)
Definition category_counts (db : DB) : list CategoryCount :=
  order_by (fun a b => (Category.name (category a) <=? Category.name (category b))%string)
    (flat_map
       (fun k =>
          match find (fun c => Category.id c =? k) (categories db) with
          | Some c =>
              [ {| category := c;
                   post_count :=
                     Z.of_nat (length (flat_map (published_in (posts db))
                                 (filter (fun c' => Category.id c' =? k)
                                         (categories db)))) |} ]
          | None => []
          end)
       (nodup Z.eq_dec (map Category.id (categories db)))).

(** GET /api/categories (index.ts, lines 412-427). *)
Definition get_categories (db : DB) : answer :=
  answer_json (RCategories (category_counts db)) 200.

Definition next_category_id (st : Store) : Z :=
  1 + fold_right Z.max (categories_seq st) (map Category.id (categories (tables st))).

(** [INSERT INTO categories (name, slug, description, created_at)
    VALUES (?, ?, ?, ?)]: [name] and [slug] are UNIQUE. *)
Definition insert_category (st : Store) (row : Z -> Category.t)
    : outcome (D1Result * Store) :=
  let id := next_category_id st in
  let r := row id in
  if existsb (fun c => (Category.name c =? Category.name r)%string
                       || (Category.slug c =? Category.slug r)%string)
             (categories (tables st))
  then Throws unique_failed
  else Done ({| success := true; meta := {| changes := 1; last_row_id := id |} |},
             {| tables := {| posts := posts (tables st);
                             categories := categories (tables st) ++ [r];
                             comments := comments (tables st);
                             posts_seq := posts_seq (tables st) |};
                categories_seq := id;
                comments_seq := comments_seq st |}).

Definition new_category (data : object) (now : string) (id : Z) : Category.t :=
  let name := match get_string "name" data with Some s => s | None => "" end in
  {| Category.id := id;
     Category.name := name;
     Category.slug := generateSlug name;
     Category.description := truthy (get_string "description" data);
     Category.created_at := now |}.

(** POST /api/admin/categories (index.ts, lines 429-455). *)
Definition create_category (st : Store) (input : object) (now : string)
    : answer * Store :=
  match safeParse categorySchema input with
  | None => (answer_json (RError "Invalid input") 400, st)
  | Some data =>
      match insert_category st (new_category data now) with
      | Throws e =>
          if includes "UNIQUE constraint failed" (message e)
          then (answer_json (RError "A category with this name already exists") 409, st)
          else (answer_json (RError "Failed to create category") 500, st)
      | Done (result, st') =>
          match find (fun c => Category.id c =? last_row_id (meta result))
                     (categories (tables st')) with
          | Some c => (answer_json (RCategory c) 201, st')
          | None => (answer_json (RError "Failed to create category") 500, st')
          end
      end
  end.

Definition next_comment_id (st : Store) : Z :=
  1 + fold_right Z.max (comments_seq st) (map Comment.id (comments (tables st))).

(** [INSERT INTO comments (post_id, author_name, author_email, content,
    status, created_at) VALUES (?, ?, ?, ?, 'pending', ?)]; [post_id]
    REFERENCES posts(id). *)
Definition insert_comment (st : Store) (row : Z -> Comment.t)
    : outcome (D1Result * Store) :=
  let id := next_comment_id st in
  let r := row id in
  if existsb (fun p => Post.id p =? Comment.post_id r) (posts (tables st))
  then Done ({| success := true; meta := {| changes := 1; last_row_id := id |} |},
             {| tables := {| posts := posts (tables st);
                             categories := categories (tables st);
                             comments := comments (tables st) ++ [r];
                             posts_seq := posts_seq (tables st) |};
                categories_seq := categories_seq st;
                comments_seq := id |})
  else Throws foreign_key_failed.

Definition new_comment (postId : Z) (data : object) (now : string) (id : Z)
    : Comment.t :=
  let text k := match get_string k data with Some s => s | None => "" end in
  {| Comment.id := id;
     Comment.post_id := postId;
     Comment.author_name := text "author_name";
     Comment.author_email := text "author_email";
     Comment.content := text "content";
     Comment.status := "pending";
     Comment.created_at := now |}.

(** POST /api/posts/:postId/comments (index.ts, lines 476-505); [postId]
    is the route parameter as [parseInt] reads it. The double-quoted
    ["published"] of the lookup names no column and is read as the text. *)
Definition create_comment (is_email : string -> bool) (st : Store) (postId : Z)
    (input : object) (now : string) : answer * Store :=
  match parse_comment is_email input with
  | None => (answer_json (RError "Invalid input") 400, st)
  | Some data =>
      match find (fun p => (Post.id p =? postId)
                           && (Post.status p =? "published")%string)
                 (posts (tables st)) with
      | None => (answer_json (RError "Post not found") 404, st)
      | Some _ =>
          match insert_comment st (new_comment postId data now) with
          | Throws _ => (answer_json (RError "Failed to create comment") 500, st)
          | Done (result, st') =>
              match find (fun c => Comment.id c =? last_row_id (meta result))
                         (comments (tables st')) with
              | Some c => (answer_json (RComment c) 201, st')
              | None => (answer_json (RError "Failed to create comment") 500, st')
              end
          end
      end
  end.

Definition set_comment_status (status : string) (c : Comment.t) : Comment.t :=
  {| Comment.id := Comment.id c; Comment.post_id := Comment.post_id c;
     Comment.author_name := Comment.author_name c;
     Comment.author_email := Comment.author_email c;
     Comment.content := Comment.content c;
     Comment.status := status;
     Comment.created_at := Comment.created_at c |}.

(** [UPDATE comments SET status = ? WHERE id = ?]. *)
Definition update_comment_status (db : DB) (status : string) (id : Z)
    : D1Result * DB :=
  ({| success := true;
      meta := {| changes := Z.of_nat (length (filter (fun c => Comment.id c =? id)
                                                     (comments db)));
                 last_row_id := 0 |} |},
   {| posts := posts db; categories := categories db;
      comments := map (fun c => if Comment.id c =? id
                                then set_comment_status status c else c)
                      (comments db);
      posts_seq := posts_seq db |}).

(** PUT /api/admin/comments/:id/status (index.ts, lines 541-566). *)
Definition put_comment_status (db : DB) (id : Z) (input : object) : answer * DB :=
  match safeParse statusSchema input with
  | None => (answer_json (RError "Invalid status") 400, db)
  | Some data =>
      let status := match get_string "status" data with Some s => s | None => "" end in
      let '(result, db') := update_comment_status db status id in
      if is_zero (result_changes result)
      then (answer_json (RError "Comment not found") 404, db')
      else (answer_json (RMessage "Comment status updated successfully") 200, db')
  end.

(* ================================================================== *)
(** ** Vocabulary of the properties *)

(** Two comments in ascending, and two queue rows in descending, order of
    [created_at]. *)
Definition chronological (a b : Comment.t) : Prop :=
  (Comment.created_at a <=? Comment.created_at b)%string = true.

Definition latest_first (a b : CommentRow) : Prop :=
  (Comment.created_at (comment b) <=? Comment.created_at (comment a))%string = true.

(** The comments of a post that have a given status, in table order. *)
Definition post_comments_with (db : DB) (postId : Z) (status : string)
    : list Comment.t :=
  filter (fun c => (Comment.post_id c =? postId)
                   && (Comment.status c =? status)%string) (comments db).

(** The path of the public comment listing of a post. *)
Definition comments_path (postId : string) : string :=
  "/api/posts/" ++ postId ++ "/comments".

(** The rows of [posts] a statement with [WHERE id = ?] touches. *)
Definition posts_with_id (db : DB) (id : Z) : list Post.t :=
  filter (fun p => Post.id p =? id) (posts db).

(** A letter or a digit, in either case. *)
Definition is_alnum (c : ascii) : bool := is_upper c || is_lower c || is_digit c.

Definition no_alnum (s : string) : bool :=
  forallb (fun c => negb (is_alnum c)) (list_ascii_of_string s).

(** A text of ASCII characters. *)
Definition ascii_text (s : string) : bool :=
  forallb is_ascii (list_ascii_of_string s).

(** A title whose lower-cased form has no character of [[a-z0-9]]. *)
Definition unlettered (title : string) : bool :=
  forallb (fun c => negb (in_az09 c)) (toLowerCase (list_ascii_of_string title)).

(** The field a schema declares for a key. *)
Fixpoint field_of (k : string) (s : schema) : option zfield :=
  match s with
  | [] => None
  | (k', f) :: rest => if (k' =? k)%string then Some f else field_of k rest
  end.

Fixpoint distinct_keys (s : schema) : bool :=
  match s with
  | [] => true
  | (k, _) :: rest =>
      match field_of k rest with None => distinct_keys rest | Some _ => false end
  end.

(** What an update must leave alone in a post: its id with its
    [created_at]. *)
Definition creation (p : Post.t) : Z * string := (Post.id p, Post.created_at p).

(** The safe integers: those of magnitude below 2^53, which a double
    holds together with their neighbours. *)
Definition safe (z : Z) : Prop := - 2 ^ 53 < z < 2 ^ 53.

(** The double that holds the integer [v], for [0 < v < 2^53], with the
    sign [s]: 53 bits of mantissa, [v] shifted to fill them. *)
Definition canon (s : bool) (v : Z) : double :=
  S754_finite s (Z.to_pos (v * 2 ^ (53 - Zdigits2 v))) (Zdigits2 v - 53).

(** A shift record of [SpecFloat] that has lost no bit. *)
Definition exact_record (m : Z) : shr_record :=
  {| shr_m := m; shr_r := false; shr_s := false |}.

(** [n] is the ceiling of [t / l], for [l] other than 0. *)
Definition is_ceiling (n t l : Z) : Prop :=
  (0 < l -> (n - 1) * l < t <= n * l) /\ (l < 0 -> n * l <= t < (n - 1) * l).

(** The filter part of the list statement, and the rows it selects
    before LIMIT and OFFSET. *)
Definition list_filters (qs : query_string) : list clause * list value :=
  filters category_slug_eq qs.

Definition unpaginated (db : DB) (qs : query_string) : list PostRow :=
  matching_rows db (fst (list_filters qs)) (snd (list_filters qs)).

(** The rows the count statement of a request counts. *)
Definition counted (db : DB) (qs : query_string) : list PostRow :=
  counted_rows db (fst (count_statement qs)) (snd (count_statement qs)).

(* ================================================================== *)
(** ** A sample database, after seed.sql *)

Definition technology : Category.t :=
  {| Category.id := 1; Category.name := "Technology";
     Category.slug := "technology";
     Category.description := Some "Articles about technology and programming";
     Category.created_at := "2024-01-01 08:00:00" |}.

Definition design : Category.t :=
  {| Category.id := 2; Category.name := "Design"; Category.slug := "design";
     Category.description := Some "UI/UX design and creative content";
     Category.created_at := "2024-01-01 08:00:00" |}.

Definition workers_post : Post.t :=
  {| Post.id := 1;
     Post.title := "Getting Started with Cloudflare Workers";
     Post.slug := "getting-started-with-cloudflare-workers";
     Post.content := "Cloudflare Workers provide a serverless execution environment.";
     Post.excerpt := Some "Learn how to build serverless applications";
     Post.author := "John Doe"; Post.status := "published";
     Post.featured_image := None;
     Post.tags := Some "cloudflare,serverless,javascript";
     Post.category_id := Some 1;
     Post.created_at := "2024-01-01T10:00:00.000Z";
     Post.updated_at := "2024-01-01T10:00:00.000Z";
     Post.published_at := Some "2024-01-01T10:00:00.000Z" |}.

Definition api_post : Post.t :=
  {| Post.id := 2;
     Post.title := "Modern API Design Principles";
     Post.slug := "modern-api-design-principles";
     Post.content := "APIs are the backbone of modern applications.";
     Post.excerpt := Some "Essential principles for designing modern, scalable APIs";
     Post.author := "Jane Smith"; Post.status := "published";
     Post.featured_image := None;
     Post.tags := Some "api,design,rest,graphql";
     Post.category_id := Some 1;
     Post.created_at := "2024-01-02T10:00:00.000Z";
     Post.updated_at := "2024-01-02T10:00:00.000Z";
     Post.published_at := Some "2024-01-02T10:00:00.000Z" |}.

Definition alice_comment : Comment.t :=
  {| Comment.id := 1; Comment.post_id := 1; Comment.author_name := "Alice Johnson";
     Comment.author_email := "alice@example.com";
     Comment.content := "Great introduction to Cloudflare Workers!";
     Comment.status := "approved";
     Comment.created_at := "2024-01-03T09:00:00.000Z" |}.

Definition bob_comment : Comment.t :=
  {| Comment.id := 2; Comment.post_id := 1; Comment.author_name := "Bob Wilson";
     Comment.author_email := "bob@example.com";
     Comment.content := "Thanks for the detailed explanation.";
     Comment.status := "approved";
     Comment.created_at := "2024-01-04T09:00:00.000Z" |}.

Definition charlie_comment : Comment.t :=
  {| Comment.id := 3; Comment.post_id := 2; Comment.author_name := "Charlie Brown";
     Comment.author_email := "charlie@example.com";
     Comment.content := "Excellent coverage of API design principles.";
     Comment.status := "pending";
     Comment.created_at := "2024-01-05T09:00:00.000Z" |}.

Definition seeded : DB :=
  {| posts := [workers_post; api_post];
     categories := [technology; design];
     comments := [alice_comment; bob_comment; charlie_comment];
     posts_seq := 2 |}.


(** Stand-ins for the library functions on the sample inputs: every
    [http] string is a URL, and a timestamp renders as it is; ASCII
    letters are lower-cased and other characters kept; an integer is read
    off an optional minus sign and the decimal digits after it. *)
Definition http_url (s : string) : bool := prefix "http" s.
Definition same_iso (s : string) : option string := Some s.

Definition lower_ascii (s : chars) : chars := map lower_char s.

Fixpoint decimal (acc : option Z) (s : chars) : option Z :=
  match s with
  | [] => acc
  | c :: rest =>
      if is_digit c
      then decimal (Some (10 * match acc with Some a => a | None => 0 end
                          + (Z.of_N (code c) - 48))) rest
      else acc
  end.

Definition read_int (s : string) : number :=
  let '(negative, digits) :=
    match list_ascii_of_string s with
    | "-"%char :: r => (true, r)
    | r => (false, r)
    end in
  match decimal None digits with
  | Some n => of_double (to_double (Int (if negative then - n else n)))
  | None => NaN
  end.


Definition published_input : object :=
  [("title", VStr "Hello, World!"); ("content", VStr "Hello");
   ("author", VStr "Ann"); ("status", VStr "published")].

Definition retitle_input : object :=
  [("title", VStr "A New Title"); ("created_at", VStr "1999-01-01T00:00:00.000Z")].

Definition second_page : query_string := [("page", "2"); ("limit", "1")].

Definition a_moment : string := "2024-02-01T00:00:00.000Z".

(* ================================================================== *)
(** ** Vocabulary of the further properties *)

(** A post with its [updated_at] replaced. *)
Definition touched (now : string) (p : Post.t) : Post.t :=
  {| Post.id := Post.id p; Post.title := Post.title p; Post.slug := Post.slug p;
     Post.content := Post.content p; Post.excerpt := Post.excerpt p;
     Post.author := Post.author p; Post.status := Post.status p;
     Post.featured_image := Post.featured_image p; Post.tags := Post.tags p;
     Post.category_id := Post.category_id p; Post.created_at := Post.created_at p;
     Post.updated_at := now; Post.published_at := Post.published_at p |}.

(** The constraints of [posts] the statements check: UNIQUE(slug) and the
    reference to [categories]. *)
Definition posts_valid (db : DB) : bool :=
  unique_slugs (posts db)
  && forallb (fun p => category_known db (Post.category_id p)) (posts db).

(** The posts other than the one with a given id. *)
Definition other_posts (id : Z) (ps : list Post.t) : list Post.t :=
  filter (fun p => negb (Post.id p =? id)) ps.

(** A search text without the wildcards of LIKE. *)
Definition plain (s : string) : bool :=
  forallb (fun c => negb (Ascii.eqb c "%" || Ascii.eqb c "_"))
          (list_ascii_of_string s).

(** Two texts that are the same up to the case of their letters. *)
Definition same_letters (a b : chars) : Prop :=
  map lower_char a = map lower_char b.

(** The published posts of a category. *)
Definition published_posts_of (db : DB) (c : Category.t) : list Post.t :=
  filter (fun p => references p c && (Post.status p =? "published")%string)
         (posts db).

(** Two rows of the category listing in ascending order of name. *)
Definition by_name (a b : CategoryCount) : Prop :=
  (Category.name (category a) <=? Category.name (category b))%string = true.

(** The statuses a moderation decision may give. *)
Definition moderation_statuses : list string := ["pending"; "approved"; "rejected"].

(** The comments table after a moderation decision for an id. *)
Definition moderated (status : string) (id : Z) (cs : list Comment.t)
    : list Comment.t :=
  map (fun c => if Comment.id c =? id then set_comment_status status c else c) cs.

(* ================================================================== *)
(** ** More sample data *)

Definition draft_post : Post.t :=
  {| Post.id := 3; Post.title := "Notes"; Post.slug := "notes";
     Post.content := "Not ready yet."; Post.excerpt := Some "Not ready yet....";
     Post.author := "John Doe"; Post.status := "draft";
     Post.featured_image := None; Post.tags := Some "";
     Post.category_id := None;
     Post.created_at := "2024-01-06T10:00:00.000Z";
     Post.updated_at := "2024-01-06T10:00:00.000Z";
     Post.published_at := None |}.

Definition drafted : DB :=
  {| posts := [workers_post; api_post; draft_post];
     categories := [technology; design];
     comments := [alice_comment; bob_comment; charlie_comment];
     posts_seq := 3 |}.

Definition seeded_store : Store :=
  {| tables := drafted; categories_seq := 2; comments_seq := 3 |}.

(** A stand-in for the e-mail test on the sample inputs. *)
Definition has_at (s : string) : bool := includes "@" s.

Definition comment_input : object :=
  [("post_id", VNum (Int 99)); ("author_name", VStr "Dana");
   ("author_email", VStr "dana@example.com"); ("content", VStr "Nice post")].

Definition same_slug_input : object :=
  [("title", VStr "Modern API design principles!"); ("content", VStr "Hello");
   ("author", VStr "Ann")].

Definition republish_input : object := [("status", VStr "published")].

Definition take_slug_input : object := [("title", VStr "Modern API Design Principles")].

Definition travel_input : object := [("name", VStr "Travel Notes")].

Definition approve_input : object := [("status", VStr "approved")].

(* ================================================================== *)
(** * Properties *)

(** ** The model on examples *)

Example strip_after_replace :
  strip_edges true (replace_runs false (list_ascii_of_string "  hello, world!  "))
  = list_ascii_of_string "hello-world".
Proof. reflexivity. Qed.
Example strip_one_hyphen_each_side :
  strip_edges true (list_ascii_of_string "--a--") = list_ascii_of_string "-a-".
Proof. reflexivity. Qed.

(** Doubles round: a product beyond 2^53 is the nearest double, and an
    integer that no double holds reads as its neighbour. *)
Example offset_rounds :
  num_mul (num_sub (Int 94906268) (Int 1)) (Int 94906267) = Int 9007199515875288.
Proof. reflexivity. Qed.
Example odd_beyond_2_53 : of_double (to_double (Int (2 ^ 53 + 1))) = Int (2 ^ 53).
Proof. reflexivity. Qed.
Example ceil_up : ceil_quotient (Int 7) (Int 2) = Int 4.
Proof. reflexivity. Qed.
Example ceil_negative : ceil_quotient (Int 7) (Int (-2)) = Int (-3).
Proof. reflexivity. Qed.
Example ceil_by_zero :
  ceil_quotient (Int 2) (Int 0) = Infinity /\ ceil_quotient (Int 0) (Int 0) = NaN.
Proof. split; reflexivity. Qed.
Example times_infinity : num_mul (Int 0) Infinity = NaN /\ num_mul (Int 3) Infinity = Infinity.
Proof. split; reflexivity. Qed.
Example like_contains : like "Hello, World" "%WORLD%" = true.
Proof. reflexivity. Qed.
Example like_misses : like "Hello, World" "%word%" = false.
Proof. reflexivity. Qed.
Example like_one : like "cat" "c_t" = true.
Proof. reflexivity. Qed.

(** ** Slug generator *)

Lemma az09_not_hyphen c : in_az09 c = true -> is_hyphen c = false.
Proof. destruct c as [[] [] [] [] [] [] [] []]; vm_compute; congruence. Qed.

Lemma slug_char_cases c :
  slug_char c = true -> in_az09 c = true \/ (in_az09 c = false /\ c = hyphen).
Proof.
  unfold slug_char. fold (in_az09 c). destruct (in_az09 c) eqn:E; [now left|].
  simpl. intros H. right. split; [reflexivity|]. now apply Ascii.eqb_eq.
Qed.

Lemma slug_char_lower c : slug_char c = true -> lower_char c = c.
Proof. destruct c as [[] [] [] [] [] [] [] []]; vm_compute; congruence. Qed.

Lemma is_hyphen_hyphen : is_hyphen hyphen = true.
Proof. reflexivity. Qed.

Lemma replace_runs_chars b s : forallb slug_char (replace_runs b s) = true.
Proof.
  revert b. induction s as [|c rest IH]; intros b; simpl; [reflexivity|].
  destruct (in_az09 c) eqn:E.
  - simpl. rewrite IH. unfold slug_char. fold (in_az09 c). now rewrite E.
  - destruct b; simpl; now rewrite ?IH.
Qed.

Lemma replace_runs_in_run s : starts_with_hyphen (replace_runs true s) = false.
Proof.
  induction s as [|c rest IH]; simpl; [reflexivity|].
  destruct (in_az09 c) eqn:E; [|exact IH].
  simpl. now apply az09_not_hyphen.
Qed.

Lemma replace_runs_single b s : no_double_hyphen (replace_runs b s) = true.
Proof.
  revert b. induction s as [|c rest IH]; intros b; simpl; [reflexivity|].
  destruct (in_az09 c) eqn:E.
  - simpl. rewrite IH, (az09_not_hyphen _ E). reflexivity.
  - destruct b; [apply IH|].
    simpl. rewrite IH. fold (starts_with_hyphen (replace_runs true rest)).
    now rewrite replace_runs_in_run.
Qed.

Lemma strip_edges_chars b s :
  forallb slug_char s = true -> forallb slug_char (strip_edges b s) = true.
Proof.
  revert b. induction s as [|c rest IH]; intros b; simpl; [reflexivity|].
  intros H. apply andb_true_iff in H as [Hc Hr].
  destruct (is_hyphen c && (b || _)); simpl; rewrite ?Hc; now apply IH.
Qed.

Lemma strip_edges_head s :
  starts_with_hyphen (strip_edges false s) = true -> starts_with_hyphen s = true.
Proof.
  destruct s as [|c rest]; simpl; [congruence|].
  destruct (is_hyphen c) eqn:E; [reflexivity|]. simpl. now rewrite E.
Qed.

Lemma strip_edges_single b s :
  no_double_hyphen s = true -> no_double_hyphen (strip_edges b s) = true.
Proof.
  revert b. induction s as [|c rest IH]; intros b; simpl; [reflexivity|].
  intros H. apply andb_true_iff in H as [Hc Hr].
  destruct (is_hyphen c && (b || _)) eqn:E; [now apply IH|].
  simpl. rewrite (IH false Hr), andb_true_r.
  destruct (is_hyphen c) eqn:Ec; [|reflexivity]. simpl in *.
  destruct (strip_edges false rest) as [|d l] eqn:El; [reflexivity|].
  destruct (is_hyphen d) eqn:Ed; [|reflexivity].
  assert (Hs : starts_with_hyphen rest = true).
  { apply strip_edges_head. rewrite El. exact Ed. }
  destruct rest as [|d' l']; simpl in Hs; [discriminate|].
  rewrite Hs in Hc. discriminate.
Qed.

Lemma strip_edges_start s :
  no_double_hyphen s = true -> starts_with_hyphen (strip_edges true s) = false.
Proof.
  destruct s as [|c rest]; simpl; [reflexivity|].
  intros H. apply andb_true_iff in H as [Hc Hr].
  destruct (is_hyphen c) eqn:Ec; simpl; [|exact Ec].
  destruct (starts_with_hyphen (strip_edges false rest)) eqn:E; [|reflexivity].
  apply strip_edges_head in E. destruct rest as [|d l]; simpl in E; [discriminate|].
  rewrite E in Hc. discriminate.
Qed.

Lemma strip_edges_end b s :
  no_double_hyphen s = true -> ends_with_hyphen (strip_edges b s) = false.
Proof.
  revert b. induction s as [|c rest IH]; intros b; simpl; [reflexivity|].
  intros H. apply andb_true_iff in H as [Hc Hr].
  destruct (is_hyphen c && (b || _)) eqn:E; [now apply IH|].
  simpl. specialize (IH false Hr).
  destruct (strip_edges false rest) as [|d l] eqn:El; [|exact IH].
  destruct (is_hyphen c) eqn:Ec; [|reflexivity]. simpl in E, Hc.
  destruct rest as [|d l]; [now rewrite orb_true_r in E|].
  rewrite orb_false_r in E. subst b.
  destruct (is_hyphen d) eqn:Ed; [discriminate|].
  simpl in El. rewrite Ed in El. discriminate.
Qed.

Lemma slug_chars_well_formed title : well_formed_slug (slug_chars title) = true.
Proof.
  unfold well_formed_slug, slug_chars.
  set (r := replace_runs false (toLowerCase title)).
  assert (Hs : no_double_hyphen r = true) by apply replace_runs_single.
  rewrite strip_edges_chars by apply replace_runs_chars.
  rewrite strip_edges_single, strip_edges_start, strip_edges_end by exact Hs.
  reflexivity.
Qed.

(** C3. For every title the generated slug holds only lower-case letters,
    digits and hyphens, has no two hyphens in a row, and neither starts nor
    ends with a hyphen. *)
Theorem generateSlug_shape (title : string) :
  let s := list_ascii_of_string (generateSlug title) in
  forallb slug_char s = true
  /\ no_double_hyphen s = true
  /\ starts_with_hyphen s = false
  /\ ends_with_hyphen s = false.
Proof.
  unfold generateSlug. rewrite list_ascii_of_string_of_list_ascii. cbv zeta.
  pose proof (slug_chars_well_formed (list_ascii_of_string title)) as H.
  unfold well_formed_slug in H.
  repeat (apply andb_true_iff in H as [H ?]).
  repeat split; try assumption; now apply negb_true_iff.
Qed.

Lemma slug_char_ascii c : slug_char c = true -> is_ascii c = true.
Proof. destruct c as [[] [] [] [] [] [] [] []]; vm_compute; congruence. Qed.

Lemma toLowerCase_slug s : forallb slug_char s = true -> toLowerCase s = s.
Proof.
  intros H. rewrite toLowerCase_ascii.
  - induction s as [|c rest IH]; simpl; [reflexivity|].
    simpl in H. apply andb_true_iff in H as [Hc Hr].
    now rewrite (slug_char_lower _ Hc), IH.
  - induction s as [|c rest IH]; simpl; [reflexivity|].
    simpl in H. apply andb_true_iff in H as [Hc Hr].
    now rewrite (slug_char_ascii _ Hc), IH.
Qed.

Lemma replace_runs_slug b s :
  forallb slug_char s = true -> no_double_hyphen s = true ->
  (b = true -> starts_with_hyphen s = false) ->
  replace_runs b s = s.
Proof.
  revert b. induction s as [|c rest IH]; intros b; simpl; [reflexivity|].
  intros H D Hb. apply andb_true_iff in H as [Hc Hr].
  apply andb_true_iff in D as [Dc Dr].
  destruct (slug_char_cases _ Hc) as [E | [E ->]]; rewrite E.
  - f_equal. apply IH; auto. discriminate.
  - destruct b; [specialize (Hb eq_refl); discriminate|].
    f_equal. apply IH; auto. intros _.
    destruct rest as [|d l]; [reflexivity|]. simpl in Dc |- *.
    now destruct (is_hyphen d).
Qed.

Lemma strip_edges_slug b s :
  (b = true -> starts_with_hyphen s = false) -> ends_with_hyphen s = false ->
  strip_edges b s = s.
Proof.
  revert b. induction s as [|c rest IH]; intros b; simpl; [reflexivity|].
  intros Hb He.
  assert (E : is_hyphen c && (b || match rest with [] => true | _ => false end) = false).
  { destruct (is_hyphen c) eqn:Ec; [|reflexivity]. simpl.
    destruct b; [specialize (Hb eq_refl); discriminate|].
    destruct rest; [discriminate|reflexivity]. }
  rewrite E. f_equal. apply IH; [discriminate|].
  destruct rest; [reflexivity|exact He].
Qed.

Lemma slug_chars_fixpoint s : well_formed_slug s = true -> slug_chars s = s.
Proof.
  unfold well_formed_slug, slug_chars. intros H.
  repeat (apply andb_true_iff in H as [H ?]).
  rewrite toLowerCase_slug by assumption.
  rewrite replace_runs_slug; try assumption; [|discriminate].
  apply strip_edges_slug; intros; now apply negb_true_iff.
Qed.

(** C4. The slug generator is idempotent: a slug is made of [[a-z0-9-]],
    which [toLowerCase] keeps as it is. *)
Theorem generateSlug_idempotent (x : string) :
  generateSlug (generateSlug x) = generateSlug x.
Proof.
  unfold generateSlug. rewrite list_ascii_of_string_of_list_ascii.
  now rewrite slug_chars_fixpoint by apply slug_chars_well_formed.
Qed.

(** ** Ordering and slicing of result rows *)

Lemma string_leb_trans (a b c : string) :
  (a <=? b)%string = true -> (b <=? c)%string = true -> (a <=? c)%string = true.
Proof.
  unfold String.leb. revert b c.
  induction a as [|a0 a IH]; intros [|b0 b] [|c0 c]; simpl; try easy.
  unfold Ascii.compare.
  destruct (N.compare_spec (N_of_ascii a0) (N_of_ascii b0)) as [E1|L1|G1];
    destruct (N.compare_spec (N_of_ascii b0) (N_of_ascii c0)) as [E2|L2|G2];
    destruct (N.compare_spec (N_of_ascii a0) (N_of_ascii c0)) as [E3|L3|G3];
    try easy; try lia.
  apply IH.
Qed.

Lemma string_leb_refl (a : string) : (a <=? a)%string = true.
Proof. destruct (String.leb_total a a); assumption. Qed.

Section Order.
Context {A : Type} (le : A -> A -> bool).
Hypothesis le_total : forall a b, le a b = true \/ le b a = true.
Hypothesis le_trans : forall a b c, le a b = true -> le b c = true -> le a c = true.

Lemma insert_by_perm x l : Permutation (insert_by le x l) (x :: l).
Proof.
  induction l as [|y rest IH]; simpl; [reflexivity|].
  destruct (le x y); [reflexivity|].
  rewrite IH. apply perm_swap.
Qed.

Lemma order_by_perm l : Permutation (order_by le l) l.
Proof.
  induction l as [|x rest IH]; simpl; [reflexivity|].
  rewrite insert_by_perm. now constructor.
Qed.

Lemma insert_by_sorted x l :
  StronglySorted (fun a b => le a b = true) l ->
  StronglySorted (fun a b => le a b = true) (insert_by le x l).
Proof.
  induction 1 as [|y rest Hs IH Hy]; simpl.
  - repeat constructor.
  - destruct (le x y) eqn:E.
    + constructor; [now constructor|].
      constructor; [exact E|].
      eapply Forall_impl; [|exact Hy]. intros z Hz. now apply le_trans with y.
    + constructor; [exact IH|].
      assert (Hyx : le y x = true) by (destruct (le_total x y); congruence).
      eapply Permutation_Forall; [symmetry; apply insert_by_perm|].
      now constructor.
Qed.

Lemma order_by_sorted l : StronglySorted (fun a b => le a b = true) (order_by le l).
Proof.
  induction l as [|x rest IH]; simpl; [constructor|].
  now apply insert_by_sorted.
Qed.
End Order.

Lemma skipn_sorted {A} (R : A -> A -> Prop) n l :
  StronglySorted R l -> StronglySorted R (skipn n l).
Proof.
  revert l. induction n as [|n IH]; intros l H; [exact H|].
  destruct l as [|x rest]; [constructor|]. simpl. apply IH. now inversion H.
Qed.

Lemma Forall_firstn {A} (P : A -> Prop) n l : Forall P l -> Forall P (firstn n l).
Proof.
  revert l. induction n as [|n IH]; intros l H; [constructor|].
  destruct H; simpl; constructor; auto.
Qed.

Lemma firstn_sorted {A} (R : A -> A -> Prop) n l :
  StronglySorted R l -> StronglySorted R (firstn n l).
Proof.
  revert l. induction n as [|n IH]; intros l H; [constructor|].
  destruct l as [|x rest]; [constructor|]. simpl.
  inversion H as [|? ? Hs Hx]; subst.
  constructor; [now apply IH|now apply Forall_firstn].
Qed.

Lemma limit_offset_sorted {A} (R : A -> A -> Prop) l o rows :
  StronglySorted R rows -> StronglySorted R (limit_offset l o rows).
Proof.
  intros H. unfold limit_offset.
  destruct (l <? 0); [|apply firstn_sorted]; now apply skipn_sorted.
Qed.

(** ** Comment listings *)

Lemma comments_of_post_sorted db post_id status :
  StronglySorted chronological (comments_of_post db post_id status).
Proof.
  unfold comments_of_post. apply (order_by_sorted oldest_first).
  - intros a b. apply String.leb_total.
  - intros a b c. apply string_leb_trans.
Qed.

Lemma comments_of_post_perm db post_id status :
  Permutation (comments_of_post db post_id status)
    (filter (fun c => (Comment.post_id c =? post_id)
                      && (Comment.status c =? status)%string) (comments db)).
Proof. apply order_by_perm. Qed.

Lemma comment_queue_sorted db status l o rows :
  comment_queue db status l o = Done rows -> StronglySorted latest_first rows.
Proof.
  unfold comment_queue. destruct l as [| |l]; try discriminate.
  destruct o as [| |o]; try discriminate.
  destruct (int64 l && int64 o); [|discriminate].
  intros [= <-]. apply limit_offset_sorted.
  apply (order_by_sorted newest_comment_first).
  - intros a b. apply String.leb_total.
  - intros a b c H1 H2. unfold newest_comment_first in *.
    eapply string_leb_trans; eassumption.
Qed.

(** C8, as the handlers have it. The public listing of a post's comments,
    and the comments nested in the answer of GET /api/posts/:slug, come in
    ascending order of [created_at]; the moderation queue of
    GET /api/admin/comments comes in descending order. *)
Theorem comment_listings_order (db : DB) (qs : query_string) :
  (forall postId,
      exists cs, get_post_comments db postId qs = json (BComments cs) 200
                 /\ StronglySorted chronological cs)
  /\ (forall slug p cs,
         get_post db slug qs = json (BPostComments p cs) 200 ->
         StronglySorted chronological cs)
  /\ (forall rows pg,
         get_admin_comments db qs = json (BCommentQueue rows pg) 200 ->
         StronglySorted latest_first rows).
Proof.
  split; [|split].
  - intros postId. eexists. split; [reflexivity|]. apply comments_of_post_sorted.
  - intros slug p cs. unfold get_post.
    destruct (find _ _) as [r|]; [|discriminate].
    destruct (formatRow r); [|discriminate].
    destruct (match req_query "comments" qs with Some v => _ | None => _ end);
      [|discriminate].
    intros [= _ <-]. apply comments_of_post_sorted.
  - intros rows pg. unfold get_admin_comments.
    destruct (comment_queue _ _ _ _) as [r|] eqn:E; [|discriminate].
    intros [= <- _]. eapply comment_queue_sorted. exact E.
Qed.

Lemma comments_path_public postId : asks_bearer (comments_path postId) = false.
Proof. reflexivity. Qed.

(** C10, as the handler has it. For a non-empty [status] parameter [s] the
    public listing answers exactly the post's comments whose status is [s],
    whatever [s] is; with the parameter absent or empty it answers the
    approved ones. The path is outside the bearer guard. *)
Theorem public_comments_by_status (db : DB) (postId : Z) (qs : query_string) :
  (forall s, req_query "status" qs = Some s -> s <> "" ->
     exists cs, get_post_comments db postId qs = json (BComments cs) 200
                /\ Permutation cs (post_comments_with db postId s))
  /\ (req_query "status" qs = None \/ req_query "status" qs = Some "" ->
      exists cs, get_post_comments db postId qs = json (BComments cs) 200
                 /\ Permutation cs (post_comments_with db postId "approved"))
  /\ (forall id, asks_bearer (comments_path id) = false).
Proof.
  split; [|split].
  - intros s Hs Hne. eexists. split; [reflexivity|].
    rewrite Hs. simpl. apply String.eqb_neq in Hne. rewrite Hne.
    apply comments_of_post_perm.
  - intros H. eexists. split; [reflexivity|].
    destruct H as [-> | ->]; simpl; apply comments_of_post_perm.
  - exact comments_path_public.
Qed.

(** ** Deleting a post *)

Lemma filter_split_length {A} (f : A -> bool) l :
  (length (filter f l) + length (filter (fun x => negb (f x)) l) = length l)%nat.
Proof.
  induction l as [|x rest IH]; simpl; [reflexivity|].
  destruct (f x); simpl; lia.
Qed.

Lemma find_none_filter {A} (f : A -> bool) l : find f l = None <-> filter f l = [].
Proof.
  induction l as [|x rest IH]; simpl; [tauto|].
  destruct (f x); [split; discriminate|exact IH].
Qed.

(** [result.changes] is [undefined] whatever the statement changed, so
    the comparison with 0 fails and the delete is answered with the
    success message. *)
Lemma remove_post_answer db id :
  fst (remove_post db id) = json (BMessage "Post deleted successfully") 200.
Proof. reflexivity. Qed.

Lemma delete_post_changes db id :
  exists result db',
    delete_post db id = Done (result, db')
    /\ changes (meta result) = Z.of_nat (length (posts_with_id db id))
    /\ (changes (meta result) = 0 <-> post_by_id db id = None).
Proof.
  unfold delete_post, posts_with_id, post_by_id.
  pose proof (filter_split_length (fun p => Post.id p =? id) (posts db)) as L.
  eexists. eexists. split; [reflexivity|]. cbn [meta changes].
  rewrite find_none_filter.
  set (hit := filter (fun p => Post.id p =? id) (posts db)) in *.
  split; [lia|]. destruct hit; simpl in *; split; intros H; try reflexivity;
    try discriminate; lia.
Qed.

(** ** Validation *)

Lemma safeParse_absent s input data k :
  safeParse s input = Some data -> field_of k s = None -> get k data = None.
Proof.
  revert data. induction s as [|[k' f] rest IH]; simpl; intros data H Hk.
  - now injection H as <-.
  - destruct (k' =? k)%string eqn:E; [discriminate|].
    destruct (parse_field f (get k' input)) as [[v|]|]; try discriminate;
      destruct (safeParse rest input) as [o|]; try discriminate;
      injection H as <-; simpl; rewrite ?E; now apply IH.
Qed.

Lemma safeParse_field s input data k f :
  distinct_keys s = true ->
  safeParse s input = Some data ->
  field_of k s = Some f ->
  exists r, parse_field f (get k input) = Some r /\ get k data = r.
Proof.
  revert data. induction s as [|[k' f'] rest IH]; simpl; intros data D H Hk.
  - discriminate.
  - destruct (field_of k' rest) eqn:Hfresh; [discriminate|].
    destruct (parse_field f' (get k' input)) as [[v|]|] eqn:P; try discriminate;
      destruct (safeParse rest input) as [o|] eqn:S; try discriminate;
      injection H as <-; simpl;
      destruct (k' =? k)%string eqn:E.
    + apply String.eqb_eq in E. subst k'. injection Hk as <-. eauto.
    + now apply IH.
    + apply String.eqb_eq in E. subst k'. injection Hk as <-.
      eexists. split; [exact P|]. eapply safeParse_absent; eauto.
    + now apply IH.
Qed.

Lemma parse_field_present f v r :
  parse_field f (Some v) = Some r -> r = Some v.
Proof.
  destruct f; simpl; destruct (check _ v); congruence.
Qed.

Lemma postSchema_present input data k f v :
  safeParse postSchema input = Some data ->
  field_of k postSchema = Some f ->
  get k input = Some v ->
  get k data = Some v.
Proof.
  intros H Hf Hv.
  destruct (safeParse_field postSchema input data k f eq_refl H Hf) as (r & P & G).
  rewrite Hv in P. apply parse_field_present in P. congruence.
Qed.

Lemma postSchema_status_default input data :
  safeParse postSchema input = Some data ->
  get "status" input = None ->
  get "status" data = Some (VStr "draft").
Proof.
  intros H Hv.
  destruct (safeParse_field postSchema input data "status" _ eq_refl H eq_refl)
    as (r & P & G).
  rewrite Hv in P. simpl in P. congruence.
Qed.

(** ** Empty slugs *)

Lemma no_alnum_lower c : is_alnum c = false -> in_az09 (lower_char c) = false.
Proof. destruct c as [[] [] [] [] [] [] [] []]; vm_compute; congruence. Qed.

Lemma replace_runs_no_alnum s :
  forallb (fun c => negb (in_az09 c)) s = true ->
  replace_runs true s = []
  /\ (replace_runs false s = [] \/ replace_runs false s = [hyphen]).
Proof.
  induction s as [|c rest IH]; simpl; [auto|].
  intros H. apply andb_true_iff in H as [Hc Hr].
  apply negb_true_iff in Hc. rewrite Hc.
  destruct (IH Hr) as [-> _]. auto.
Qed.

Lemma generateSlug_unlettered title :
  unlettered title = true -> generateSlug title = "".
Proof.
  unfold unlettered, generateSlug, slug_chars. intros L.
  destruct (replace_runs_no_alnum _ L) as [_ [-> | ->]]; reflexivity.
Qed.

Lemma ascii_unlettered title :
  ascii_text title = true -> no_alnum title = true -> unlettered title = true.
Proof.
  unfold ascii_text, no_alnum, unlettered. intros A H.
  rewrite (toLowerCase_ascii _ A). clear A.
  induction (list_ascii_of_string title) as [|c rest IH]; simpl; [reflexivity|].
  simpl in H. apply andb_true_iff in H as [Hc Hr].
  apply negb_true_iff in Hc. now rewrite (no_alnum_lower _ Hc), IH.
Qed.

(** ** Creating a post *)

Lemma max_id_bound (seq : Z) (ps : list Post.t) p :
  In p ps -> Post.id p <= fold_right Z.max seq (map Post.id ps).
Proof.
  induction ps as [|q rest IH]; simpl; [tauto|].
  intros [-> | H]; [lia|]. specialize (IH H). lia.
Qed.

Lemma next_post_id_fresh db : post_by_id db (next_post_id db) = None.
Proof.
  unfold post_by_id. destruct (find _ _) as [p|] eqn:E; [|reflexivity].
  apply find_some in E as [Hin Hid]. apply Z.eqb_eq in Hid.
  pose proof (max_id_bound (posts_seq db) _ _ Hin). unfold next_post_id in Hid. lia.
Qed.

Lemma find_app_fresh {A} (f : A -> bool) l x :
  find f l = None -> f x = true -> find f (l ++ [x]) = Some x.
Proof.
  induction l as [|y rest IH]; simpl; intros H Hx; [now rewrite Hx|].
  destruct (f y); [discriminate|auto].
Qed.

Lemma insert_post_done db row result db' :
  (forall id, Post.id (row id) = id) ->
  insert_post db row = Done (result, db') ->
  let id := next_post_id db in
  last_row_id (meta result) = id
  /\ posts db' = (posts db ++ [row id])%list
  /\ post_by_id db' id = Some (row id)
  /\ existsb (fun p => (Post.slug p =? Post.slug (row id))%string) (posts db) = false.
Proof.
  intros Hid. unfold insert_post.
  destruct (existsb _ (posts db)) eqn:U; [discriminate|].
  destruct (category_known db _); [|discriminate]. simpl.
  intros [= <- <-]. cbv zeta. repeat split.
  unfold post_by_id. simpl. apply find_app_fresh.
  - apply next_post_id_fresh.
  - rewrite Hid. apply Z.eqb_refl.
Qed.

Lemma formatPost_fields p q :
  formatPost p = Some q ->
  Post.id q = Post.id p /\ Post.slug q = Post.slug p /\ Post.title q = Post.title p
  /\ (truthy (Post.published_at p) = None -> Post.published_at q = None)
  /\ (truthy (Post.published_at p) <> None -> Post.published_at q <> None).
Proof.
  unfold formatPost.
  destruct (toISOString (Post.created_at p)); [|discriminate].
  destruct (toISOString (Post.updated_at p)); [|discriminate].
  destruct (truthy (Post.published_at p)) as [a|].
  - destruct (toISOString a); [|discriminate].
    intros [= <-]. simpl. repeat split; congruence.
  - intros [= <-]. simpl. repeat split; congruence.
Qed.

Lemma new_post_id data now id : Post.id (new_post data now id) = id.
Proof. reflexivity. Qed.

(** C5. When a create answers 201: with status [published] the stored
    [published_at] is the creation timestamp and the returned one is set;
    with status [draft], or no status, the stored [published_at] is NULL
    and the returned one is absent. *)
Theorem create_post_published_at (db : DB) (input : object) (now : string)
    (p : Post.t) (db' : DB) :
  now <> "" ->
  create_post db input now = (json (BPost p) 201, db') ->
  exists stored,
    post_by_id db' (Post.id p) = Some stored
    /\ post_by_id db (Post.id p) = None
    /\ Post.created_at stored = now
    /\ (get "status" input = Some (VStr "published") ->
        Post.published_at stored = Some now /\ Post.published_at p <> None)
    /\ (get "status" input = Some (VStr "draft") \/ get "status" input = None ->
        Post.published_at stored = None /\ Post.published_at p = None).
Proof.
  intros Hnow. unfold create_post.
  destruct (safeParse postSchema input) as [data|] eqn:V; [|discriminate].
  destruct (insert_post db (new_post data now)) as [[result db1]|e] eqn:I.
  2:{ destruct (includes _ _); discriminate. }
  destruct (insert_post_done _ _ _ _ (new_post_id data now) I) as (Hl & _ & Hf & _).
  rewrite Hl, Hf.
  destruct (formatPost _) as [q|] eqn:F; [|discriminate].
  intros [= <- <-].
  destruct (formatPost_fields _ _ F) as (Hi & _ & _ & Hnone & Hsome).
  rewrite Hi. exists (new_post data now (next_post_id db)).
  split; [exact Hf|]. split; [apply next_post_id_fresh|]. split; [reflexivity|].
  assert (Hst : forall s, get "status" data = Some (VStr s) ->
                Post.published_at (new_post data now (next_post_id db))
                = if (s =? "published")%string then Some now else None).
  { intros s Hs. unfold new_post, get_string. simpl. now rewrite Hs. }
  split.
  - intros Hin.
    pose proof (postSchema_present _ _ "status" _ _ V eq_refl Hin) as Hs.
    specialize (Hst _ Hs). split; [rewrite Hst; reflexivity|].
    apply Hsome. rewrite Hst. simpl.
    apply String.eqb_neq in Hnow. rewrite Hnow. discriminate.
  - intros Hin.
    assert (Hs : get "status" data = Some (VStr "draft")).
    { destruct Hin as [Hin | Hin].
      - exact (postSchema_present _ _ "status" _ _ V eq_refl Hin).
      - now apply postSchema_status_default with input. }
    specialize (Hst _ Hs). split; [rewrite Hst; reflexivity|].
    apply Hnone. now rewrite Hst.
Qed.

Lemma new_post_title input data now id title :
  safeParse postSchema input = Some data ->
  get "title" input = Some (VStr title) ->
  Post.title (new_post data now id) = title
  /\ Post.slug (new_post data now id) = generateSlug title.
Proof.
  intros V Hin.
  pose proof (postSchema_present _ _ "title" _ _ V eq_refl Hin) as Ht.
  unfold new_post, get_string. simpl. rewrite Ht. auto.
Qed.



(** ** Updating a post *)

Lemma get_none_notin k (o : object) : get k o = None -> ~ In k (map fst o).
Proof.
  induction o as [|[k' v] rest IH]; simpl; [tauto|].
  destruct (k' =? k)%string eqn:E; [discriminate|].
  apply String.eqb_neq in E. intros H [H1 | H2]; [congruence|now apply IH].
Qed.

Lemma entries_updates_columns data c :
  In c (fst (entries_updates data)) -> c = "slug" \/ (c <> "id" /\ In c (map fst data)).
Proof.
  induction data as [|[k v] rest IH]; simpl; [tauto|].
  destruct (entries_updates rest) as [u vs]. simpl in IH.
  destruct (k =? "title")%string eqn:Et; simpl.
  - apply String.eqb_eq in Et. subst k.
    intros [<- | [<- | H]]; [right; split; [discriminate|auto] | auto |].
    destruct (IH H) as [? | [? ?]]; auto.
  - destruct (k =? "id")%string eqn:Ei; simpl.
    + intros H. destruct (IH H) as [? | [? ?]]; auto.
    + apply String.eqb_neq in Ei.
      intros [<- | H]; [auto|]. destruct (IH H) as [? | [? ?]]; auto.
Qed.

Lemma assignments_columns data now c :
  In c (fst (assignments data now)) ->
  c = "slug" \/ c = "updated_at" \/ c = "published_at"
  \/ (c <> "id" /\ In c (map fst data)).
Proof.
  unfold assignments.
  pose proof (entries_updates_columns data c) as E.
  destruct (entries_updates data) as [u vs]. simpl in E.
  assert (B : In c (u ++ ["updated_at"]) ->
              c = "slug" \/ c = "updated_at" \/ c = "published_at"
              \/ (c <> "id" /\ In c (map fst data))).
  { intros H. apply in_app_or in H as [H | [<- | []]]; [|auto].
    destruct (E H); auto. }
  destruct (is_string (get "status" data) "published"); simpl; [|exact B].
  intros H. apply in_app_or in H as [H | [<- | []]]; auto.
Qed.

Lemma set_column_frame col v p p' :
  set_column col v p = Some p' -> col <> "id" -> col <> "created_at" ->
  creation p' = creation p.
Proof.
  unfold set_column. destruct p. intros H Hid Hc.
  apply String.eqb_neq in Hid, Hc. rewrite Hid, Hc in H.
  repeat match type of H with
         | (if ?b then _ else _) = _ => destruct b
         | option_map _ ?x = _ => destruct x; simpl in H
         end;
    try discriminate; now injection H as <-.
Qed.

Lemma set_columns_frame cols vals p p' :
  set_columns cols vals p = Some p' ->
  ~ In "id" cols -> ~ In "created_at" cols ->
  creation p' = creation p.
Proof.
  revert vals p. induction cols as [|c cols IH]; intros [|v vals] p; simpl;
    try discriminate.
  - now intros [= <-].
  - destruct (set_column c v p) as [p1|] eqn:E; [|discriminate].
    intros H Hid Hc. rewrite (IH _ _ H) by tauto.
    eapply set_column_frame; eauto.
Qed.

Lemma update_rows_frame id cols vals ps ps' n :
  update_rows id cols vals ps = Some (ps', n) ->
  ~ In "id" cols -> ~ In "created_at" cols ->
  map creation ps' = map creation ps.
Proof.
  intros H Hid Hc. revert ps' n H.
  induction ps as [|p rest IH]; simpl; intros ps' n H.
  - now injection H as <- <-.
  - destruct (update_rows id cols vals rest) as [[rest' m]|]; [|discriminate].
    specialize (IH _ _ eq_refl).
    destruct (Post.id p =? id).
    + destruct (set_columns cols vals p) as [p'|] eqn:E; [|discriminate].
      injection H as <- <-. simpl. rewrite IH.
      now rewrite (set_columns_frame _ _ _ _ E Hid Hc).
    + injection H as <- <-. simpl. now rewrite IH.
Qed.

Lemma update_post_frame db cols vals :
  ~ In "id" cols -> ~ In "created_at" cols ->
  match update_post db cols vals with
  | Done (_, db') => map creation (posts db') = map creation (posts db)
  | Throws _ => True
  end.
Proof.
  intros Hid Hc. unfold update_post.
  destruct (rev vals) as [|[| |[| |id]|] assigned]; try exact I.
  destruct (update_rows id cols (rev assigned) (posts db)) as [[ps n]|] eqn:E;
    [|exact I].
  destruct (n =? 0); [reflexivity|].
  destruct (unique_slugs ps); [|exact I].
  destruct (forallb _ ps); [|exact I].
  simpl. eapply update_rows_frame; eauto.
Qed.

Lemma combine_app_In {A B} (x : A * B) u v a b :
  In x (combine u v) -> In x (combine (u ++ a) (v ++ b)).
Proof.
  revert v. induction u as [|c u IH]; intros [|d v]; simpl; try tauto.
  intros [-> | H]; auto.
Qed.

Lemma entries_updates_title data t :
  get "title" data = Some (VStr t) ->
  let '(updates, values) := entries_updates data in
  In ("title", VStr t) (combine updates values)
  /\ In ("slug", VStr (generateSlug t)) (combine updates values).
Proof.
  induction data as [|[k v] rest IH]; simpl; [discriminate|].
  destruct (entries_updates rest) as [u vs].
  destruct (k =? "title")%string eqn:Et.
  - intros [= ->]. simpl. auto.
  - intros H. specialize (IH H). destruct (negb (k =? "id")%string); simpl; tauto.
Qed.

Lemma partial_title input data v :
  safeParse (partial postSchema) input = Some data ->
  get "title" input = Some v ->
  exists t, v = VStr t /\ get "title" data = Some (VStr t).
Proof.
  intros V Hin.
  destruct (safeParse_field (partial postSchema) input data "title" _ eq_refl V eq_refl)
    as (r & P & G).
  rewrite Hin in P. simpl in P.
  destruct v as [| | |t]; try discriminate.
  exists t. split; [reflexivity|].
  destruct (within _ _ t && true); congruence.
Qed.

Lemma put_post_slug_and_created_at_columns data now input :
  safeParse (partial postSchema) input = Some data ->
  ~ In "created_at" (fst (assignments data now))
  /\ ~ In "id" (fst (assignments data now)).
Proof.
  intros V.
  assert (Hkey : forall k, field_of k (partial postSchema) = None ->
                           k <> "slug" -> k <> "updated_at" -> k <> "published_at" ->
                           ~ In k (fst (assignments data now))).
  { intros k Hk H1 H2 H3 H.
    apply assignments_columns in H as [? | [? | [? | [_ H]]]]; try congruence.
    revert H. apply get_none_notin. eapply safeParse_absent; eauto. }
  split; apply Hkey; try reflexivity; discriminate.
Qed.

(** *** The stored slug after an update *)

Lemma set_column_slug col v p p' :
  set_column col v p = Some p' ->
  (col = "slug" -> v = VStr (Post.slug p'))
  /\ (col <> "slug" -> Post.slug p' = Post.slug p).
Proof.
  unfold set_column. destruct p. intros H.
  repeat match type of H with
         | (if (?a =? ?b)%string then _ else _) = _ =>
             let E := fresh "E" in
             destruct (a =? b)%string eqn:E;
             [apply String.eqb_eq in E; subst col|clear E]
         end;
    try discriminate;
    split; intros Hc; try discriminate; try congruence;
    destruct v as [| |[| |z]|s]; simpl in H; try discriminate;
    now injection H as <-.
Qed.

Lemma set_columns_slug cols vals p p' s :
  set_columns cols vals p = Some p' ->
  (forall v, In ("slug", v) (combine cols vals) -> v = VStr s) ->
  Post.slug p = s \/ (exists v, In ("slug", v) (combine cols vals)) ->
  Post.slug p' = s.
Proof.
  revert vals p. induction cols as [|c cols IH]; intros [|v vals] p; simpl;
    try discriminate.
  - intros [= <-] _ [H | [v []]]. exact H.
  - destruct (set_column c v p) as [p1|] eqn:E; [|discriminate].
    intros H Hall Hsome. apply (IH _ _ H); [auto|].
    destruct (set_column_slug _ _ _ _ E) as [Hs Hn].
    destruct (String.eqb_spec c "slug") as [-> | Hc].
    + left. specialize (Hs eq_refl). specialize (Hall v (or_introl eq_refl)).
      congruence.
    + rewrite (Hn Hc). destruct Hsome as [Hp | [w [Hw | Hw]]]; eauto.
      congruence.
Qed.

Lemma combine_app_split {A B} (x : A * B) u v a b :
  length u = length v ->
  In x (combine (u ++ a) (v ++ b)) -> In x (combine u v) \/ In x (combine a b).
Proof.
  revert v. induction u as [|c u IH]; intros [|d v]; simpl; try discriminate; auto.
  intros [= L] [H | H]; [auto|]. destruct (IH _ L H); auto.
Qed.

Lemma entries_updates_length data :
  length (fst (entries_updates data)) = length (snd (entries_updates data)).
Proof.
  induction data as [|[k v] rest IH]; simpl; [reflexivity|].
  destruct (entries_updates rest) as [u vs]. simpl in IH.
  destruct (k =? "title")%string; simpl; [now rewrite IH|].
  destruct (negb (k =? "id")%string); simpl; now rewrite ?IH.
Qed.

Lemma entries_updates_slug data v :
  ~ In "slug" (map fst data) ->
  In ("slug", v) (combine (fst (entries_updates data)) (snd (entries_updates data))) ->
  exists w, In ("title", w) data
            /\ v = VStr (generateSlug match w with VStr s => s | _ => "" end).
Proof.
  induction data as [|[k x] rest IH]; simpl; [tauto|].
  intros Hk. destruct (entries_updates rest) as [u vs]. simpl in IH.
  assert (Hrest : In ("slug", v) (combine u vs) ->
                  exists w, ((k, x) = ("title", w) \/ In ("title", w) rest)
                            /\ v = VStr (generateSlug match w with VStr s => s | _ => "" end)).
  { intros H. destruct (IH (fun H' => Hk (or_intror H')) H) as (w & ? & ?). eauto. }
  destruct (String.eqb_spec k "title") as [-> | Ht]; simpl.
  - intros [[=] | [[= <-] | H]]; [eauto | auto].
  - destruct (negb (k =? "id")%string); simpl; [|exact Hrest].
    intros [[= -> _] | H]; [tauto | auto].
Qed.

Lemma safeParse_keys s input data k v :
  safeParse s input = Some data -> In (k, v) data ->
  field_of k s <> None.
Proof.
  intros H Hin Hnone. pose proof (safeParse_absent _ _ _ _ H Hnone) as G.
  apply get_none_notin in G. apply G. now apply (in_map fst) in Hin.
Qed.

Lemma safeParse_once s input data k v :
  distinct_keys s = true -> safeParse s input = Some data ->
  In (k, v) data -> get k data = Some v.
Proof.
  revert data. induction s as [|[k' f] rest IH]; simpl; intros data D H Hin.
  - injection H as <-. destruct Hin.
  - destruct (field_of k' rest) eqn:Hfresh; [discriminate|].
    destruct (parse_field f (get k' input)) as [[x|]|]; try discriminate;
      destruct (safeParse rest input) as [o|] eqn:S; try discriminate;
      injection H as <-; [|now apply IH].
    simpl. destruct Hin as [[= -> ->] | Hin]; [now rewrite String.eqb_refl|].
    destruct (String.eqb_spec k' k) as [-> | _]; [|now apply IH].
    exfalso. eapply safeParse_keys; eauto.
Qed.

Lemma assignments_slug input data now t v :
  safeParse (partial postSchema) input = Some data ->
  get "title" data = Some (VStr t) ->
  In ("slug", v) (combine (fst (assignments data now)) (snd (assignments data now))) ->
  v = VStr (generateSlug t).
Proof.
  intros V Ht. unfold assignments.
  pose proof (entries_updates_length data) as L.
  pose proof (entries_updates_slug data v) as S.
  destruct (entries_updates data) as [u vs]. simpl in L, S.
  assert (Hentries : In ("slug", v) (combine u vs) -> v = VStr (generateSlug t)).
  { intros H. destruct S as (w & Hw & ->); [|exact H|].
    - apply get_none_notin. eapply safeParse_absent; eauto.
    - pose proof (safeParse_once (partial postSchema) _ _ _ _ eq_refl V Hw) as G.
      rewrite Ht in G. now injection G as <-. }
  assert (Hupdated : In ("slug", v) (combine (u ++ ["updated_at"]) (vs ++ [VStr now])) ->
                     v = VStr (generateSlug t)).
  { intros H. apply combine_app_split in H as [H | [[=] | []]]; auto. }
  destruct (is_string _ _); simpl; [|exact Hupdated].
  intros H. apply combine_app_split in H as [H | [[=] | []]]; auto.
  now rewrite !length_app, L.
Qed.

Lemma update_rows_count id cols vals ps ps' n :
  update_rows id cols vals ps = Some (ps', n) ->
  n = Z.of_nat (length (filter (fun p => Post.id p =? id) ps)).
Proof.
  revert ps' n. induction ps as [|p rest IH]; simpl; intros ps' n H.
  - now injection H as <- <-.
  - destruct (update_rows id cols vals rest) as [[rest' m]|]; [|discriminate].
    specialize (IH _ _ eq_refl).
    destruct (Post.id p =? id).
    + destruct (set_columns cols vals p); [|discriminate].
      injection H as <- <-. simpl length. lia.
    + now injection H as <- <-.
Qed.

Lemma update_rows_find id cols vals ps ps' n q :
  update_rows id cols vals ps = Some (ps', n) ->
  ~ In "id" cols -> ~ In "created_at" cols ->
  find (fun p => Post.id p =? id) ps' = Some q ->
  exists p, find (fun p => Post.id p =? id) ps = Some p
            /\ set_columns cols vals p = Some q.
Proof.
  intros H Hid Hc. revert ps' n H.
  induction ps as [|p rest IH]; simpl; intros ps' n H.
  - injection H as <- <-. discriminate.
  - destruct (update_rows id cols vals rest) as [[rest' m]|]; [|discriminate].
    specialize (IH _ _ eq_refl).
    destruct (Post.id p =? id) eqn:E.
    + destruct (set_columns cols vals p) as [p'|] eqn:S; [|discriminate].
      injection H as <- <-. simpl.
      pose proof (set_columns_frame _ _ _ _ S Hid Hc) as F.
      injection F as F _. rewrite F, E. intros [= <-]. eauto.
    + injection H as <- <-. simpl. rewrite E. exact IH.
Qed.

(** After an update that is answered with the post, a title in the payload
    has given the stored, and returned, post the slug of that title. *)
Lemma put_post_stored_slug db id input now t q db' :
  get "title" input = Some (VStr t) ->
  put_post db id input now = (json (BPost q) 200, db') ->
  Post.slug q = generateSlug t
  /\ exists stored, post_by_id db' id = Some stored
                    /\ Post.slug stored = generateSlug t.
Proof.
  intros Hin. unfold put_post.
  destruct (safeParse (partial postSchema) input) as [data|] eqn:V; [|discriminate].
  destruct (put_post_slug_and_created_at_columns data now input V) as [Hc Hid].
  destruct (partial_title _ _ _ V Hin) as (t' & [= <-] & Ht).
  pose proof (fun v => assignments_slug _ _ now _ v V Ht) as Hall.
  pose proof (entries_updates_title _ _ Ht) as Htitle.
  unfold assignments in *.
  destruct (entries_updates data) as [u vs]. destruct Htitle as [_ Hslug].
  set (a := if is_string (get "status" data) "published"
            then ((u ++ ["updated_at"]) ++ ["published_at"], (vs ++ [VStr now]) ++ [VStr now])%list
            else ((u ++ ["updated_at"])%list, (vs ++ [VStr now])%list)) in *.
  assert (Hsome : In ("slug", VStr (generateSlug t)) (combine (fst a) (snd a))).
  { unfold a. destruct (is_string _ _); simpl; repeat apply combine_app_In; exact Hslug. }
  destruct a as [updates values]. simpl in *.
  unfold update_post. rewrite rev_app_distr. simpl. rewrite rev_involutive.
  destruct (update_rows id updates values (posts db)) as [[ps n]|] eqn:U;
    [|discriminate].
  pose proof (update_rows_count _ _ _ _ _ _ U) as Hn.
  assert (Hfound : forall stored, find (fun p => Post.id p =? id) ps = Some stored ->
                                  Post.slug stored = generateSlug t).
  { intros stored F.
    destruct (update_rows_find _ _ _ _ _ _ _ U Hid Hc F) as (p & _ & S).
    eapply set_columns_slug; eauto. }
  destruct (n =? 0) eqn:En.
  - apply Z.eqb_eq in En. subst n. unfold post_by_id.
    destruct (find _ (posts db)) as [p|] eqn:F; [|discriminate].
    apply find_some in F as [Fin Fid].
    assert (In p (filter (fun p => Post.id p =? id) (posts db)))
      by (apply filter_In; auto).
    destruct (filter _ (posts db)); [contradiction|simpl in En; lia].
  - destruct (unique_slugs ps); [|discriminate].
    destruct (forallb _ ps); [|discriminate]. simpl.
    unfold post_by_id. simpl.
    destruct (find _ ps) as [stored|] eqn:F; [|discriminate].
    destruct (formatPost stored) as [f|] eqn:Ff; [|discriminate].
    intros [= <- <-]. destruct (formatPost_fields _ _ Ff) as (_ & -> & _).
    simpl. rewrite F. split; [auto|]. exists stored. auto.
Qed.

(** C6. An update whose payload has a title assigns [slug] the slug of
    that title next to [title], and the post it answers with has that
    slug; no update, whatever its payload, has [created_at] among its
    assigned columns, and every stored post keeps its [created_at]. *)
Theorem put_post_slug_and_created_at (db : DB) (id : Z) (input data : object)
    (now : string) :
  safeParse (partial postSchema) input = Some data ->
  (forall v, get "title" input = Some v ->
     exists t, v = VStr t
       /\ In ("title", VStr t)
             (combine (fst (assignments data now)) (snd (assignments data now)))
       /\ In ("slug", VStr (generateSlug t))
             (combine (fst (assignments data now)) (snd (assignments data now))))
  /\ (forall t q db',
        get "title" input = Some (VStr t) ->
        put_post db id input now = (json (BPost q) 200, db') ->
        Post.slug q = generateSlug t
        /\ exists stored, post_by_id db' id = Some stored
                          /\ Post.slug stored = generateSlug t)
  /\ ~ In "created_at" (fst (assignments data now))
  /\ map creation (posts (snd (put_post db id input now))) = map creation (posts db).
Proof.
  intros V.
  destruct (put_post_slug_and_created_at_columns data now input V) as [Hc Hid].
  split; [|split; [intros t q db'; apply put_post_stored_slug|split; [exact Hc|]]].
  - intros v Hin. destruct (partial_title _ _ _ V Hin) as (t & -> & Ht).
    exists t. split; [reflexivity|].
    pose proof (entries_updates_title _ _ Ht) as E.
    unfold assignments. destruct (entries_updates data) as [u vs].
    destruct E as [E1 E2].
    destruct (is_string _ _); simpl; split; repeat apply combine_app_In; assumption.
  - unfold put_post. rewrite V.
    destruct (assignments data now) as [updates values]. simpl in Hc, Hid.
    pose proof (update_post_frame db updates (values ++ [VNum (Int id)]) Hid Hc) as F.
    destruct (update_post _ _ _) as [[result db']|e]; [|reflexivity].
    destruct (post_by_id db' id) as [p|]; [|exact F].
    destruct (formatPost p); exact F.
Qed.

(** ** Arithmetic of doubles on safe integers *)

(** The operations of [SpecFloat] work on a mantissa and an exponent. On
    integers below 2^53 a difference or a product that is below 2^53 too
    loses no bit, and the rounded quotient of two of them has the floor and
    the ceiling of the exact quotient. *)

Lemma digits2_pos_size p : digits2_pos p = Pos.size p.
Proof. induction p; simpl; congruence. Qed.

Lemma digits_log2 z : 0 < z -> Zdigits2 z = Z.log2 z + 1.
Proof.
  destruct z as [|p|p]; try lia. intros _. simpl. rewrite digits2_pos_size.
  destruct p; simpl; lia.
Qed.

Lemma digits_bounds z : 0 < z -> 2 ^ (Zdigits2 z - 1) <= z < 2 ^ Zdigits2 z.
Proof.
  intros H. rewrite digits_log2 by exact H.
  replace (Z.log2 z + 1 - 1) with (Z.log2 z) by lia.
  replace (Z.log2 z + 1) with (Z.succ (Z.log2 z)) by lia.
  now apply Z.log2_spec.
Qed.

Lemma digits_pos z : 0 < z -> 1 <= Zdigits2 z.
Proof. intros H. rewrite digits_log2 by exact H. pose proof (Z.log2_nonneg z). lia. Qed.

Lemma digits_unique z d : 2 ^ (d - 1) <= z < 2 ^ d -> 0 < z -> Zdigits2 z = d.
Proof.
  intros H Hz. rewrite digits_log2 by exact Hz.
  assert (0 <= d - 1).
  { destruct (Z.le_gt_cases 0 (d - 1)) as [L|L]; [exact L|].
    assert (d <= 0) by lia. assert (2 ^ d <= 2 ^ 0) by (apply Z.pow_le_mono_r; lia).
    simpl in *. lia. }
  rewrite (Z.log2_unique z (d - 1)); try lia.
  replace (Z.succ (d - 1)) with d by lia. exact H.
Qed.

Lemma digits_scale z k : 0 < z -> 0 <= k -> Zdigits2 (z * 2 ^ k) = Zdigits2 z + k.
Proof.
  intros Hz Hk.
  assert (0 < z * 2 ^ k) by (apply Z.mul_pos_pos; [exact Hz|now apply Z.pow_pos_nonneg]).
  rewrite !digits_log2 by assumption.
  rewrite Z.log2_mul_pow2 by assumption. lia.
Qed.

Lemma iter_pos_iter {A} (f : A -> A) n x : iter_pos f n x = Pos.iter f x n.
Proof.
  revert x. induction n as [n IH|n IH|]; intros x; simpl.
  - now rewrite !IH, !Pos.iter_swap.
  - now rewrite !IH.
  - reflexivity.
Qed.

Lemma shr_1_even q : 0 < q -> shr_1 (exact_record (2 * q)) = exact_record q.
Proof. destruct q; try lia. reflexivity. Qed.

Lemma iter_shr_exact n q :
  0 < q -> iter_pos shr_1 n (exact_record (q * 2 ^ Zpos n)) = exact_record q.
Proof.
  rewrite iter_pos_iter. revert q.
  induction n as [|n IH] using Pos.peano_ind; intros q Hq.
  - change (shr_1 (exact_record (q * 2 ^ 1)) = exact_record q).
    replace (q * 2 ^ 1) with (2 * q) by lia. now apply shr_1_even.
  - rewrite Pos.iter_succ.
    replace (q * 2 ^ Zpos (Pos.succ n)) with ((2 * q) * 2 ^ Zpos n).
    + rewrite IH by lia. now apply shr_1_even.
    + rewrite Pos2Z.inj_succ, Z.pow_succ_r by lia. ring.
Qed.

Lemma shr_exact q e n :
  0 < q -> 0 <= n -> shr (exact_record (q * 2 ^ n)) e n = (exact_record q, e + n).
Proof.
  intros Hq Hn. unfold shr. destruct n as [|n|n]; try lia.
  - f_equal; [f_equal|]; lia.
  - now rewrite iter_shr_exact.
Qed.


Lemma fexp_eq x : fexp 53 1024 x = Z.max (x - 53) (-1074).
Proof. reflexivity. Qed.

Lemma round_aux_exact s q e n :
  0 < q -> 0 <= n ->
  fexp 53 1024 (Zdigits2 q + n + e) = e + n -> e + n <= 971 ->
  binary_round_aux 53 1024 s (q * 2 ^ n) e loc_Exact = S754_finite s (Z.to_pos q) (e + n).
Proof.
  intros Hq Hn Hf Hmax. unfold binary_round_aux, shr_fexp.
  rewrite digits_scale, Hf by assumption.
  replace (e + n - e) with n by lia.
  change (shr_record_of_loc (q * 2 ^ n) loc_Exact) with (exact_record (q * 2 ^ n)).
  rewrite shr_exact by assumption.
  cbn [exact_record shr_m loc_of_shr_record round_nearest_even shr_record_of_loc].
  replace (Zdigits2 q + (e + n)) with (Zdigits2 q + n + e) by lia. rewrite Hf.
  replace (e + n - (e + n)) with 0 by lia. cbn [shr shr_m].
  destruct q as [|p|p]; try lia.
  replace (e + n <=? 1024 - 53) with true by (symmetry; apply Z.leb_le; lia).
  reflexivity.
Qed.

Lemma shl_align_scale m e k :
  0 < k ->
  exists m', shl_align m e (e - k) = (m', e - k) /\ Zpos m' = Zpos m * 2 ^ k.
Proof.
  intros Hk. unfold shl_align. replace (e - k - e) with (- k) by lia.
  destruct k as [|k|k]; try lia. simpl Z.opp. eexists. split; [reflexivity|].
  clear Hk. revert m. induction k as [|k IH] using Pos.peano_ind; intros m.
  - simpl. lia.
  - rewrite Pos.iter_succ, Pos2Z.inj_succ, Z.pow_succ_r by lia.
    rewrite Pos2Z.inj_xO, IH. ring.
Qed.

Lemma digits_safe v : 0 < v < 2 ^ 53 -> 1 <= Zdigits2 v <= 53.
Proof.
  intros H. split; [apply digits_pos; lia|].
  destruct (Z.le_gt_cases (Zdigits2 v) 53) as [L|L]; [exact L|].
  pose proof (digits_bounds v ltac:(lia)) as B.
  assert (2 ^ 53 <= 2 ^ (Zdigits2 v - 1)) by (apply Z.pow_le_mono_r; lia). lia.
Qed.

Lemma round_aux_int s v k :
  0 < v < 2 ^ 53 -> 53 - Zdigits2 v <= k ->
  binary_round_aux 53 1024 s (v * 2 ^ k) (- k) loc_Exact = canon s v.
Proof.
  intros Hv Hk. pose proof (digits_safe v Hv) as D.
  set (d := Zdigits2 v) in *.
  replace (v * 2 ^ k) with ((v * 2 ^ (53 - d)) * 2 ^ (k - (53 - d))).
  2:{ rewrite <- Z.mul_assoc, <- Z.pow_add_r by lia. f_equal. f_equal. lia. }
  rewrite round_aux_exact.
  - unfold canon. fold d. f_equal. lia.
  - apply Z.mul_pos_pos; [lia|]. apply Z.pow_pos_nonneg; lia.
  - lia.
  - rewrite digits_scale by lia. fold d. rewrite fexp_eq. lia.
  - lia.
Qed.

Lemma round_int s v k :
  0 < v < 2 ^ 53 -> 0 <= k ->
  binary_round 53 1024 s (Z.to_pos (v * 2 ^ k)) (- k) = canon s v.
Proof.
  intros Hv Hk. pose proof (digits_safe v Hv) as D.
  assert (Hpos : 0 < v * 2 ^ k) by (apply Z.mul_pos_pos; [lia|apply Z.pow_pos_nonneg; lia]).
  unfold binary_round.
  change (Z.pos (digits2_pos (Z.to_pos (v * 2 ^ k)))) with (Zdigits2 (Zpos (Z.to_pos (v * 2 ^ k)))).
  rewrite Z2Pos.id, digits_scale by lia.
  set (d := Zdigits2 v) in *. rewrite fexp_eq.
  replace (Z.max (d + k + - k - 53) (-1074)) with (d - 53) by lia.
  destruct (Z.le_gt_cases (53 - d) k) as [L|L].
  - assert (E : shl_align (Z.to_pos (v * 2 ^ k)) (- k) (d - 53) = (Z.to_pos (v * 2 ^ k), - k)).
    { unfold shl_align. destruct (d - 53 - - k) eqn:E; try reflexivity. lia. }
    rewrite E, Z2Pos.id by lia. now apply round_aux_int.
  - destruct (shl_align_scale (Z.to_pos (v * 2 ^ k)) (- k) (53 - d - k) ltac:(lia))
      as (m' & E & Hm').
    replace (- k - (53 - d - k)) with (d - 53) in E by lia. rewrite E, Hm'.
    rewrite Z2Pos.id by lia.
    replace (v * 2 ^ k * 2 ^ (53 - d - k)) with ((v * 2 ^ (53 - d)) * 2 ^ 0).
    2:{ rewrite Z.pow_0_r, Z.mul_1_r, <- Z.mul_assoc, <- Z.pow_add_r by lia.
        f_equal. f_equal. lia. }
    rewrite round_aux_exact.
    + unfold canon. fold d. f_equal. lia.
    + apply Z.mul_pos_pos; [lia|apply Z.pow_pos_nonneg; lia].
    + lia.
    + rewrite digits_scale by lia. fold d. rewrite fexp_eq. lia.
    + lia.
Qed.

Lemma to_double_pos s p :
  Zpos p < 2 ^ 53 -> binary_round 53 1024 s p 0 = canon s (Zpos p).
Proof.
  intros H. pose proof (round_int s (Zpos p) 0) as R.
  rewrite Z.pow_0_r, Z.mul_1_r in R. simpl in R. apply R; lia.
Qed.

Lemma to_double_int z :
  safe z -> z <> 0 -> to_double (Int z) = canon (z <? 0) (Z.abs z).
Proof.
  unfold safe. intros H Hz. destruct z as [|p|p]; [congruence| |]; simpl.
  - apply to_double_pos. lia.
  - apply to_double_pos. lia.
Qed.

Lemma canon_pos v : 0 < v < 2 ^ 53 -> 0 < v * 2 ^ (53 - Zdigits2 v).
Proof.
  intros H. pose proof (digits_safe v H).
  apply Z.mul_pos_pos; [lia|apply Z.pow_pos_nonneg; lia].
Qed.

Lemma of_double_canon s v :
  0 < v < 2 ^ 53 -> of_double (canon s v) = Int (cond_Zopp s v).
Proof.
  intros H. pose proof (digits_safe v H) as D. pose proof (canon_pos v H) as P.
  unfold canon, of_double. rewrite Z2Pos.id by exact P. f_equal. f_equal.
  destruct (0 <=? Zdigits2 v - 53) eqn:E.
  - apply Z.leb_le in E. replace (Zdigits2 v - 53) with 0 by lia.
    replace (53 - Zdigits2 v) with 0 by lia. simpl. lia.
  - replace (- (Zdigits2 v - 53)) with (53 - Zdigits2 v) by lia.
    apply Z.div_mul. apply Z.pow_nonzero; lia.
Qed.

Lemma of_to_double z : safe z -> of_double (to_double (Int z)) = Int z.
Proof.
  intros H. destruct (Z.eq_dec z 0) as [->|Hz]; [reflexivity|].
  rewrite to_double_int by assumption. unfold safe in H.
  rewrite of_double_canon by lia. f_equal.
  destruct (z <? 0) eqn:E; simpl; [apply Z.ltb_lt in E|apply Z.ltb_ge in E]; lia.
Qed.

Lemma shl_align_fst m e ez :
  ez <= e -> Zpos (fst (shl_align m e ez)) = Zpos m * 2 ^ (e - ez).
Proof.
  intros H. destruct (Z.eq_dec ez e) as [->|Hne].
  - unfold shl_align. rewrite Z.sub_diag. simpl. lia.
  - destruct (shl_align_scale m e (e - ez) ltac:(lia)) as (m' & E & Hm').
    replace (e - (e - ez)) with ez in E by lia. now rewrite E.
Qed.

Lemma normalize_int z k :
  safe z -> 0 <= k ->
  of_double (binary_normalize 53 1024 (z * 2 ^ k) (- k) false) = Int z.
Proof.
  unfold safe. intros H Hk.
  assert (P : 0 < 2 ^ k) by (apply Z.pow_pos_nonneg; lia).
  destruct z as [|p|p].
  - reflexivity.
  - assert (E : Zpos p * 2 ^ k = Zpos (Z.to_pos (Zpos p * 2 ^ k))) by (rewrite Z2Pos.id; lia).
    rewrite E. cbn [binary_normalize]. rewrite round_int by lia.
    now rewrite of_double_canon by lia.
  - assert (E : Zneg p * 2 ^ k = Zneg (Z.to_pos (Zpos p * 2 ^ k))).
    { assert (Q : Zpos (Z.to_pos (Zpos p * 2 ^ k)) = Zpos p * 2 ^ k) by (apply Z2Pos.id; lia).
      lia. }
    rewrite E. cbn [binary_normalize]. rewrite round_int by lia.
    now rewrite of_double_canon by lia.
Qed.

Lemma canon_value s v :
  0 < v < 2 ^ 53 ->
  forall ez, ez <= Zdigits2 v - 53 ->
  cond_Zopp s (Zpos (fst (shl_align (Z.to_pos (v * 2 ^ (53 - Zdigits2 v)))
                                   (Zdigits2 v - 53) ez)))
  = cond_Zopp s v * 2 ^ (- ez).
Proof.
  intros H ez Hez. pose proof (digits_safe v H) as D. pose proof (canon_pos v H) as P.
  rewrite shl_align_fst, Z2Pos.id by lia.
  rewrite <- Z.mul_assoc, <- Z.pow_add_r by lia.
  replace (53 - Zdigits2 v + (Zdigits2 v - 53 - ez)) with (- ez) by lia.
  destruct s; simpl; lia.
Qed.

Lemma abs_sign z : cond_Zopp (z <? 0) (Z.abs z) = z.
Proof. destruct (z <? 0) eqn:E; simpl; [apply Z.ltb_lt in E|apply Z.ltb_ge in E]; lia. Qed.

Lemma num_sub_int a b :
  safe a -> safe b -> safe (a - b) -> num_sub (Int a) (Int b) = Int (a - b).
Proof.
  intros Ha Hb Hab. unfold num_sub.
  destruct (Z.eq_dec b 0) as [->|Hb0].
  { rewrite Z.sub_0_r. destruct (Z.eq_dec a 0) as [->|Ha0]; [reflexivity|].
    rewrite (to_double_int a Ha Ha0). change (to_double (Int 0)) with (S754_zero false).
    unfold safe in Ha. unfold canon. cbn [SFsub].
    transitivity (Int (cond_Zopp (a <? 0) (Z.abs a)));
      [apply (of_double_canon (a <? 0) (Z.abs a)); lia|now rewrite abs_sign]. }
  destruct (Z.eq_dec a 0) as [->|Ha0].
  { rewrite (to_double_int b Hb Hb0). change (to_double (Int 0)) with (S754_zero false).
    unfold safe in Hb. unfold canon. cbn [SFsub].
    transitivity (Int (cond_Zopp (negb (b <? 0)) (Z.abs b)));
      [apply (of_double_canon (negb (b <? 0)) (Z.abs b)); lia|].
    f_equal.
    destruct (b <? 0) eqn:E; simpl; [apply Z.ltb_lt in E|apply Z.ltb_ge in E]; lia. }
  rewrite (to_double_int a Ha Ha0), (to_double_int b Hb Hb0).
  unfold safe in Ha, Hb. unfold canon. cbn [SFsub].
  set (ez := Z.min (Zdigits2 (Z.abs a) - 53) (Zdigits2 (Z.abs b) - 53)).
  rewrite !canon_value by lia. rewrite !abs_sign.
  rewrite <- Z.mul_sub_distr_r.
  pose proof (digits_safe (Z.abs a) ltac:(lia)). pose proof (digits_safe (Z.abs b) ltac:(lia)).
  replace ez with (- - ez) at 2 by lia.
  apply normalize_int; [exact Hab|lia].
Qed.

Lemma digits_mul a b :
  0 < a -> 0 < b -> Zdigits2 a + Zdigits2 b - 1 <= Zdigits2 (a * b).
Proof.
  intros Ha Hb. assert (0 < a * b) by now apply Z.mul_pos_pos.
  rewrite !digits_log2 by assumption.
  pose proof (Z.log2_mul_below a b Ha Hb). lia.
Qed.

Lemma num_mul_int a b :
  safe a -> safe b -> safe (a * b) -> num_mul (Int a) (Int b) = Int (a * b).
Proof.
  intros Ha Hb Hab. unfold num_mul.
  destruct (Z.eq_dec a 0) as [->|Ha0].
  { change (to_double (Int 0)) with (S754_zero false). rewrite Z.mul_0_l.
    destruct (Z.eq_dec b 0) as [->|Hb0]; [reflexivity|].
    rewrite (to_double_int b Hb Hb0). reflexivity. }
  destruct (Z.eq_dec b 0) as [->|Hb0].
  { change (to_double (Int 0)) with (S754_zero false). rewrite Z.mul_0_r.
    rewrite (to_double_int a Ha Ha0). reflexivity. }
  rewrite (to_double_int a Ha Ha0), (to_double_int b Hb Hb0).
  unfold safe in Ha, Hb, Hab. unfold canon. cbn [SFmul].
  assert (Pa : 0 < Z.abs a < 2 ^ 53) by lia. assert (Pb : 0 < Z.abs b < 2 ^ 53) by lia.
  pose proof (digits_safe _ Pa) as Da. pose proof (digits_safe _ Pb) as Db.
  pose proof (canon_pos _ Pa) as Ca. pose proof (canon_pos _ Pb) as Cb.
  assert (Pab : 0 < Z.abs a * Z.abs b < 2 ^ 53) by (rewrite <- Z.abs_mul; lia).
  pose proof (digits_mul (Z.abs a) (Z.abs b) ltac:(lia) ltac:(lia)) as Dab.
  rewrite Pos2Z.inj_mul, !Z2Pos.id by assumption.
  set (da := Zdigits2 (Z.abs a)) in *. set (db := Zdigits2 (Z.abs b)) in *.
  replace (Z.abs a * 2 ^ (53 - da) * (Z.abs b * 2 ^ (53 - db)))
    with ((Z.abs a * Z.abs b) * 2 ^ (106 - da - db)).
  2:{ replace (106 - da - db) with ((53 - da) + (53 - db)) by lia.
      rewrite Z.pow_add_r by lia. ring. }
  replace (da - 53 + (db - 53)) with (- (106 - da - db)) by lia.
  rewrite round_aux_int by lia.
  rewrite of_double_canon by lia. f_equal.
  destruct (a <? 0) eqn:Ea, (b <? 0) eqn:Eb; simpl;
    [apply Z.ltb_lt in Ea|apply Z.ltb_lt in Ea|apply Z.ltb_ge in Ea|apply Z.ltb_ge in Ea];
    [apply Z.ltb_lt in Eb|apply Z.ltb_ge in Eb|apply Z.ltb_lt in Eb|apply Z.ltb_ge in Eb];
    nia.
Qed.

Lemma new_location_spec nb r :
  0 <= r < nb ->
  new_location nb r = if r =? 0 then loc_Exact else loc_Inexact (2 * r ?= nb).
Proof.
  intros H. unfold new_location, new_location_even, new_location_odd.
  change IntDef.Z.even with Z.even.
  destruct (Z.even nb) eqn:Ev; destruct (r =? 0) eqn:E; try reflexivity. f_equal.
  assert (Ho : Z.odd nb = true) by (rewrite <- Z.negb_even, Ev; reflexivity).
  apply Z.odd_spec in Ho as [c Hc].
  destruct (Z.compare_spec (2 * r + 1) nb), (Z.compare_spec (2 * r) nb); try reflexivity; lia.
Qed.

Lemma pow2_pos k : 0 <= k -> 0 < 2 ^ k.
Proof. intros. apply Z.pow_pos_nonneg; lia. Qed.

(** The quotient and the location the division of two safe integers
    starts from. *)
Lemma div_core t l :
  0 < t < 2 ^ 53 -> 0 < l < 2 ^ 53 ->
  let k := 53 + Zdigits2 l - Zdigits2 t in
  SFdiv_core_binary 53 1024 (t * 2 ^ (53 - Zdigits2 t)) (Zdigits2 t - 53)
                            (l * 2 ^ (53 - Zdigits2 l)) (Zdigits2 l - 53)
  = (t * 2 ^ k / l, - k,
     if (t * 2 ^ k) mod l =? 0 then loc_Exact
     else loc_Inexact (2 * ((t * 2 ^ k) mod l) ?= l)).
Proof.
  intros Ht Hl k. pose proof (digits_safe t Ht) as Dt. pose proof (digits_safe l Hl) as Dl.
  unfold SFdiv_core_binary. rewrite !digits_scale by lia.
  set (dt := Zdigits2 t) in *. set (dl := Zdigits2 l) in *.
  replace (dt + (53 - dt)) with 53 by lia. replace (dl + (53 - dl)) with 53 by lia.
  rewrite fexp_eq.
  replace (Z.min (Z.max (53 + (dt - 53) - (53 + (dl - 53)) - 53) (-1074)) (dt - 53 - (dl - 53)))
    with (- k) by (unfold k; lia).
  replace (dt - 53 - (dl - 53) - - k) with 53 by (unfold k; lia).
  cbv iota. rewrite Z.shiftl_mul_pow2 by lia.
  set (c := 2 ^ (53 - dl)). assert (Hc : 0 < c) by (apply pow2_pos; lia).
  assert (E : t * 2 ^ (53 - dt) * 2 ^ 53 = (t * 2 ^ k) * c).
  { unfold c, k. rewrite <- !Z.mul_assoc, <- !Z.pow_add_r by lia. f_equal. f_equal. lia. }
  rewrite E. change IntDef.Z.div_eucl with Z.div_eucl.
  assert (Q : Z.div_eucl (t * 2 ^ k * c) (l * c)
              = (t * 2 ^ k * c / (l * c), (t * 2 ^ k * c) mod (l * c))).
  { unfold Z.div, Z.modulo. now destruct (Z.div_eucl _ _). }
  rewrite Q. rewrite Z.div_mul_cancel_r, Z.mul_mod_distr_r by lia.
  pose proof (Z.mod_pos_bound (t * 2 ^ k) l ltac:(lia)) as B.
  rewrite new_location_spec by nia.
  f_equal. destruct ((t * 2 ^ k) mod l =? 0) eqn:Z0.
  - apply Z.eqb_eq in Z0. rewrite Z0. reflexivity.
  - apply Z.eqb_neq in Z0.
    replace ((t * 2 ^ k) mod l * c =? 0) with false by (symmetry; apply Z.eqb_neq; nia).
    f_equal. rewrite Z.mul_assoc.
    destruct (Z.compare_spec (2 * ((t * 2 ^ k) mod l) * c) (l * c)),
             (Z.compare_spec (2 * ((t * 2 ^ k) mod l)) l); try reflexivity; nia.
Qed.

Lemma renorm s m1 e1 :
  2 ^ 52 <= m1 <= 2 ^ 53 -> -1074 <= e1 <= 970 ->
  exists m c,
    (let '(mrs, e2) := shr_fexp 53 1024 m1 e1 loc_Exact in
     match shr_m mrs with
     | Z0 => S754_zero s
     | Zpos m => if e2 <=? 1024 - 53 then S754_finite s m e2 else S754_infinity s
     | Zneg _ => S754_nan
     end) = S754_finite s m (e1 + c)
    /\ 0 <= c <= 1 /\ Zpos m * 2 ^ c = m1.
Proof.
  intros Hm He. unfold shr_fexp.
  destruct (Z.eq_dec m1 (2 ^ 53)) as [->|Hne].
  - change (Zdigits2 (2 ^ 53)) with 54. rewrite fexp_eq.
    replace (Z.max (54 + e1 - 53) (-1074) - e1) with 1 by lia.
    cbn [shr shr_record_of_loc iter_pos]. 
    change (shr_1 {| shr_m := 2 ^ 53; shr_r := false; shr_s := false |})
      with (exact_record (2 ^ 52)).
    cbn [exact_record shr_m]. change (2 ^ 52) with (Zpos (Z.to_pos (2 ^ 52))) at 1.
    cbv iota. replace (e1 + 1 <=? 1024 - 53) with true by (symmetry; apply Z.leb_le; lia).
    exists (Z.to_pos (2 ^ 52)), 1. split; [reflexivity|]. split; [lia|reflexivity].
  - rewrite (digits_unique m1 53) by lia. rewrite fexp_eq.
    replace (Z.max (53 + e1 - 53) (-1074) - e1) with 0 by lia.
    cbn [shr shr_record_of_loc shr_m exact_record].
    destruct m1 as [|p|p]; try lia.
    replace (e1 <=? 1024 - 53) with true by (symmetry; apply Z.leb_le; lia).
    exists p, 0. split; [f_equal; lia|]. split; lia.
Qed.

Lemma loc_of_record m loc :
  loc_of_shr_record (shr_record_of_loc m loc) = loc
  /\ shr_m (shr_record_of_loc m loc) = m.
Proof. destruct loc as [|[]]; split; reflexivity. Qed.

Lemma round_aux_div s q e loc :
  2 ^ 52 <= q < 2 ^ 54 -> -1074 <= e <= 969 ->
  exists m c,
    binary_round_aux 53 1024 s q e loc = S754_finite s m (e + c)
    /\ 0 <= c <= 2
    /\ q - 1 <= Zpos m * 2 ^ c <= q + 1
    /\ (Zpos m * 2 ^ c = q - 1 -> loc = loc_Exact)
    /\ (loc = loc_Exact -> Z.even q = true -> Zpos m * 2 ^ c = q).
Proof.
  intros Hq He. unfold binary_round_aux.
  destruct (Z.lt_ge_cases q (2 ^ 53)) as [Hlt|Hge].
  - unfold shr_fexp at 1. rewrite (digits_unique q 53) by lia. rewrite fexp_eq.
    replace (Z.max (53 + e - 53) (-1074) - e) with 0 by lia.
    cbn [shr]. destruct (loc_of_record q loc) as [-> ->].
    assert (R : q <= round_nearest_even q loc <= q + 1
                /\ (loc = loc_Exact -> round_nearest_even q loc = q)).
    { destruct loc as [|[]]; cbn [round_nearest_even]; try destruct (Z.even q);
        repeat split; try lia; try discriminate. }
    destruct R as [R1 R2].
    destruct (renorm s (round_nearest_even q loc) e ltac:(lia) ltac:(lia))
      as (m & c & E & Hc & Hm).
    exists m, c. split; [exact E|]. split; [lia|]. rewrite Hm.
    split; [lia|]. split; [lia|]. intros H _. now apply R2.
  - unfold shr_fexp at 1. rewrite (digits_unique q 54) by lia. rewrite fexp_eq.
    replace (Z.max (54 + e - 53) (-1074) - e) with 1 by lia.
    cbn [shr iter_pos].
    set (h := q / 2).
    assert (S1 : exists b sticky,
               shr_1 (shr_record_of_loc q loc)
               = {| shr_m := h; shr_r := b; shr_s := sticky |}
               /\ q = 2 * h + (if b then 1 else 0)
               /\ (sticky = false <-> loc = loc_Exact)).
    { unfold h. destruct q as [|p|p]; try lia.
      destruct p as [p|p|]; try lia.
      - assert (Hh : Z.pos p~1 / 2 = Z.pos p).
        { rewrite Pos2Z.inj_xI. replace (2 * Z.pos p + 1) with (1 + Z.pos p * 2) by lia.
          rewrite Z.div_add by lia. reflexivity. }
        rewrite Hh. exists true.
        destruct loc as [|[]]; eexists; (split; [reflexivity|]);
          (split; [lia|]); cbn [orb]; split; congruence.
      - assert (Hh : Z.pos p~0 / 2 = Z.pos p).
        { rewrite Pos2Z.inj_xO. replace (2 * Z.pos p) with (0 + Z.pos p * 2) by lia.
          rewrite Z.div_add by lia. reflexivity. }
        rewrite Hh. exists false.
        destruct loc as [|[]]; eexists; (split; [reflexivity|]);
          (split; [lia|]); cbn [orb]; split; congruence. }
    destruct S1 as (b & sticky & -> & Hqh & Hst).
    cbn [shr_m].
    set (loc' := loc_of_shr_record {| shr_m := h; shr_r := b; shr_s := sticky |}).
    assert (R : h <= round_nearest_even h loc' <= h + 1
                /\ (round_nearest_even h loc' = h + 1 -> b = true)
                /\ (round_nearest_even h loc' = h -> b = true -> sticky = false)).
    { unfold loc'. destruct b, sticky; cbn [loc_of_shr_record round_nearest_even];
        try destruct (Z.even h); repeat split; try lia; try congruence. }
    destruct R as (R1 & R2 & R3).
    assert (Hh : 2 ^ 52 <= h < 2 ^ 53).
    { change (2 ^ 54) with (2 * 2 ^ 53) in Hq. change (2 ^ 53) with (2 * 2 ^ 52) in Hge |- *.
      destruct b; lia. }
    destruct (renorm s (round_nearest_even h loc') (e + 1) ltac:(lia) ltac:(lia))
      as (m & c & E & Hc & Hm).
    exists m, (c + 1). replace (e + (c + 1)) with (e + 1 + c) by lia.
    split; [exact E|]. split; [lia|].
    replace (Zpos m * 2 ^ (c + 1)) with (2 * round_nearest_even h loc')
      by (rewrite Z.pow_add_r by lia; rewrite <- Hm; ring).
    split; [|split].
    + destruct b; destruct (Z.eq_dec (round_nearest_even h loc') h) as [E1|E1];
        try lia.
    + intros H. apply Hst. destruct b; [|lia]. apply R3; [lia|reflexivity].
    + intros Hl Hev. destruct b.
      * rewrite Hqh in Hev. rewrite Z.add_comm, Z.even_add_mul_2 in Hev. discriminate.
      * apply Hst in Hl. subst sticky. unfold loc'.
        cbn [loc_of_shr_record round_nearest_even]. lia.
Qed.

Lemma ceil_finite s m k c :
  0 <= c -> 0 <= k ->
  Math_ceil (S754_finite s m (- k + c))
  = Int (if s then - (Zpos m * 2 ^ c / 2 ^ k)
         else if (Zpos m * 2 ^ c) mod 2 ^ k =? 0 then Zpos m * 2 ^ c / 2 ^ k
              else Zpos m * 2 ^ c / 2 ^ k + 1).
Proof.
  intros Hc Hk. unfold Math_ceil.
  pose proof (pow2_pos k Hk) as Pk. pose proof (pow2_pos c Hc) as Pc.
  destruct (0 <=? - k + c) eqn:E.
  - apply Z.leb_le in E.
    assert (W : Zpos m * 2 ^ c = Zpos m * 2 ^ (- k + c) * 2 ^ k).
    { rewrite <- Z.mul_assoc, <- Z.pow_add_r by lia. f_equal. f_equal. lia. }
    rewrite W, Z.div_mul, Z.mod_mul by lia. simpl. now destruct s.
  - apply Z.leb_gt in E.
    replace (- (- k + c)) with (k - c) by lia.
    assert (P : 2 ^ k = 2 ^ (k - c) * 2 ^ c) by (rewrite <- Z.pow_add_r by lia; f_equal; lia).
    pose proof (pow2_pos (k - c) ltac:(lia)) as Pj.
    rewrite P, Z.div_mul_cancel_r, Z.mul_mod_distr_r by lia.
    destruct s; [reflexivity|]. f_equal.
    destruct (Z.pos m mod 2 ^ (k - c) =? 0) eqn:Z0.
    + apply Z.eqb_eq in Z0. now rewrite Z0.
    + apply Z.eqb_neq in Z0.
      replace (Z.pos m mod 2 ^ (k - c) * 2 ^ c =? 0) with false
        by (symmetry; apply Z.eqb_neq; nia).
      reflexivity.
Qed.

Lemma quotient_bracket t L P W :
  0 < L -> 0 <= t -> L < P -> Z.even P = true ->
  t * P / L - 1 <= W <= t * P / L + 1 ->
  (W = t * P / L - 1 -> (t * P) mod L = 0) ->
  ((t * P) mod L = 0 -> Z.even (t * P / L) = true -> W = t * P / L) ->
  (t mod L = 0 -> W = t / L * P)
  /\ (t mod L <> 0 -> t / L * P < W < (t / L + 1) * P).
Proof.
  intros HL Ht HP Hev HW Hlow Hexact.
  pose proof (Z_div_mod_eq_full t L) as Dt.
  pose proof (Z.mod_pos_bound t L HL) as Bt.
  pose proof (Z_div_mod_eq_full (t * P) L) as Dq.
  pose proof (Z.mod_pos_bound (t * P) L HL) as Bq.
  set (N := t / L) in *. set (rho := t mod L) in *.
  set (q := t * P / L) in *. set (r := (t * P) mod L) in *.
  split.
  - intros R0. rewrite R0, Z.add_0_r in Dt.
    assert (Eq : q = N * P).
    { unfold q. rewrite Dt. replace (L * N * P) with (N * P * L) by ring.
      apply Z.div_mul. lia. }
    assert (Er : r = 0).
    { unfold r. rewrite Dt. replace (L * N * P) with (N * P * L) by ring.
      apply Z.mod_mul. lia. }
    rewrite <- Eq. apply Hexact; [exact Er|].
    rewrite Eq, Z.even_mul, Hev. apply orb_true_r.
  - intros R0.
    assert (Low : t * P - L <= W * L).
    { destruct (Z.eq_dec W (q - 1)) as [E|E].
      - specialize (Hlow E). fold r in Hlow. subst W. nia.
      - assert (q <= W) by lia. nia. }
    assert (High : W * L <= t * P + L) by nia.
    assert (1 <= rho < L) by lia.
    split.
    + assert (N * P * L < W * L) by nia. nia.
    + assert (W * L < (N + 1) * P * L) by nia. nia.
Qed.

Lemma quotient_size t l :
  0 < t < 2 ^ 53 -> 0 < l < 2 ^ 53 ->
  let k := 53 + Zdigits2 l - Zdigits2 t in
  1 <= k <= 105 /\ l < 2 ^ k /\ 2 ^ 52 <= t * 2 ^ k / l < 2 ^ 54.
Proof.
  intros Ht Hl k. pose proof (digits_safe t Ht) as Dt. pose proof (digits_safe l Hl) as Dl.
  pose proof (digits_bounds t ltac:(lia)) as Bt. pose proof (digits_bounds l ltac:(lia)) as Bl.
  set (dt := Zdigits2 t) in *. set (dl := Zdigits2 l) in *.
  split; [unfold k; lia|]. split.
  - assert (2 ^ dl <= 2 ^ k) by (apply Z.pow_le_mono_r; unfold k; lia). lia.
  - assert (E1 : 2 ^ (dt - 1) * 2 ^ k = 2 ^ 52 * 2 ^ dl).
    { rewrite <- !Z.pow_add_r by (unfold k; lia). f_equal. unfold k. lia. }
    assert (E2 : 2 ^ dt * 2 ^ k = 2 ^ 54 * 2 ^ (dl - 1)).
    { rewrite <- !Z.pow_add_r by (unfold k; lia). f_equal. unfold k. lia. }
    pose proof (pow2_pos k ltac:(unfold k; lia)) as Pk.
    split.
    + apply Z.div_le_lower_bound; [lia|]. nia.
    + apply Z.div_lt_upper_bound; [lia|]. nia.
Qed.

Lemma ceiling_exact t l N :
  0 < l -> t = N * l -> - (- t / l) = N.
Proof.
  intros Hl ->. replace (- (N * l)) with (- N * l) by ring. rewrite Z.div_mul; lia.
Qed.

Lemma ceil_quotient_int t l :
  0 <= t < 2 ^ 53 -> safe l -> l <> 0 ->
  ceil_quotient (Int t) (Int l) = Int (- (- t / l)).
Proof.
  intros Ht Hl Hl0. unfold ceil_quotient, num_div.
  rewrite (to_double_int l Hl Hl0). unfold safe in Hl.
  destruct (Z.eq_dec t 0) as [->|Ht0].
  { change (to_double (Int 0)) with (S754_zero false). unfold canon. cbn [SFdiv Math_ceil of_double].
    change (- 0) with 0. now rewrite Z.div_0_l. }
  rewrite (to_double_int t) by (unfold safe; lia).
  replace (t <? 0) with false by (symmetry; apply Z.ltb_ge; lia).
  rewrite (Z.abs_eq t) by lia.
  set (L := Z.abs l) in *. assert (HL : 0 < L < 2 ^ 53) by (unfold L; lia).
  assert (HT : 0 < t < 2 ^ 53) by lia.
  pose proof (canon_pos t HT) as Ct. pose proof (canon_pos L HL) as CL.
  unfold canon. cbn [SFdiv]. rewrite !Z2Pos.id by assumption.
  rewrite (div_core t L HT HL).
  destruct (quotient_size t L HT HL) as (Hk & HP & Hq).
  set (k := 53 + Zdigits2 L - Zdigits2 t) in *.
  set (loc := if (t * 2 ^ k) mod L =? 0 then loc_Exact
              else loc_Inexact (2 * ((t * 2 ^ k) mod L) ?= L)).
  destruct (round_aux_div (xorb false (l <? 0)) (t * 2 ^ k / L) (- k) loc Hq ltac:(lia))
    as (m & c & E & Hc & HW & Hlow & Hexact).
  rewrite E. rewrite ceil_finite by lia.
  assert (Hev : Z.even (2 ^ k) = true).
  { replace k with (Z.succ (k - 1)) by lia. rewrite Z.pow_succ_r by lia.
    rewrite Z.even_mul. reflexivity. }
  destruct (quotient_bracket t L (2 ^ k) (Zpos m * 2 ^ c) ltac:(lia) ltac:(lia) HP Hev HW)
    as [B0 B1].
  { intros H. specialize (Hlow H). unfold loc in Hlow.
    destruct ((t * 2 ^ k) mod L =? 0) eqn:Z0; [now apply Z.eqb_eq in Z0|discriminate]. }
  { intros H. apply Hexact. unfold loc. now rewrite H. }
  set (W := Zpos m * 2 ^ c) in *.
  pose proof (pow2_pos k ltac:(lia)) as Pk.
  pose proof (Z_div_mod_eq_full t L) as Dt.
  pose proof (Z.mod_pos_bound t L ltac:(lia)) as Bt.
  assert (Wdiv : W / 2 ^ k = t / L /\ (W mod 2 ^ k = 0 <-> t mod L = 0)).
  { destruct (Z.eq_dec (t mod L) 0) as [R0|R0].
    - rewrite (B0 R0), Z.div_mul, Z.mod_mul by lia. tauto.
    - specialize (B1 R0). split.
      + symmetry. apply (Z.div_unique W (2 ^ k) (t / L) (W - t / L * 2 ^ k)); lia.
      + split; [|tauto]. intros M. exfalso.
        apply Z.mod_divide in M; [|lia]. destruct M as [x Hx].
        assert (t / L < x) by nia. assert (x < t / L + 1) by nia. lia. }
  destruct Wdiv as [Wd Wm]. rewrite Wd. f_equal.
  destruct (l <? 0) eqn:Sl; simpl xorb; cbv iota.
  - apply Z.ltb_lt in Sl. replace l with (- L) by (unfold L; lia).
    now rewrite Z.div_opp_opp by lia.
  - apply Z.ltb_ge in Sl. replace l with L by (unfold L; lia).
    destruct (W mod 2 ^ k =? 0) eqn:Z0.
    + apply Z.eqb_eq in Z0. apply Wm in Z0. symmetry. apply ceiling_exact; [lia|].
      rewrite Z0 in Dt. lia.
    + apply Z.eqb_neq in Z0.
      assert (R0 : t mod L <> 0) by tauto.
      assert (Ediv : - t / L = - (t / L) - 1).
      { symmetry. apply (Z.div_unique (- t) L (- (t / L) - 1) (L - t mod L)); lia. }
      rewrite Ediv. lia.
Qed.


(** ** Listing posts *)

Lemma ceiling_of_division t l : l <> 0 -> is_ceiling (- (- t / l)) t l.
Proof.
  intros Hl. unfold is_ceiling. split; intros H.
  - pose proof (Z.mul_div_le (- t) l H). pose proof (Z.mul_succ_div_gt (- t) l H). lia.
  - pose proof (Z.mul_div_ge (- t) l H). pose proof (Z.mul_succ_div_lt (- t) l H). lia.
Qed.

Lemma filters_bound by_category qs :
  arity by_category = 1%nat ->
  let '(q, params) := filters by_category qs in
  where_arity q = length params /\ forallb is_text params = true.
Proof.
  unfold filters.
  destruct (truthy (req_query "category" qs)), (truthy (req_query "search" qs));
    destruct by_category; try discriminate; split; reflexivity.
Qed.

Lemma list_statement_filters qs :
  list_statement qs =
    (fst (list_filters qs),
     (snd (list_filters qs) ++ [VNum (posts_limit qs); VNum (posts_offset qs)])%list).
Proof.
  unfold list_statement, list_filters. now destruct (filters category_slug_eq qs).
Qed.

Lemma select_posts_list db qs :
  select_posts db (fst (list_statement qs)) (snd (list_statement qs))
  = match posts_limit qs, posts_offset qs with
    | Int l, Int o =>
        if int64 l && int64 o
        then Done (limit_offset l o (unpaginated db qs))
        else Throws datatype_mismatch
    | _, _ => Throws datatype_mismatch
    end.
Proof.
  rewrite list_statement_filters. unfold unpaginated. simpl.
  pose proof (filters_bound category_slug_eq qs eq_refl) as B. unfold list_filters.
  destruct (filters category_slug_eq qs) as [q params]. destruct B as [Ha Ht].
  unfold select_posts. simpl. rewrite Ha.
  rewrite firstn_app, Nat.sub_diag, firstn_all, skipn_app, Nat.sub_diag, skipn_all.
  simpl. rewrite app_nil_r, Ht, Nat.eqb_refl. simpl.
  destruct (posts_limit qs) as [| |l]; reflexivity.
Qed.

Lemma count_posts_counted db qs :
  count_posts db (fst (count_statement qs)) (snd (count_statement qs))
  = Done (Z.of_nat (length (counted db qs))).
Proof.
  unfold counted, count_statement.
  pose proof (filters_bound category_exists qs eq_refl) as B.
  destruct (filters category_exists qs) as [q params]. destruct B as [Ha Ht].
  unfold count_posts. simpl. now rewrite Ht, Ha, Nat.eqb_refl.
Qed.

Lemma safe_int64 z : safe z -> int64 z = true.
Proof.
  unfold safe, int64. intros H.
  assert (2 ^ 53 < 2 ^ 63) by reflexivity.
  apply andb_true_iff. split; [apply Z.leb_le|apply Z.ltb_lt]; lia.
Qed.

Lemma safe_factor a b : safe (a * b) -> b <> 0 -> safe a.
Proof. unfold safe. intros H Hb. nia. Qed.

Lemma posts_offset_int qs p l :
  posts_page qs = Int p -> posts_limit qs = Int l ->
  safe p -> safe l -> l <> 0 -> safe ((p - 1) * l) ->
  posts_offset qs = Int ((p - 1) * l).
Proof.
  intros Hp Hl Sp Sl Hne So. unfold posts_offset. rewrite Hp, Hl.
  pose proof (safe_factor _ _ So Hne) as Sp1.
  rewrite num_sub_int; [|exact Sp|unfold safe; lia|exact Sp1].
  now apply num_mul_int.
Qed.

Lemma get_posts_ok db qs rows pg :
  get_posts db qs = json (BPosts rows pg) 200 ->
  exists l o,
    posts_limit qs = Int l /\ posts_offset qs = Int o
    /\ int64 l && int64 o = true
    /\ map_throwing formatRow (limit_offset l o (unpaginated db qs)) = Some rows
    /\ pg = {| page := posts_page qs; limit := Int l;
               total := Int (Z.of_nat (length (counted db qs)));
               pages := ceil_quotient (Int (Z.of_nat (length (counted db qs)))) (Int l) |}.
Proof.
  unfold get_posts.
  pose proof (select_posts_list db qs) as S.
  pose proof (count_posts_counted db qs) as C.
  destruct (list_statement qs) as [q ps]. destruct (count_statement qs) as [cq cps].
  simpl in S, C. rewrite S, C.
  destruct (posts_limit qs) as [| |l]; try discriminate.
  destruct (posts_offset qs) as [| |o]; try discriminate.
  destruct (int64 l && int64 o) eqn:B; [|discriminate].
  destruct (map_throwing formatRow _) as [formatted|] eqn:F; [|discriminate].
  intros [= <- <-]. exists l, o. repeat split; assumption.
Qed.

Lemma counted_length db qs : (length (counted db qs) <= length (posts db))%nat.
Proof.
  unfold counted, counted_rows, from_posts.
  etransitivity; [apply filter_length_le|]. now rewrite length_map.
Qed.

(** With [limit=0] the quotient is no number: [pages] is [Infinity], or
    [NaN] when nothing matches, and JSON renders either as [null]. *)
Lemma pages_of_zero_limit db qs rows pg :
  Z.of_nat (length (posts db)) < 2 ^ 53 ->
  posts_limit qs = Int 0 ->
  get_posts db qs = json (BPosts rows pg) 200 ->
  rows = []
  /\ pages pg = if Z.of_nat (length (counted db qs)) =? 0 then NaN else Infinity.
Proof.
  intros Hsize Hl H.
  destruct (get_posts_ok _ _ _ _ H) as (l & o & Hl' & _ & _ & Hrows & ->).
  rewrite Hl in Hl'. injection Hl' as <-. split.
  - unfold limit_offset in Hrows. simpl in Hrows. now injection Hrows as <-.
  - cbn [pages]. unfold ceil_quotient, num_div.
    change (to_double (Int 0)) with (S754_zero false).
    pose proof (counted_length db qs) as Hc.
    destruct (Z.of_nat (length (counted db qs)) =? 0) eqn:E.
    + apply Z.eqb_eq in E. rewrite E. reflexivity.
    + apply Z.eqb_neq in E. rewrite to_double_int by (unfold safe; lia). reflexivity.
Qed.

(** C1, as the code has it. The page and the limit of a listing are what
    [parseInt] reads off the parameters, 1 and 10 for a parameter that is
    absent or empty. When they are integers [p] and [l] that doubles hold
    exactly (magnitude below 2^53), [l] other than 0 and [(p - 1) * l] such
    an integer too, the offset bound to the list statement is
    [(p - 1) * l], the statement answers that slice of the matching rows,
    and a pagination object that is returned has [total] the count
    statement's number of rows and, the table having fewer than 2^53
    rows, [pages] the ceiling of [total / l]. *)
Theorem posts_pagination (db : DB) (qs : query_string) :
  (req_query "page" qs = None \/ req_query "page" qs = Some "" ->
   posts_page qs = Int 1)
  /\ (req_query "limit" qs = None \/ req_query "limit" qs = Some "" ->
      posts_limit qs = Int 10)
  /\ forall p l,
       posts_page qs = Int p -> posts_limit qs = Int l ->
       safe p -> safe l -> l <> 0 -> safe ((p - 1) * l) ->
       posts_offset qs = Int ((p - 1) * l)
       /\ snd (list_statement qs)
          = (snd (list_filters qs) ++ [VNum (Int l); VNum (Int ((p - 1) * l))])%list
       /\ select_posts db (fst (list_statement qs)) (snd (list_statement qs))
          = Done (limit_offset l ((p - 1) * l) (unpaginated db qs))
       /\ (forall rows pg,
             get_posts db qs = json (BPosts rows pg) 200 ->
             map_throwing formatRow (limit_offset l ((p - 1) * l) (unpaginated db qs))
               = Some rows
             /\ page pg = Int p /\ limit pg = Int l
             /\ total pg = Int (Z.of_nat (length (counted db qs)))
             /\ (Z.of_nat (length (posts db)) < 2 ^ 53 ->
                 exists n, pages pg = Int n
                           /\ is_ceiling n (Z.of_nat (length (counted db qs))) l)).
Proof.
  split.
  { unfold posts_page. intros [-> | ->]; exact parseInt_1. }
  split.
  { unfold posts_limit. intros [-> | ->]; exact parseInt_10. }
  intros p l Hp Hl Sp Sl Hne So.
  pose proof (posts_offset_int _ _ _ Hp Hl Sp Sl Hne So) as Ho.
  split; [exact Ho|]. split.
  { rewrite list_statement_filters, Hl, Ho. reflexivity. }
  split.
  { rewrite select_posts_list, Hl, Ho, (safe_int64 _ Sl), (safe_int64 _ So). reflexivity. }
  intros rows pg H.
  destruct (get_posts_ok _ _ _ _ H) as (l' & o & Hl' & Ho' & _ & Hr & ->).
  rewrite Hl in Hl'. injection Hl' as <-.
  rewrite Ho in Ho'. injection Ho' as <-.
  cbn [page limit total pages]. rewrite Hp.
  split; [exact Hr|]. do 3 (split; [reflexivity|]).
  intros Hrows. pose proof (counted_length db qs) as Hc.
  assert (Ht : 0 <= Z.of_nat (length (counted db qs)) < 2 ^ 53) by lia.
  rewrite (ceil_quotient_int _ _ Ht Sl Hne).
  eexists. split; [reflexivity|]. now apply ceiling_of_division.
Qed.

Lemma existsb_filter {A} (g h : A -> bool) l :
  existsb (fun x => g x && h x) l = existsb h (filter g l).
Proof.
  induction l as [|x rest IH]; simpl; [reflexivity|].
  destruct (g x); simpl; now rewrite IH.
Qed.

Lemma distinct_filter cs k :
  distinct (map Category.id cs) = true ->
  filter (fun c => Category.id c =? k) cs = []
  \/ exists c, filter (fun c => Category.id c =? k) cs = [c].
Proof.
  induction cs as [|c rest IH]; simpl; [auto|].
  intros H. apply andb_true_iff in H as [Hc Hr]. apply negb_true_iff in Hc.
  destruct (Category.id c =? k) eqn:E; [|auto].
  right. exists c. f_equal. apply Z.eqb_eq in E. subst k.
  clear IH Hr. induction rest as [|d rest IH]; simpl in *; [reflexivity|].
  apply orb_false_iff in Hc as [Hd Hrest].
  rewrite Z.eqb_sym, Hd. auto.
Qed.

Lemma references_filter cs p :
  distinct (map Category.id cs) = true ->
  filter (references p) cs = [] \/ exists c, filter (references p) cs = [c].
Proof.
  intros H. unfold references. destruct (Post.category_id p) as [k|].
  - now apply distinct_filter.
  - left. clear H. induction cs as [|c rest IH]; simpl; [reflexivity|exact IH].
Qed.

(** With distinct category ids the join gives each post one row, and the
    list filter holds of that row exactly when the count filter holds of
    the post. *)
Lemma join_one_row cs qs p :
  distinct (map Category.id cs) = true ->
  exists r,
    join_categories cs p = [r] /\ post r = p
    /\ holds cs (fst (list_filters qs)) (snd (list_filters qs)) r
       = holds cs (fst (count_statement qs)) (snd (count_statement qs))
               {| post := p; category_name := None; category_slug := None |}.
Proof.
  intros D. unfold join_categories, list_filters, count_statement, filters.
  destruct (references_filter cs p D) as [E | [c E]]; rewrite E;
    (eexists; split; [reflexivity|]; split; [reflexivity|]);
    destruct (truthy (req_query "category" qs)) as [cat|],
             (truthy (req_query "search" qs)) as [search|];
    unfold holds; simpl; rewrite ?existsb_filter, ?E; simpl;
    repeat match goal with
           | |- context [(?a =? ?b)%string] => destruct (a =? b)%string
           | |- context [like ?a ?b] => destruct (like a b)
           end; reflexivity.
Qed.

Lemma list_rows_counted cs qs ps :
  distinct (map Category.id cs) = true ->
  map post (filter (holds cs (fst (list_filters qs)) (snd (list_filters qs)))
                   (left_join ps cs))
  = map post (filter (holds cs (fst (count_statement qs)) (snd (count_statement qs)))
                     (from_posts ps)).
Proof.
  intros D. unfold left_join, from_posts.
  induction ps as [|p rest IH]; simpl; [reflexivity|].
  rewrite filter_app, map_app, IH.
  destruct (join_one_row cs qs p D) as (r & -> & Hp & Hh). simpl.
  rewrite Hh. destruct (holds _ _ _ {| post := p |}); simpl; now rewrite ?Hp.
Qed.

Lemma unpaginated_counted db qs :
  distinct (map Category.id (categories db)) = true ->
  Permutation (map post (unpaginated db qs)) (map post (counted db qs)).
Proof.
  intros D. unfold unpaginated, matching_rows, counted, counted_rows.
  rewrite <- (list_rows_counted _ qs (posts db) D).
  apply Permutation_map, order_by_perm.
Qed.

(** C2. Category ids being distinct (PRIMARY KEY), for every combination
    of the status, category and search parameters the posts the count
    statement counts are those of the rows of the list statement before
    LIMIT and OFFSET, and the total reported is the number of those rows. *)
Theorem count_matches_list (db : DB) (qs : query_string) :
  distinct (map Category.id (categories db)) = true ->
  Permutation (map post (unpaginated db qs)) (map post (counted db qs))
  /\ count_posts db (fst (count_statement qs)) (snd (count_statement qs))
     = Done (Z.of_nat (length (unpaginated db qs)))
  /\ (forall rows pg,
        get_posts db qs = json (BPosts rows pg) 200 ->
        total pg = Int (Z.of_nat (length (unpaginated db qs)))).
Proof.
  intros D. pose proof (unpaginated_counted db qs D) as P.
  assert (L : length (unpaginated db qs) = length (counted db qs)).
  { apply Permutation_length in P. now rewrite !length_map in P. }
  split; [exact P|]. rewrite L. split; [apply count_posts_counted|].
  intros rows pg H.
  destruct (get_posts_ok _ _ _ _ H) as (l & o & _ & _ & _ & _ & ->).
  reflexivity.
Qed.

(* ================================================================== *)
(** * Further properties *)

(** ** What a slug keeps of its title *)

Lemma lower_char_az09 c : in_az09 (lower_char c) = is_alnum c.
Proof. destruct c as [[] [] [] [] [] [] [] []]; reflexivity. Qed.

Lemma replace_runs_letters b s :
  filter (fun c => negb (is_hyphen c)) (replace_runs b s) = filter in_az09 s.
Proof.
  revert b. induction s as [|c rest IH]; intros b; simpl; [reflexivity|].
  destruct (in_az09 c) eqn:E.
  - simpl. rewrite (az09_not_hyphen _ E). simpl. now rewrite IH.
  - destruct b; simpl; apply IH.
Qed.

Lemma strip_edges_letters b s :
  filter (fun c => negb (is_hyphen c)) (strip_edges b s)
  = filter (fun c => negb (is_hyphen c)) s.
Proof.
  revert b. induction s as [|c rest IH]; intros b; simpl; [reflexivity|].
  destruct (is_hyphen c) eqn:E; simpl.
  - destruct (b || _); simpl; rewrite ?E; simpl; apply IH.
  - rewrite E. simpl. now rewrite IH.
Qed.

Lemma filter_lower s :
  filter in_az09 (map lower_char s) = map lower_char (filter is_alnum s).
Proof.
  induction s as [|c rest IH]; simpl; [reflexivity|].
  rewrite lower_char_az09. destruct (is_alnum c); simpl; now rewrite IH.
Qed.

Lemma slug_chars_letters s :
  filter (fun c => negb (is_hyphen c)) (slug_chars s) = filter in_az09 (toLowerCase s).
Proof.
  unfold slug_chars.
  now rewrite strip_edges_letters, replace_runs_letters.
Qed.

Lemma filter_none {A} (f : A -> bool) l :
  filter f l = [] <-> forallb (fun x => negb (f x)) l = true.
Proof.
  induction l as [|x rest IH]; simpl; [tauto|].
  destruct (f x); simpl; [split; discriminate|exact IH].
Qed.

(** X1. The characters of a slug other than hyphens are the characters
    [[a-z0-9]] of the lower-cased title, in their order: nothing else is
    kept, and none of them is lost. For a title of ASCII characters they
    are its letters and digits, lower-cased. *)
Theorem generateSlug_keeps_alphanumerics (title : string) :
  filter (fun c => negb (is_hyphen c)) (list_ascii_of_string (generateSlug title))
  = filter in_az09 (toLowerCase (list_ascii_of_string title))
  /\ (ascii_text title = true ->
      filter (fun c => negb (is_hyphen c)) (list_ascii_of_string (generateSlug title))
      = map lower_char (filter is_alnum (list_ascii_of_string title))).
Proof.
  unfold generateSlug. rewrite list_ascii_of_string_of_list_ascii.
  rewrite slug_chars_letters. split; [reflexivity|].
  intros A. rewrite (toLowerCase_ascii _ A). apply filter_lower.
Qed.

Lemma generateSlug_empty title : generateSlug title = "" -> unlettered title = true.
Proof.
  intros H. pose proof (slug_chars_letters (list_ascii_of_string title)) as K.
  unfold generateSlug in H.
  apply (f_equal list_ascii_of_string) in H.
  rewrite list_ascii_of_string_of_list_ascii in H. simpl in H.
  rewrite H in K. simpl in K. symmetry in K.
  now apply filter_none in K.
Qed.

(** X2. The slug is empty exactly when the lower-cased title has no
    character of [[a-z0-9]]; for a title of ASCII characters, exactly when
    it has no letter and no digit. *)
Theorem generateSlug_empty_iff (title : string) :
  (generateSlug title = "" <-> unlettered title = true)
  /\ (ascii_text title = true ->
      (generateSlug title = "" <-> no_alnum title = true)).
Proof.
  split.
  - split; [apply generateSlug_empty|apply generateSlug_unlettered].
  - intros A. split.
    + intros H. apply generateSlug_empty in H. unfold unlettered in H.
      unfold ascii_text in A. rewrite (toLowerCase_ascii _ A) in H. clear A.
      unfold no_alnum.
      induction (list_ascii_of_string title) as [|c rest IH]; simpl in *; [reflexivity|].
      rewrite lower_char_az09 in H. apply andb_true_iff in H as [Hc Hr].
      now rewrite Hc, IH.
    + intros H. apply generateSlug_unlettered. now apply ascii_unlettered.
Qed.

Lemma replace_runs_length b s : (length (replace_runs b s) <= length s)%nat.
Proof.
  revert b. induction s as [|c rest IH]; intros b; simpl; [lia|].
  pose proof (IH true). pose proof (IH false).
  destruct (in_az09 c); [|destruct b]; simpl; lia.
Qed.

Lemma strip_edges_length b s : (length (strip_edges b s) <= length s)%nat.
Proof.
  revert b. induction s as [|c rest IH]; intros b; simpl; [lia|].
  specialize (IH false). destruct (is_hyphen c && _); simpl; lia.
Qed.

Lemma string_of_chars_length (l : chars) :
  String.length (string_of_list_ascii l) = length l.
Proof. induction l as [|c rest IH]; simpl; [reflexivity|now rewrite IH]. Qed.

(** X3. A slug is never longer than the lower-cased title, and for a title
    of ASCII characters never longer than the title. *)
Theorem generateSlug_length (title : string) :
  (String.length (generateSlug title)
   <= length (toLowerCase (list_ascii_of_string title)))%nat
  /\ (ascii_text title = true ->
      (String.length (generateSlug title) <= String.length title)%nat).
Proof.
  assert (L : (String.length (generateSlug title)
               <= length (toLowerCase (list_ascii_of_string title)))%nat).
  { unfold generateSlug, slug_chars. rewrite string_of_chars_length.
    etransitivity; [apply strip_edges_length|]. apply replace_runs_length. }
  split; [exact L|]. intros A.
  rewrite (toLowerCase_ascii _ A), length_map in L.
  rewrite <- (string_of_list_ascii_of_string title) at 2.
  now rewrite string_of_chars_length.
Qed.

(** ** Creating a post: validation, conflict and what is stored *)

Lemma safeParse_issue s input k f :
  field_of k s = Some f -> parse_field f (get k input) = None ->
  safeParse s input = None.
Proof.
  induction s as [|[k' f'] rest IH]; simpl; [discriminate|].
  destruct (String.eqb_spec k' k) as [-> | _].
  - intros [= ->] ->. reflexivity.
  - intros Hf Hp. rewrite (IH Hf Hp).
    now destruct (parse_field f' (get k' input)) as [[?|]|].
Qed.

(** X4. A create whose body has no title, an empty one or one of more
    than 200 characters, no or an empty content, no author, or a status
    other than [draft] and [published], is answered 400 and stores
    nothing. *)
Theorem create_post_invalid (db : DB) (input : object) (now : string) :
  get "title" input = None
  \/ (exists t, get "title" input = Some (VStr t)
                /\ (t = "" \/ (200 < String.length t)%nat))
  \/ get "content" input = None \/ get "content" input = Some (VStr "")
  \/ get "author" input = None
  \/ (exists s, get "status" input = Some (VStr s)
                /\ s <> "draft" /\ s <> "published") ->
  create_post db input now = (json (BError "Invalid input") 400, db).
Proof.
  intros H. unfold create_post.
  enough (E : safeParse postSchema input = None) by now rewrite E.
  destruct H as [H | [(t & H & Ht) | [H | [H | [H | (s & H & Hd & Hp)]]]]].
  - apply (safeParse_issue postSchema _ "title" _ eq_refl). now rewrite H.
  - apply (safeParse_issue postSchema _ "title" _ eq_refl). rewrite H. simpl.
    destruct Ht as [-> | Ht]; [reflexivity|].
    unfold within. apply Nat.leb_gt in Ht. rewrite Ht.
    now rewrite andb_false_r.
  - apply (safeParse_issue postSchema _ "content" _ eq_refl). now rewrite H.
  - apply (safeParse_issue postSchema _ "content" _ eq_refl). now rewrite H.
  - apply (safeParse_issue postSchema _ "author" _ eq_refl). now rewrite H.
  - apply (safeParse_issue postSchema _ "status" _ eq_refl). rewrite H. simpl.
    apply String.eqb_neq in Hd, Hp. now rewrite Hd, Hp.
Qed.

(** X5. A valid create whose title gives the slug of a stored post is
    answered 409 and stores nothing: titles that differ only in case or
    punctuation collide. *)
Theorem create_post_conflict (db : DB) (input data : object) (now title : string) :
  safeParse postSchema input = Some data ->
  get "title" input = Some (VStr title) ->
  existsb (fun p => (Post.slug p =? generateSlug title)%string) (posts db) = true ->
  create_post db input now
  = (json (BError "A post with this title already exists") 409, db).
Proof.
  intros V Hin Hdup. unfold create_post. rewrite V. unfold insert_post. cbv zeta.
  destruct (new_post_title _ _ now (next_post_id db) _ V Hin) as [_ ->].
  now rewrite Hdup.
Qed.

Lemma create_post_created db input now p db' :
  create_post db input now = (json (BPost p) 201, db') ->
  exists data,
    safeParse postSchema input = Some data
    /\ db' = with_posts db (posts db ++ [new_post data now (next_post_id db)])
                        (next_post_id db)
    /\ formatPost (new_post data now (next_post_id db)) = Some p
    /\ existsb (fun q => (Post.slug q
                          =? Post.slug (new_post data now (next_post_id db)))%string)
               (posts db) = false.
Proof.
  unfold create_post.
  destruct (safeParse postSchema input) as [data|] eqn:V; [|discriminate].
  destruct (insert_post db (new_post data now)) as [[result db1]|e] eqn:I.
  2:{ destruct (includes _ _); discriminate. }
  destruct (insert_post_done _ _ _ _ (new_post_id data now) I) as (Hl & _ & Hf & Hu).
  rewrite Hl, Hf.
  destruct (formatPost _) as [q|] eqn:F; [|discriminate].
  intros [= <- <-]. exists data. repeat split; try assumption.
  unfold insert_post in I. rewrite Hu in I.
  destruct (category_known db _); [|discriminate]. now injection I as _ <-.
Qed.

(** X6. A create answered 201 appends one row and changes nothing else:
    the stored posts, the categories and the comments are as before, and
    the new post's id is above every id the table holds. *)
Theorem create_post_appends (db : DB) (input : object) (now : string)
    (p : Post.t) (db' : DB) :
  create_post db input now = (json (BPost p) 201, db') ->
  (exists row, posts db' = (posts db ++ [row])%list /\ Post.id row = Post.id p)
  /\ (forall q, In q (posts db) -> Post.id q < Post.id p)
  /\ categories db' = categories db
  /\ comments db' = comments db.
Proof.
  intros H. destruct (create_post_created _ _ _ _ _ H) as (data & _ & -> & F & _).
  destruct (formatPost_fields _ _ F) as (Hi & _). simpl in Hi.
  split; [|split; [|split; reflexivity]].
  - eexists. split; [reflexivity|]. now rewrite Hi.
  - intros q Hq. rewrite Hi.
    pose proof (max_id_bound (posts_seq db) _ _ Hq). unfold next_post_id. lia.
Qed.

(** X7. The excerpt a create stores is the excerpt of the body when it
    has a non-empty one, and otherwise the first 200 characters of the
    content followed by three dots, also for a content of fewer than 200
    characters. *)
Theorem create_post_excerpt (db : DB) (input : object) (now content : string)
    (p : Post.t) (db' : DB) :
  create_post db input now = (json (BPost p) 201, db') ->
  get "content" input = Some (VStr content) ->
  exists stored,
    post_by_id db' (Post.id p) = Some stored
    /\ Post.excerpt stored
       = Some (match truthy (get_string "excerpt" input) with
               | Some e => e
               | None => substring 0 200 content ++ "..."
               end).
Proof.
  intros H Hc. destruct (create_post_created _ _ _ _ _ H) as (data & V & -> & F & _).
  destruct (formatPost_fields _ _ F) as (Hi & _). simpl in Hi. rewrite Hi.
  exists (new_post data now (next_post_id db)). split.
  - unfold post_by_id. simpl. apply find_app_fresh; [apply next_post_id_fresh|].
    apply Z.eqb_refl.
  - pose proof (postSchema_present _ _ "content" _ _ V eq_refl Hc) as Hd.
    unfold new_post, get_string. simpl. rewrite Hd. f_equal.
    destruct (safeParse_field postSchema input data "excerpt" _ eq_refl V eq_refl)
      as (r & P & G).
    rewrite G. destruct (get "excerpt" input) as [v|].
    + apply parse_field_present in P. subst r.
      destruct v as [| | |e]; try reflexivity. simpl. now destruct (e =? "")%string.
    + simpl in P. now injection P as <-.
Qed.

(** ** Updating a post: timestamps, misses and conflicts *)

Lemma put_post_bound db id input now :
  match safeParse (partial postSchema) input with
  | None => put_post db id input now = (json (BError "Invalid input") 400, db)
  | Some data =>
      put_post db id input now =
        match update_rows id (fst (assignments data now)) (snd (assignments data now))
                          (posts db) with
        | Some (ps, n) =>
            if n =? 0 then
              match post_by_id db id with
              | None => (json (BError "Post not found") 404, db)
              | Some p =>
                  match formatPost p with
                  | Some f => (json (BPost f) 200, db)
                  | None => (json (BError "Failed to update post") 500, db)
                  end
              end
            else if negb (unique_slugs ps)
                    || negb (forallb (fun p => category_known db (Post.category_id p)) ps)
            then (json (BError "Failed to update post") 500, db)
            else
              match find (fun p => Post.id p =? id) ps with
              | None => (json (BError "Post not found") 404,
                         with_posts db ps (posts_seq db))
              | Some p =>
                  match formatPost p with
                  | Some f => (json (BPost f) 200, with_posts db ps (posts_seq db))
                  | None => (json (BError "Failed to update post") 500,
                             with_posts db ps (posts_seq db))
                  end
              end
        | None => (json (BError "Failed to update post") 500, db)
        end
  end.
Proof.
  unfold put_post. destruct (safeParse (partial postSchema) input) as [data|];
    [|reflexivity].
  destruct (assignments data now) as [updates values]. simpl.
  unfold update_post. rewrite rev_app_distr. simpl. rewrite rev_involutive.
  destruct (update_rows id updates values (posts db)) as [[ps n]|]; [|reflexivity].
  destruct (n =? 0); [reflexivity|].
  destruct (unique_slugs ps); [|reflexivity].
  destruct (forallb _ ps); reflexivity.
Qed.

Lemma update_rows_miss id cols vals ps :
  find (fun p => Post.id p =? id) ps = None ->
  update_rows id cols vals ps = Some (ps, 0).
Proof.
  induction ps as [|p rest IH]; simpl; [reflexivity|].
  destruct (Post.id p =? id); [discriminate|]. intros H. now rewrite (IH H).
Qed.

Lemma update_rows_others id cols vals ps ps' n :
  update_rows id cols vals ps = Some (ps', n) ->
  ~ In "id" cols -> ~ In "created_at" cols ->
  other_posts id ps' = other_posts id ps /\ length ps' = length ps.
Proof.
  intros H Hid Hc. revert ps' n H.
  induction ps as [|p rest IH]; simpl; intros ps' n H.
  - injection H as <- <-. auto.
  - destruct (update_rows id cols vals rest) as [[rest' m]|]; [|discriminate].
    destruct (IH _ _ eq_refl) as [IH1 IH2].
    destruct (Post.id p =? id) eqn:E.
    + destruct (set_columns cols vals p) as [p'|] eqn:S; [|discriminate].
      injection H as <- <-. simpl.
      pose proof (set_columns_frame _ _ _ _ S Hid Hc) as F.
      injection F as F _. rewrite F, E. simpl. auto.
    + injection H as <- <-. simpl. rewrite E. simpl. now rewrite IH1, IH2.
Qed.

Lemma update_rows_hit id cols vals ps ps' n old :
  update_rows id cols vals ps = Some (ps', n) ->
  In old ps -> Post.id old = id ->
  exists stored, In stored ps' /\ set_columns cols vals old = Some stored.
Proof.
  revert ps' n. induction ps as [|p rest IH]; simpl; intros ps' n H Hin Hid; [tauto|].
  destruct (update_rows id cols vals rest) as [[rest' m]|]; [|discriminate].
  specialize (IH _ _ eq_refl).
  destruct Hin as [-> | Hin].
  - rewrite Hid, Z.eqb_refl in H.
    destruct (set_columns cols vals old) as [p'|]; [|discriminate].
    injection H as <- <-. exists p'. simpl. auto.
  - destruct (IH Hin Hid) as (stored & Hs & Hset).
    exists stored. split; [|exact Hset].
    destruct (Post.id p =? id); [destruct (set_columns cols vals p)|];
      try discriminate; injection H as <- <-; simpl; auto.
Qed.

Lemma update_rows_keeps id cols vals ps ps' n p :
  update_rows id cols vals ps = Some (ps', n) ->
  In p ps -> Post.id p <> id -> In p ps'.
Proof.
  revert ps' n. induction ps as [|q rest IH]; simpl; intros ps' n H Hin Hid; [tauto|].
  destruct (update_rows id cols vals rest) as [[rest' m]|]; [|discriminate].
  specialize (IH _ _ eq_refl).
  destruct (Post.id q =? id) eqn:E.
  - destruct (set_columns cols vals q); [|discriminate]. injection H as <- <-.
    destruct Hin as [-> | Hin]; [apply Z.eqb_eq in E; contradiction|].
    simpl. auto.
  - injection H as <- <-. destruct Hin as [-> | Hin]; simpl; auto.
Qed.

(** X8. An update with a valid body for an id no post has is answered
    404 and changes nothing. *)
Theorem put_post_missing (db : DB) (id : Z) (input data : object) (now : string) :
  safeParse (partial postSchema) input = Some data ->
  post_by_id db id = None ->
  put_post db id input now = (json (BError "Post not found") 404, db).
Proof.
  intros V Hmiss. pose proof (put_post_bound db id input now) as B.
  rewrite V in B. rewrite B. unfold post_by_id in Hmiss.
  rewrite (update_rows_miss _ _ _ _ Hmiss). simpl. unfold post_by_id.
  now rewrite Hmiss.
Qed.

(** X9. Whatever an update is answered, the posts with another id, the
    number of posts, the categories and the comments are as before. *)
Theorem put_post_others (db : DB) (id : Z) (input : object) (now : string) :
  let db' := snd (put_post db id input now) in
  other_posts id (posts db') = other_posts id (posts db)
  /\ length (posts db') = length (posts db)
  /\ categories db' = categories db
  /\ comments db' = comments db.
Proof.
  cbv zeta. pose proof (put_post_bound db id input now) as B.
  destruct (safeParse (partial postSchema) input) as [data|] eqn:V;
    [|rewrite B; auto].
  destruct (put_post_slug_and_created_at_columns data now input V) as [Hc Hid].
  rewrite B.
  destruct (update_rows _ _ _ _) as [[ps n]|] eqn:U; [|auto].
  destruct (update_rows_others _ _ _ _ _ _ U Hid Hc) as [Ho Hl].
  destruct (n =? 0).
  { destruct (post_by_id db id) as [p|]; [destruct (formatPost p)|]; auto. }
  destruct (negb (unique_slugs ps) || _); [auto|].
  destruct (find _ ps) as [p|]; [destruct (formatPost p)|]; simpl; auto.
Qed.

Lemma set_columns_app c1 v1 c2 v2 p :
  length c1 = length v1 ->
  set_columns (c1 ++ c2) (v1 ++ v2) p
  = match set_columns c1 v1 p with
    | Some p1 => set_columns c2 v2 p1
    | None => None
    end.
Proof.
  revert v1 p. induction c1 as [|c c1 IH]; intros [|v v1] p; simpl; try discriminate.
  - now destruct c2, v2.
  - intros [= L]. destruct (set_column c v p); [now apply IH|reflexivity].
Qed.

Lemma set_column_stamps col v p p' :
  set_column col v p = Some p' ->
  col <> "updated_at" -> col <> "published_at" ->
  Post.updated_at p' = Post.updated_at p
  /\ Post.published_at p' = Post.published_at p.
Proof.
  unfold set_column. destruct p. intros H Hu Hp.
  apply String.eqb_neq in Hu, Hp. rewrite Hu, Hp in H.
  repeat match type of H with
         | (if ?b then _ else _) = _ => destruct b
         | option_map _ ?x = _ => destruct x; simpl in H
         end;
    try discriminate; destruct v as [| |[| |?]|?]; try discriminate;
    now injection H as <-.
Qed.

Lemma set_columns_stamps cols vals p p' :
  set_columns cols vals p = Some p' ->
  ~ In "updated_at" cols -> ~ In "published_at" cols ->
  Post.updated_at p' = Post.updated_at p
  /\ Post.published_at p' = Post.published_at p.
Proof.
  revert vals p. induction cols as [|c cols IH]; intros [|v vals] p; simpl;
    try discriminate.
  - intros [= <-]. auto.
  - destruct (set_column c v p) as [p1|] eqn:E; [|discriminate].
    intros H Hu Hp. destruct (IH _ _ H) as [-> ->]; [tauto..|].
    eapply set_column_stamps; eauto.
Qed.

Lemma partial_status input data :
  safeParse (partial postSchema) input = Some data ->
  get "status" data = get "status" input.
Proof.
  intros V.
  destruct (safeParse_field (partial postSchema) input data "status" _ eq_refl V eq_refl)
    as (r & P & G).
  rewrite G. destruct (get "status" input) as [v|].
  - now apply parse_field_present in P.
  - simpl in P. congruence.
Qed.

Lemma entries_columns_schema input data c :
  safeParse (partial postSchema) input = Some data ->
  In c (fst (entries_updates data)) ->
  c = "slug" \/ field_of c (partial postSchema) <> None.
Proof.
  intros V H. apply entries_updates_columns in H as [H | [_ H]]; [auto|].
  right. intros Hn. revert H. apply get_none_notin. eapply safeParse_absent; eauto.
Qed.

Lemma put_post_answered db id input now q db' :
  put_post db id input now = (json (BPost q) 200, db') ->
  exists data old stored,
    safeParse (partial postSchema) input = Some data
    /\ post_by_id db id = Some old
    /\ post_by_id db' id = Some stored
    /\ set_columns (fst (assignments data now)) (snd (assignments data now)) old
       = Some stored
    /\ formatPost stored = Some q.
Proof.
  pose proof (put_post_bound db id input now) as B.
  destruct (safeParse (partial postSchema) input) as [data|] eqn:V;
    [|rewrite B; discriminate].
  destruct (put_post_slug_and_created_at_columns data now input V) as [Hc Hid].
  rewrite B. clear B.
  destruct (update_rows _ _ _ _) as [[ps n]|] eqn:U; [|discriminate].
  pose proof (update_rows_count _ _ _ _ _ _ U) as Hn.
  destruct (n =? 0) eqn:En.
  - apply Z.eqb_eq in En. subst n. unfold post_by_id.
    destruct (find _ (posts db)) as [p|] eqn:F; [|discriminate].
    apply find_some in F as [Fin Fid].
    assert (In p (filter (fun p => Post.id p =? id) (posts db)))
      by (apply filter_In; auto).
    destruct (filter _ (posts db)); [contradiction|simpl in En; lia].
  - destruct (negb (unique_slugs ps) || _); [discriminate|].
    destruct (find _ ps) as [stored|] eqn:F; [|discriminate].
    destruct (formatPost stored) as [f|] eqn:Ff; [|discriminate].
    intros [= <- <-].
    destruct (update_rows_find _ _ _ _ _ _ _ U Hid Hc F) as (old & Fo & S).
    exists data, old, stored. unfold post_by_id. simpl. auto.
Qed.

(** X10. An update answered with the post has set its [updated_at] to the
    time of the update. Its [published_at] is that time when the body's
    status is [published], whether or not the post was published before;
    with any other body, one that sets the status to [draft] too, it keeps
    the [published_at] it had. *)
Theorem put_post_timestamps (db : DB) (id : Z) (input : object) (now : string)
    (q : Post.t) (db' : DB) :
  put_post db id input now = (json (BPost q) 200, db') ->
  exists old stored,
    post_by_id db id = Some old
    /\ post_by_id db' id = Some stored
    /\ Post.updated_at stored = now
    /\ Post.published_at stored
       = if is_string (get "status" input) "published"
         then Some now else Post.published_at old.
Proof.
  intros H.
  destruct (put_post_answered _ _ _ _ _ _ H) as (data & old & stored & V & Ho & Hs & S & _).
  exists old, stored. split; [exact Ho|]. split; [exact Hs|].
  rewrite <- (partial_status _ _ V). unfold assignments in S.
  pose proof (entries_updates_length data) as L.
  pose proof (entries_columns_schema input data) as K.
  destruct (entries_updates data) as [u vs]. simpl in L, K.
  assert (Hu : ~ In "updated_at" u).
  { intros Hin. destruct (K _ V Hin) as [? | Hf]; [discriminate|]. now apply Hf. }
  assert (Hp : ~ In "published_at" u).
  { intros Hin. destruct (K _ V Hin) as [? | Hf]; [discriminate|]. now apply Hf. }
  assert (Hstep : forall p1 p2,
             set_columns u vs old = Some p1 ->
             set_columns ["updated_at"] [VStr now] p1 = Some p2 ->
             Post.updated_at p2 = now /\ Post.published_at p2 = Post.published_at old).
  { intros p1 p2 S1 S2. destruct (set_columns_stamps _ _ _ _ S1 Hu Hp) as [_ <-].
    destruct p1. simpl in S2. now injection S2 as <-. }
  destruct (is_string (get "status" data) "published"); simpl in S.
  - rewrite set_columns_app in S by now rewrite !length_app, L.
    rewrite set_columns_app in S by exact L.
    destruct (set_columns u vs old) as [p1|] eqn:S1; [|discriminate].
    destruct (set_columns ["updated_at"] [VStr now] p1) as [p2|] eqn:S2; [|discriminate].
    destruct (Hstep _ _ eq_refl S2) as [Hup _].
    destruct p2. simpl in S, Hup. injection S as <-. simpl. auto.
  - rewrite set_columns_app in S by exact L.
    destruct (set_columns u vs old) as [p1|] eqn:S1; [|discriminate].
    now apply (Hstep p1).
Qed.

Lemma unique_slugs_inj ps a b :
  unique_slugs ps = true -> In a ps -> In b ps -> Post.slug a = Post.slug b -> a = b.
Proof.
  induction ps as [|p rest IH]; simpl; [tauto|].
  intros H Ha Hb E. apply andb_true_iff in H as [Hp Hr].
  apply negb_true_iff in Hp.
  assert (Hfresh : forall x, In x rest -> Post.slug x <> Post.slug p).
  { intros x Hx Hs. assert (T : existsb (fun p' => (Post.slug p' =? Post.slug p)%string) rest = true)
      by (apply existsb_exists; exists x; split; [exact Hx|now apply String.eqb_eq]).
    congruence. }
  destruct Ha as [-> | Ha], Hb as [-> | Hb]; auto.
  - exfalso. apply (Hfresh _ Hb). congruence.
  - exfalso. apply (Hfresh _ Ha). congruence.
Qed.

(** X11. An update that would give a post the slug of another stored post
    is answered 500, not 409, and changes nothing. *)
Theorem put_post_slug_taken (db : DB) (id : Z) (input data : object)
    (now title : string) (old other : Post.t) :
  safeParse (partial postSchema) input = Some data ->
  get "title" input = Some (VStr title) ->
  In old (posts db) -> Post.id old = id ->
  In other (posts db) -> Post.id other <> id ->
  Post.slug other = generateSlug title ->
  put_post db id input now = (json (BError "Failed to update post") 500, db).
Proof.
  intros V Hin Hold Hid Hother Hoid Hslug.
  pose proof (put_post_bound db id input now) as B. rewrite V in B. rewrite B. clear B.
  destruct (put_post_slug_and_created_at_columns data now input V) as [Hc Hi].
  destruct (update_rows _ _ _ _) as [[ps n]|] eqn:U; [|reflexivity].
  pose proof (update_rows_count _ _ _ _ _ _ U) as Hn.
  assert (Hpos : (n =? 0) = false).
  { apply Z.eqb_neq. subst n.
    assert (In old (filter (fun p => Post.id p =? id) (posts db)))
      by (apply filter_In; split; [exact Hold|now apply Z.eqb_eq]).
    destruct (filter _ (posts db)); [contradiction|simpl; lia]. }
  rewrite Hpos.
  destruct (update_rows_hit _ _ _ _ _ _ _ U Hold Hid) as (stored & Hs & S).
  pose proof (update_rows_keeps _ _ _ _ _ _ _ U Hother Hoid) as Hk.
  destruct (partial_title _ _ _ V Hin) as (t' & [= <-] & Ht).
  assert (Hst : Post.slug stored = generateSlug title).
  { eapply set_columns_slug; [exact S| |].
    - intros v. now apply (assignments_slug input data now).
    - right. exists (VStr (generateSlug title)).
      pose proof (entries_updates_title _ _ Ht) as E. unfold assignments.
      destruct (entries_updates data) as [u vs]. destruct E as [_ E].
      destruct (is_string _ _); simpl; repeat apply combine_app_In; exact E. }
  destruct (unique_slugs ps) eqn:Uq; [|reflexivity].
  exfalso. apply Hoid.
  assert (stored = other) by (eapply unique_slugs_inj; eauto; congruence).
  subst other. pose proof (set_columns_frame _ _ _ _ S Hi Hc) as F.
  injection F as F _. congruence.
Qed.

Lemma update_rows_touch id now ps :
  update_rows id ["updated_at"] [VStr now] ps
  = Some (map (fun p => if Post.id p =? id then touched now p else p) ps,
          Z.of_nat (length (filter (fun p => Post.id p =? id) ps))).
Proof.
  induction ps as [|p rest IH]; [reflexivity|].
  cbn [update_rows]. rewrite IH. cbn [map filter].
  destruct (Post.id p =? id); [|reflexivity].
  destruct p. cbn. do 2 f_equal. lia.
Qed.

Lemma unique_slugs_map f ps :
  (forall p, Post.slug (f p) = Post.slug p) ->
  unique_slugs (map f ps) = unique_slugs ps.
Proof.
  intros Hf. induction ps as [|p rest IH]; simpl; [reflexivity|].
  rewrite IH, Hf. f_equal. f_equal.
  clear IH. induction rest as [|x rest IH]; simpl; [reflexivity|].
  now rewrite IH, Hf.
Qed.

Lemma forallb_map_same {A} (g : A -> bool) (f : A -> A) l :
  (forall x, g (f x) = g x) -> forallb g (map f l) = forallb g l.
Proof.
  intros H. induction l as [|x rest IH]; simpl; [reflexivity|]. now rewrite H, IH.
Qed.

(** X12. An update whose body has none of the fields of a post, the
    posts' constraints holding, only refreshes [updated_at]: the post with
    the id gets the time of the update there, and every column of every
    post is otherwise as before. *)
Theorem put_post_empty_body (db : DB) (id : Z) (input : object) (now : string) :
  safeParse (partial postSchema) input = Some [] ->
  posts_valid db = true ->
  posts (snd (put_post db id input now))
  = map (fun p => if Post.id p =? id then touched now p else p) (posts db).
Proof.
  intros V Hv. pose proof (put_post_bound db id input now) as B.
  rewrite V in B. rewrite B. clear B. simpl fst. simpl snd.
  rewrite update_rows_touch.
  set (f := fun p => if Post.id p =? id then touched now p else p).
  apply andb_true_iff in Hv as [Hu Hk].
  destruct (Z.of_nat _ =? 0) eqn:En.
  - assert (E : map f (posts db) = posts db).
    { apply Z.eqb_eq in En. clear - En. unfold f.
      induction (posts db) as [|p rest IH]; simpl in *; [reflexivity|].
      destruct (Post.id p =? id); [simpl in En; lia|]. now rewrite IH. }
    rewrite E.
    destruct (post_by_id db id) as [p|]; [destruct (formatPost p)|]; reflexivity.
  - assert (Huq : unique_slugs (map f (posts db)) = true).
    { rewrite unique_slugs_map; [exact Hu|].
      intros p. unfold f. now destruct (Post.id p =? id). }
    assert (Hfk : forallb (fun p => category_known db (Post.category_id p))
                          (map f (posts db)) = true).
    { rewrite forallb_map_same; [exact Hk|].
      intros p. unfold f. now destruct (Post.id p =? id). }
    rewrite Huq, Hfk. simpl.
    destruct (find _ _) as [p|]; [destruct (formatPost p)|]; reflexivity.
Qed.

(** ** Deleting a post: cascade *)

Lemma other_posts_all id ps :
  find (fun p => Post.id p =? id) ps = None -> other_posts id ps = ps.
Proof.
  unfold other_posts. induction ps as [|p rest IH]; simpl; [reflexivity|].
  destruct (Post.id p =? id); [discriminate|]. simpl. intros H. now rewrite IH.
Qed.

Lemma remove_post_bound db id :
  remove_post db id =
    (json (BMessage "Post deleted successfully") 200,
     match post_by_id db id with
     | None => db
     | Some _ =>
         {| posts := other_posts id (posts db);
            categories := categories db;
            comments := filter (fun c => negb (Comment.post_id c =? id)) (comments db);
            posts_seq := posts_seq db |}
     end).
Proof.
  unfold remove_post, delete_post, post_by_id. fold (other_posts id (posts db)).
  cbn [is_zero result_changes]. f_equal.
  assert (L : Nat.add (length (filter (fun p => Post.id p =? id) (posts db)))
                      (length (other_posts id (posts db)))
              = length (posts db))
    by apply (filter_split_length (fun p => Post.id p =? id)).
  destruct (find _ (posts db)) as [p|] eqn:F.
  - apply find_some in F as [Fin Fid].
    assert (Hin : In p (filter (fun p => Post.id p =? id) (posts db)))
      by (apply filter_In; auto).
    destruct (filter (fun p => Post.id p =? id) (posts db)) as [|x l] eqn:E;
      [contradiction|].
    simpl in L.
    assert (Hn : (Z.of_nat (length (posts db))
                  - Z.of_nat (length (other_posts id (posts db))) =? 0) = false)
      by (apply Z.eqb_neq; lia).
    now rewrite Hn.
  - rewrite (other_posts_all _ _ F). rewrite Z.sub_diag. reflexivity.
Qed.

(** X13. A delete that finds the post removes it together with every
    comment on it, and leaves the other posts, the comments on other
    posts and the categories as they were; a delete that finds no post
    changes nothing. *)
Theorem remove_post_cascade (db : DB) (id : Z) :
  let db' := snd (remove_post db id) in
  (post_by_id db id = None -> db' = db)
  /\ (post_by_id db id <> None ->
      posts db' = other_posts id (posts db)
      /\ comments db'
         = filter (fun c => negb (Comment.post_id c =? id)) (comments db)
      /\ categories db' = categories db).
Proof.
  cbv zeta. rewrite remove_post_bound.
  destruct (post_by_id db id); split; intros H; try congruence; simpl; auto.
Qed.

(** ** Fetching one post *)

Lemma left_join_post ps cs r : In r (left_join ps cs) -> In (post r) ps.
Proof.
  unfold left_join. rewrite in_flat_map. intros (p & Hp & Hr).
  unfold join_categories in Hr. destruct (filter (references p) cs) as [|c l].
  - destruct Hr as [<- | []]. exact Hp.
  - apply in_map_iff in Hr as (c' & <- & _). exact Hp.
Qed.

Lemma join_categories_first cs p :
  exists r rest, join_categories cs p = r :: rest /\ post r = p.
Proof.
  unfold join_categories. destruct (filter (references p) cs) as [|c l];
    simpl; eauto.
Qed.

Lemma formatPost_keeps p q :
  formatPost p = Some q ->
  Post.id q = Post.id p /\ Post.slug q = Post.slug p
  /\ Post.status q = Post.status p /\ Post.title q = Post.title p
  /\ Post.content q = Post.content p.
Proof.
  unfold formatPost.
  destruct (toISOString (Post.created_at p)); [|discriminate].
  destruct (toISOString (Post.updated_at p)); [|discriminate].
  destruct (truthy (Post.published_at p)) as [a|].
  - destruct (toISOString a); [|discriminate]. intros [= <-]. simpl. auto.
  - intros [= <-]. simpl. auto.
Qed.

Lemma comments_of_post_In db id status c :
  In c (comments_of_post db id status) ->
  In c (comments db) /\ Comment.post_id c = id /\ Comment.status c = status.
Proof.
  intros H. apply (Permutation_in _ (comments_of_post_perm db id status)) in H.
  apply filter_In in H as [Hin Hc]. apply andb_true_iff in Hc as [H1 H2].
  apply Z.eqb_eq in H1. apply String.eqb_eq in H2. auto.
Qed.

Lemma formatRow_post r f :
  formatRow r = Some f ->
  formatPost (post r) = Some (post f)
  /\ category_name f = category_name r /\ category_slug f = category_slug r.
Proof.
  unfold formatRow. destruct (formatPost (post r)) as [q|]; [|discriminate].
  intros [= <-]. auto.
Qed.

(** X14. The fetch of a post by slug answers 404 when no published post
    has the slug, so a draft is not served. A post it answers with has
    that slug and is published, and the comments it nests are approved
    comments on that post. *)
Theorem get_post_published_only (db : DB) (slug : string) (qs : query_string) :
  ((forall p, In p (posts db) -> Post.slug p = slug -> Post.status p <> "published") ->
   get_post db slug qs = json (BError "Post not found") 404)
  /\ (forall q, get_post db slug qs = json (BPostRow q) 200 ->
        Post.slug (post q) = slug /\ Post.status (post q) = "published")
  /\ (forall q cs, get_post db slug qs = json (BPostComments q cs) 200 ->
        Post.slug (post q) = slug /\ Post.status (post q) = "published"
        /\ forall c, In c cs ->
             Comment.post_id c = Post.id (post q) /\ Comment.status c = "approved").
Proof.
  unfold get_post.
  destruct (find _ (left_join (posts db) (categories db))) as [r|] eqn:F.
  - apply find_some in F as [Fin Fp]. apply andb_true_iff in Fp as [Fs Fst].
    apply String.eqb_eq in Fs, Fst.
    split; [|split].
    + intros Hnone. exfalso. apply left_join_post in Fin.
      exact (Hnone _ Fin Fs Fst).
    + intros q. destruct (formatRow r) as [f|] eqn:Ff; [|discriminate].
      apply formatRow_post in Ff as (Ff & _).
      destruct (formatPost_keeps _ _ Ff) as (_ & Hsl & Hst & _).
      destruct (match req_query "comments" qs with Some v => _ | None => _ end);
        [discriminate|].
      intros [= <-]. split; congruence.
    + intros q cs. destruct (formatRow r) as [f|] eqn:Ff; [|discriminate].
      apply formatRow_post in Ff as (Ff & _).
      destruct (formatPost_keeps _ _ Ff) as (Hid & Hsl & Hst & _).
      destruct (match req_query "comments" qs with Some v => _ | None => _ end);
        [|discriminate].
      intros [= <- <-]. split; [congruence|]. split; [congruence|].
      intros c Hc. apply comments_of_post_In in Hc as (_ & Hp & Hs).
      split; congruence.
  - split; [reflexivity|]. split; [intros q|intros q cs]; discriminate.
Qed.

Lemma join_categories_head cs p :
  exists r rest,
    join_categories cs p = r :: rest /\ post r = p
    /\ category_name r = option_map Category.name (find (references p) cs)
    /\ category_slug r = option_map Category.slug (find (references p) cs).
Proof.
  unfold join_categories.
  assert (H : find (references p) cs = hd_error (filter (references p) cs)).
  { induction cs as [|c rest IH]; simpl; [reflexivity|].
    destruct (references p c); [reflexivity|exact IH]. }
  rewrite H. destruct (filter (references p) cs) as [|c l]; simpl; eauto 6.
Qed.

Lemma find_same {A} (f g : A -> bool) l :
  (forall x, f x = g x) -> find f l = find g l.
Proof.
  intros H. induction l as [|x rest IH]; simpl; [reflexivity|].
  now rewrite H, IH.
Qed.

Lemma formatPost_category p q :
  formatPost p = Some q -> Post.category_id q = Post.category_id p.
Proof.
  unfold formatPost.
  destruct (toISOString (Post.created_at p)); [|discriminate].
  destruct (toISOString (Post.updated_at p)); [|discriminate].
  destruct (truthy (Post.published_at p)) as [a|].
  - destruct (toISOString a); [|discriminate]. now intros [= <-].
  - now intros [= <-].
Qed.

(** X15. Create then fetch. After a create answered 201, the fetch by the
    new post's slug (a route parameter, which is never empty) answers the
    post of the create's answer, with the name and the slug of its
    category beside it, when it is published, and 404 when it is a
    draft. *)
Theorem create_then_get_post (db : DB) (input : object) (now : string)
    (p : Post.t) (db' : DB) :
  create_post db input now = (json (BPost p) 201, db') ->
  Post.slug p <> "" ->
  (Post.status p = "published" ->
   exists row,
     get_post db' (Post.slug p) [] = json (BPostRow row) 200
     /\ post row = p
     /\ category_name row
        = option_map Category.name (find (references p) (categories db'))
     /\ category_slug row
        = option_map Category.slug (find (references p) (categories db')))
  /\ (Post.status p <> "published" ->
      forall qs, get_post db' (Post.slug p) qs = json (BError "Post not found") 404).
Proof.
  intros H _. destruct (create_post_created _ _ _ _ _ H) as (data & _ & -> & F & U).
  set (row := new_post data now (next_post_id db)) in *.
  destruct (formatPost_keeps _ _ F) as (_ & Hsl & Hst & _).
  pose proof (formatPost_category _ _ F) as Hcat.
  rewrite Hsl, Hst.
  assert (Hold : forall r, In r (left_join (posts db) (categories db)) ->
                   (Post.slug (post r) =? Post.slug row)%string = false).
  { intros r Hr. apply left_join_post in Hr.
    destruct (Post.slug (post r) =? Post.slug row)%string eqn:E; [|reflexivity].
    assert (T : existsb (fun q => (Post.slug q =? Post.slug row)%string) (posts db) = true)
      by (apply existsb_exists; eauto).
    congruence. }
  assert (Hfind : forall (g : PostRow -> bool) l tail,
             (forall r, In r l -> g r = false) -> find g (l ++ tail) = find g tail).
  { intros g l tail Hl. induction l as [|x l IH]; [reflexivity|].
    simpl. rewrite (Hl x (or_introl eq_refl)). apply IH. intros r Hr. apply Hl. now right. }
  assert (Hjoin : left_join (posts (with_posts db (posts db ++ [row]) (next_post_id db)))
                            (categories (with_posts db (posts db ++ [row]) (next_post_id db)))
                  = (left_join (posts db) (categories db)
                     ++ join_categories (categories db) row)%list).
  { unfold left_join. simpl. rewrite flat_map_app. simpl. now rewrite app_nil_r. }
  split.
  - intros Hpub. unfold get_post. rewrite Hjoin, Hfind.
    2:{ intros r Hr. now rewrite (Hold r Hr). }
    destruct (join_categories_head (categories db) row) as (r & rest & -> & Hr & Hn & Hs).
    cbn [find]. rewrite Hr, Hpub, !String.eqb_refl. cbn [andb].
    unfold formatRow. rewrite Hr, F. cbn [option_map].
    eexists. split; [reflexivity|]. cbn [post category_name category_slug categories with_posts].
    split; [reflexivity|].
    assert (Hrefs : forall c, references p c = references row c)
      by (intros c; unfold references; now rewrite Hcat).
    rewrite (find_same _ _ _ Hrefs). auto.
  - intros Hdraft qs. unfold get_post. rewrite Hjoin, Hfind.
    2:{ intros r Hr. now rewrite (Hold r Hr). }
    assert (Hnone : find (fun r => (Post.slug (post r) =? Post.slug row)%string
                                   && (Post.status (post r) =? "published")%string)
                         (join_categories (categories db) row) = None).
    { assert (Hall : forall r, In r (join_categories (categories db) row) -> post r = row).
      { intros r. unfold join_categories.
        destruct (filter (references row) (categories db)) as [|c l].
        - intros [<- | []]. reflexivity.
        - intros Hr. apply in_map_iff in Hr as (c' & <- & _). reflexivity. }
      rewrite <- (app_nil_r (join_categories (categories db) row)).
      rewrite Hfind; [reflexivity|].
      intros r Hr. rewrite (Hall r Hr).
      apply String.eqb_neq in Hdraft. now rewrite Hdraft, andb_false_r. }
    now rewrite Hnone.
Qed.

(** ** Listing posts: what is listed, and in what order *)

Lemma get_posts_bound db qs :
  get_posts db qs =
    match posts_limit qs, posts_offset qs with
    | Int l, Int o =>
        if int64 l && int64 o then
          match map_throwing formatRow (limit_offset l o (unpaginated db qs)) with
          | Some rows =>
              json (BPosts rows
                      {| page := posts_page qs; limit := Int l;
                         total := Int (Z.of_nat (length (counted db qs)));
                         pages := ceil_quotient (Int (Z.of_nat (length (counted db qs))))
                                                (Int l) |}) 200
          | None => json (BError "Failed to fetch posts") 500
          end
        else json (BError "Failed to fetch posts") 500
    | _, _ => json (BError "Failed to fetch posts") 500
    end.
Proof.
  unfold get_posts.
  pose proof (select_posts_list db qs) as S.
  pose proof (count_posts_counted db qs) as C.
  destruct (list_statement qs) as [q ps]. destruct (count_statement qs) as [cq cps].
  simpl in S, C. rewrite S, C.
  destruct (posts_limit qs) as [| |l]; try reflexivity.
  destruct (posts_offset qs) as [| |o]; try reflexivity.
  destruct (int64 l && int64 o); reflexivity.
Qed.

Lemma limit_offset_In {A} l o (rows : list A) x :
  In x (limit_offset l o rows) -> In x rows.
Proof.
  unfold limit_offset. intros H.
  assert (S : forall n (r : list A) y, In y (skipn n r) -> In y r).
  { intros n r y Hy. rewrite <- (firstn_skipn n r). apply in_or_app. now right. }
  assert (F : forall n (r : list A) y, In y (firstn n r) -> In y r).
  { intros n r y Hy. rewrite <- (firstn_skipn n r). apply in_or_app. now left. }
  destruct (l <? 0); eauto.
Qed.

Lemma map_throwing_In {A B} (f : A -> option B) l l' y :
  map_throwing f l = Some l' -> In y l' -> exists x, In x l /\ f x = Some y.
Proof.
  revert l'. induction l as [|x rest IH]; simpl; intros l' H Hy.
  - injection H as <-. destruct Hy.
  - destruct (f x) as [z|] eqn:E; [|discriminate].
    destruct (map_throwing f rest) as [zs|]; [|discriminate].
    injection H as <-. destruct Hy as [<- | Hy]; [eauto|].
    destruct (IH _ eq_refl Hy) as (x' & ? & ?). eauto.
Qed.

Lemma and3_true a b : is_true (and3 a b) = true -> is_true a = true /\ is_true b = true.
Proof. destruct a as [[]|], b as [[]|]; simpl; auto. Qed.

Lemma is_true_some b : is_true (Some b) = true -> b = true.
Proof. now destruct b. Qed.

Lemma or3_true a b : is_true (or3 (Some a) (Some b)) = true -> a = true \/ b = true.
Proof. destruct a, b; simpl; auto. Qed.

Lemma holds_list_filters cs qs r :
  holds cs (fst (list_filters qs)) (snd (list_filters qs)) r = true ->
  Post.status (post r) = posts_status qs
  /\ (forall c, truthy (req_query "category" qs) = Some c -> category_slug r = Some c)
  /\ (forall s, truthy (req_query "search" qs) = Some s ->
        like (Post.title (post r)) ("%" ++ s ++ "%") = true
        \/ like (Post.content (post r)) ("%" ++ s ++ "%") = true).
Proof.
  assert (Hcat : forall c, is_true match category_slug r with
                                   | Some x => Some (x =? c)%string
                                   | None => None
                                   end = true -> category_slug r = Some c).
  { intros c. destruct (category_slug r) as [x|]; simpl; [|discriminate].
    destruct (x =? c)%string eqn:E; [|discriminate].
    apply String.eqb_eq in E. now subst. }
  unfold list_filters, filters, holds.
  destruct (truthy (req_query "category" qs)) as [c|],
           (truthy (req_query "search" qs)) as [s|];
    cbn [fst snd app eval_where eval_clause pattern]; intros H;
    repeat match goal with
           | H : is_true (and3 _ _) = true |- _ => apply and3_true in H as [? ?]
           end;
    match goal with
    | H : is_true (Some (_ =? _)%string) = true |- _ =>
        apply is_true_some, String.eqb_eq in H; split; [exact H|]
    end;
    split; intros ? [= <-]; auto using or3_true.
Qed.

Lemma unpaginated_In db qs r :
  In r (unpaginated db qs) ->
  In r (left_join (posts db) (categories db))
  /\ holds (categories db) (fst (list_filters qs)) (snd (list_filters qs)) r = true.
Proof.
  unfold unpaginated, matching_rows. intros H.
  apply (Permutation_in _ (order_by_perm _ _)) in H. now apply filter_In in H.
Qed.

(** X16. Every post of a listing has the status asked for ([published]
    when none is asked), the category of a category filter, and the search
    text, when one is given, in its title or in its content. *)
Theorem get_posts_rows_match (db : DB) (qs : query_string)
    (rows : list PostRow) (pg : Pagination) :
  get_posts db qs = json (BPosts rows pg) 200 ->
  forall r, In r rows ->
    Post.status (post r) = posts_status qs
    /\ (forall c, truthy (req_query "category" qs) = Some c ->
          category_slug r = Some c)
    /\ (forall s, truthy (req_query "search" qs) = Some s ->
          like (Post.title (post r)) ("%" ++ s ++ "%") = true
          \/ like (Post.content (post r)) ("%" ++ s ++ "%") = true).
Proof.
  intros H r Hr. destruct (get_posts_ok _ _ _ _ H) as (l & o & _ & _ & _ & M & _).
  destruct (map_throwing_In _ _ _ _ M Hr) as (r0 & Hin & Hf).
  apply limit_offset_In, unpaginated_In in Hin as [_ Hh].
  apply holds_list_filters in Hh. unfold formatRow in Hf.
  destruct (formatPost (post r0)) as [q|] eqn:F; [|discriminate].
  injection Hf as <-. simpl.
  destruct (formatPost_keeps _ _ F) as (_ & _ & -> & -> & ->). exact Hh.
Qed.

Lemma left_join_slug ps cs r :
  In r (left_join ps cs) ->
  category_slug r = None
  \/ exists c, In c cs /\ category_slug r = Some (Category.slug c).
Proof.
  unfold left_join. rewrite in_flat_map. intros (p & _ & Hr).
  unfold join_categories in Hr.
  destruct (filter (references p) cs) as [|c l] eqn:E.
  - destruct Hr as [<- | []]. now left.
  - apply in_map_iff in Hr as (c' & <- & Hc). right. exists c'. split; [|reflexivity].
    rewrite <- E in Hc. now apply filter_In in Hc.
Qed.

Lemma filter_nothing {A} (f : A -> bool) l :
  (forall x, In x l -> f x = false) -> filter f l = [].
Proof.
  induction l as [|x rest IH]; simpl; [reflexivity|]. intros H.
  rewrite (H x (or_introl eq_refl)). apply IH. intros y Hy. apply H. now right.
Qed.

Lemma limit_offset_nil {A} l o : @limit_offset A l o [] = [].
Proof.
  unfold limit_offset. rewrite skipn_nil. now destruct (l <? 0); rewrite ?firstn_nil.
Qed.

(** X17. A listing filtered by a category slug that no category has lists
    no post and reports a total of 0 whenever it is answered 200; and it is
    answered 200, not with an error, when the page and the limit read as
    safe integers [p] and [l], [l] other than 0, with [(p - 1) * l] safe. *)
Theorem get_posts_unknown_category (db : DB) (qs : query_string) (c : string) :
  truthy (req_query "category" qs) = Some c ->
  (forall cat, In cat (categories db) -> Category.slug cat <> c) ->
  (forall rows pg,
      get_posts db qs = json (BPosts rows pg) 200 -> rows = [] /\ total pg = Int 0)
  /\ (forall p l,
        posts_page qs = Int p -> posts_limit qs = Int l ->
        safe p -> safe l -> l <> 0 -> safe ((p - 1) * l) ->
        get_posts db qs
        = json (BPosts [] {| page := Int p; limit := Int l; total := Int 0;
                             pages := Int 0 |}) 200).
Proof.
  intros Hc Hnone.
  assert (U : unpaginated db qs = []).
  { unfold unpaginated, matching_rows. rewrite filter_nothing; [reflexivity|].
    intros r Hr.
    destruct (holds _ _ _ r) eqn:Hh; [|reflexivity]. exfalso.
    apply holds_list_filters in Hh as (_ & Hcat & _). specialize (Hcat _ Hc).
    apply left_join_slug in Hr as [Hr | (cat & Hin & Hr)]; [congruence|].
    apply (Hnone _ Hin). congruence. }
  assert (C : counted db qs = []).
  { unfold counted, counted_rows. apply filter_nothing. intros r _.
    assert (E : existsb (fun cat => references (post r) cat
                                    && (Category.slug cat =? c)%string)
                        (categories db) = false).
    { destruct (existsb _ _) eqn:E; [|reflexivity]. exfalso.
      apply existsb_exists in E as (cat & Hin & Hcat).
      apply andb_true_iff in Hcat as [_ Hs]. apply String.eqb_eq in Hs.
      exact (Hnone _ Hin Hs). }
    unfold count_statement, filters, holds. rewrite Hc.
    destruct (truthy (req_query "search" qs)); simpl; rewrite E;
      now destruct (Post.status (post r) =? posts_status qs)%string. }
  split.
  - intros rows pg H.
    destruct (get_posts_ok _ _ _ _ H) as (l & o & _ & _ & _ & M & ->).
    rewrite U, limit_offset_nil in M. injection M as <-.
    rewrite C. auto.
  - intros p l Hp Hl Sp Sl Hne So.
    rewrite get_posts_bound, (posts_offset_int _ _ _ Hp Hl Sp Sl Hne So), Hl.
    rewrite (safe_int64 _ Sl), (safe_int64 _ So), U, C, Hp, limit_offset_nil.
    cbn [andb map_throwing length Z.of_nat].
    rewrite (ceil_quotient_int 0 l) by (assumption || (split; [lia|reflexivity])).
    reflexivity.
Qed.






(** ** Listing posts: pages *)

Lemma firstn_add {A} n m (l : list A) :
  firstn (n + m) l = (firstn n l ++ firstn m (skipn n l))%list.
Proof.
  revert l. induction n as [|n IH]; intros l; [reflexivity|].
  destruct l as [|x l]; simpl; [now rewrite firstn_nil|]. now rewrite IH.
Qed.

Lemma safe_page p l : 1 <= p -> 1 <= l -> p * l < 2 ^ 53 ->
  safe p /\ safe l /\ l <> 0 /\ safe ((p - 1) * l).
Proof. unfold safe. intros Hp Hl H. repeat split; nia. Qed.

(** X19. For a page [p] from 1 on and a positive limit [l], [p * l] below
    2^53, the list statement answers the matching rows after the first
    [(p - 1) * l] up to the first [p * l]: the pages of a listing follow
    one another without gap or overlap, none has more than [l] rows, and
    a page that starts past the last row is empty. *)
Theorem posts_pages_cover (db : DB) (qs : query_string) (p l : Z) :
  posts_page qs = Int p -> posts_limit qs = Int l ->
  1 <= p -> 1 <= l -> p * l < 2 ^ 53 ->
  exists rows,
    select_posts db (fst (list_statement qs)) (snd (list_statement qs)) = Done rows
    /\ (firstn (Z.to_nat ((p - 1) * l)) (unpaginated db qs) ++ rows)%list
       = firstn (Z.to_nat (p * l)) (unpaginated db qs)
    /\ Z.of_nat (length rows) <= l
    /\ (Z.of_nat (length (unpaginated db qs)) <= (p - 1) * l -> rows = []).
Proof.
  intros Hp Hl Hpage Hlim Hsafe.
  destruct (safe_page p l Hpage Hlim Hsafe) as (Sp & Sl & Hne & So).
  rewrite select_posts_list, (posts_offset_int _ _ _ Hp Hl Sp Sl Hne So), Hl.
  rewrite (safe_int64 _ Sl), (safe_int64 _ So). cbn [andb].
  eexists. split; [reflexivity|]. unfold limit_offset.
  replace (l <? 0) with false by (symmetry; apply Z.ltb_ge; lia).
  split; [|split].
  - replace (Z.to_nat (p * l)) with (Z.to_nat ((p - 1) * l) + Z.to_nat l)%nat by nia.
    now rewrite firstn_add.
  - rewrite length_firstn. lia.
  - intros Hend. rewrite skipn_all2 by lia. apply firstn_nil.
Qed.

(** X20. A negative limit is no limit: whatever the page from 1 on, the
    list statement then answers every matching row, the page, the limit
    and their offset being safe integers. *)
Theorem select_posts_negative_limit (db : DB) (qs : query_string) (p l : Z) :
  posts_page qs = Int p -> posts_limit qs = Int l ->
  l < 0 -> 1 <= p -> safe p -> safe l -> safe ((p - 1) * l) ->
  select_posts db (fst (list_statement qs)) (snd (list_statement qs))
  = Done (unpaginated db qs).
Proof.
  intros Hp Hl Hneg Hpage Sp Sl So.
  rewrite select_posts_list, (posts_offset_int _ _ _ Hp Hl Sp Sl ltac:(lia) So), Hl.
  rewrite (safe_int64 _ Sl), (safe_int64 _ So). cbn [andb].
  unfold limit_offset. replace (l <? 0) with true by (symmetry; apply Z.ltb_lt; lia).
  replace (Z.to_nat ((p - 1) * l)) with 0%nat by nia. reflexivity.
Qed.

(** ** Searching *)

Lemma like_any_run p x :
  like_chars ("%"%char :: p) x = true
  <-> exists before rest, x = (before ++ rest)%list /\ like_chars p rest = true.
Proof.
  induction x as [|d x IH].
  - change (like_chars ("%"%char :: p) []) with (like_chars p [] || false).
    rewrite orb_false_r. split.
    + intros H. exists [], []. auto.
    + intros (b & r & E & H). symmetry in E. apply app_eq_nil in E as [-> ->]. exact H.
  - change (like_chars ("%"%char :: p) (d :: x))
      with (like_chars p (d :: x) || like_chars ("%"%char :: p) x).
    rewrite orb_true_iff, IH. split.
    + intros [H | (b & r & -> & H)].
      * exists [], (d :: x). auto.
      * exists (d :: b), r. auto.
    + intros ([|d' b] & r & E & H); simpl in E.
      * left. now subst r.
      * right. injection E as <- ->. eauto.
Qed.

Lemma like_plain s p x :
  forallb (fun c => negb (Ascii.eqb c "%" || Ascii.eqb c "_")) s = true ->
  like_chars (s ++ p)%list x = true
  <-> exists found rest, x = (found ++ rest)%list /\ same_letters found s
                         /\ like_chars p rest = true.
Proof.
  revert x. induction s as [|c s IH]; intros x Hs.
  - simpl. split.
    + intros H. exists [], x. repeat split. exact H.
    + intros (f & r & -> & Hf & H). destruct f; [exact H|discriminate].
  - simpl in Hs. apply andb_true_iff in Hs as [Hc Hs].
    apply negb_true_iff, orb_false_iff in Hc as [Hc1 Hc2].
    simpl. rewrite Hc1, Hc2. simpl. destruct x as [|d x].
    + split; [discriminate|]. intros ([|? ?] & r & E & Hf & _); discriminate.
    + rewrite andb_true_iff, (IH x Hs), Ascii.eqb_eq. split.
      * intros (El & f & r & -> & Hf & H). exists (d :: f), r.
        repeat split; [|exact H]. unfold same_letters in *. simpl. congruence.
      * intros ([|d' f] & r & E & Hf & H); [discriminate|].
        injection E as <- ->. unfold same_letters in Hf. simpl in Hf.
        injection Hf as Hd Hf. split; [congruence|]. exists f, r. auto.
Qed.

Lemma chars_of_append a b :
  list_ascii_of_string (a ++ b) = (list_ascii_of_string a ++ list_ascii_of_string b)%list.
Proof. induction a as [|c a IH]; simpl; [reflexivity|now rewrite IH]. Qed.

(** X21. For a search text without [%] and [_], a text matches the
    pattern of the search exactly when it contains the search text
    somewhere, letters compared without regard to case. *)
Theorem search_contains (x s : string) :
  plain s = true ->
  like x ("%" ++ s ++ "%") = true
  <-> exists before found after,
        list_ascii_of_string x = (before ++ found ++ after)%list
        /\ same_letters found (list_ascii_of_string s).
Proof.
  intros Hs. unfold like.
  change ("%" ++ s ++ "%") with (String "%" (s ++ "%")).
  cbn [list_ascii_of_string]. rewrite chars_of_append. cbn [list_ascii_of_string].
  rewrite like_any_run. split.
  - intros (b & r & E & H). apply (like_plain _ _ _ Hs) in H as (f & a & -> & Hf & _).
    eauto.
  - intros (b & f & a & E & Hf). exists b, (f ++ a)%list. split; [exact E|].
    apply (like_plain _ _ _ Hs). exists f, a. repeat split; [exact Hf|].
    apply like_any_run. exists a, []. split; [now rewrite app_nil_r|reflexivity].
Qed.

(** ** Categories *)

Lemma distinct_NoDup l : distinct l = true -> NoDup l.
Proof.
  induction l as [|x rest IH]; simpl; [constructor|].
  intros H. apply andb_true_iff in H as [Hx Hr]. apply negb_true_iff in Hx.
  constructor; [|auto]. intros Hin.
  assert (T : existsb (Z.eqb x) rest = true)
    by (apply existsb_exists; exists x; split; [exact Hin|apply Z.eqb_refl]).
  congruence.
Qed.

Lemma find_filter_head {A} (f : A -> bool) l : find f l = hd_error (filter f l).
Proof.
  induction l as [|x rest IH]; simpl; [reflexivity|]. now destruct (f x).
Qed.

Lemma category_alone cs c :
  distinct (map Category.id cs) = true -> In c cs ->
  filter (fun c' => Category.id c' =? Category.id c) cs = [c].
Proof.
  intros D Hin.
  assert (Hc : In c (filter (fun c' => Category.id c' =? Category.id c) cs))
    by (apply filter_In; split; [exact Hin|apply Z.eqb_refl]).
  destruct (distinct_filter cs (Category.id c) D) as [E | [c' E]]; rewrite E in *.
  - destruct Hc.
  - destruct Hc as [-> | []]. reflexivity.
Qed.

Lemma flat_map_singletons {A B C} (g : B -> list C) (h : A -> B) (k : A -> C) l :
  (forall x, In x l -> g (h x) = [k x]) -> flat_map g (map h l) = map k l.
Proof.
  induction l as [|x rest IH]; simpl; [reflexivity|]. intros H.
  rewrite (H x (or_introl eq_refl)). simpl. f_equal. apply IH.
  intros y Hy. apply H. now right.
Qed.

(** X22. Category ids being distinct, the category listing has one row
    for each category, also for one without posts; the count of a row is
    the number of published posts of its category, drafts not counted;
    and the rows come in ascending order of name. *)
Theorem get_categories_counts (db : DB) :
  distinct (map Category.id (categories db)) = true ->
  exists rows,
    get_categories db = answer_json (RCategories rows) 200
    /\ Permutation (map category rows) (categories db)
    /\ (forall r, In r rows ->
          post_count r = Z.of_nat (length (published_posts_of db (category r))))
    /\ StronglySorted by_name rows.
Proof.
  intros D. eexists. split; [reflexivity|].
  unfold category_counts.
  set (row := fun c => {| category := c;
                          post_count := Z.of_nat (length (published_posts_of db c)) |}).
  assert (E : flat_map
                (fun k =>
                   match find (fun c => Category.id c =? k) (categories db) with
                   | Some c =>
                       [ {| category := c;
                            post_count :=
                              Z.of_nat (length (flat_map (published_in (posts db))
                                          (filter (fun c' => Category.id c' =? k)
                                                  (categories db)))) |} ]
                   | None => []
                   end)
                (nodup Z.eq_dec (map Category.id (categories db)))
              = map row (categories db)).
  { rewrite nodup_fixed_point by now apply distinct_NoDup.
    apply flat_map_singletons. intros c Hc.
    rewrite find_filter_head, (category_alone _ _ D Hc). simpl.
    now rewrite app_nil_r. }
  rewrite E. split; [|split].
  - rewrite (Permutation_map category (order_by_perm _ (map row (categories db)))).
    rewrite map_map. simpl. now rewrite map_id.
  - intros r Hr. apply (Permutation_in _ (order_by_perm _ _)) in Hr.
    apply in_map_iff in Hr as (c & <- & _). reflexivity.
  - apply (order_by_sorted
             (fun a b => (Category.name (category a) <=? Category.name (category b))%string)).
    + intros a b. apply String.leb_total.
    + intros a b c. apply string_leb_trans.
Qed.

Lemma new_category_name input data now id name :
  safeParse categorySchema input = Some data ->
  get "name" input = Some (VStr name) ->
  Category.name (new_category data now id) = name
  /\ Category.slug (new_category data now id) = generateSlug name.
Proof.
  intros V Hin.
  destruct (safeParse_field categorySchema input data "name" _ eq_refl V eq_refl)
    as (r & P & G).
  rewrite Hin in P. apply parse_field_present in P. subst r.
  unfold new_category, get_string. simpl. rewrite G. auto.
Qed.

Lemma insert_category_taken st row :
  existsb (fun c => (Category.name c =? Category.name (row (next_category_id st)))%string
                    || (Category.slug c =? Category.slug (row (next_category_id st)))%string)
          (categories (tables st)) = true ->
  insert_category st row = Throws unique_failed.
Proof. intros H. unfold insert_category. cbv zeta. now rewrite H. Qed.

(** X23. A valid category create whose name, or whose name's slug, a
    stored category already has is answered 409 and stores nothing. *)
Theorem create_category_conflict (st : Store) (input data : object)
    (now name : string) :
  safeParse categorySchema input = Some data ->
  get "name" input = Some (VStr name) ->
  existsb (fun c => (Category.name c =? name)%string
                    || (Category.slug c =? generateSlug name)%string)
          (categories (tables st)) = true ->
  create_category st input now
  = (answer_json (RError "A category with this name already exists") 409, st).
Proof.
  intros V Hin Hdup. unfold create_category. rewrite V.
  rewrite insert_category_taken; [reflexivity|].
  destruct (new_category_name _ _ now (next_category_id st) _ V Hin) as [-> ->].
  exact Hdup.
Qed.

(** X24. A category create answered 201 has stored the category with the
    slug of its name; the same body sent again is answered 409 and stores
    nothing more. *)
Theorem create_category_twice (st st' : Store) (input : object) (now later : string)
    (c : Category.t) :
  create_category st input now = (answer_json (RCategory c) 201, st') ->
  In c (categories (tables st'))
  /\ Category.slug c = generateSlug (Category.name c)
  /\ create_category st' input later
     = (answer_json (RError "A category with this name already exists") 409, st').
Proof.
  unfold create_category at 1.
  destruct (safeParse categorySchema input) as [data|] eqn:V; [|discriminate].
  unfold insert_category. cbv zeta.
  destruct (existsb _ (categories (tables st))); [discriminate|]. cbn [meta last_row_id tables categories].
  destruct (find _ _) as [c'|] eqn:F; [|discriminate].
  intros [= <- <-]. apply find_some in F as [Fin Fid].
  assert (Hc : c' = new_category data now (next_category_id st)
               \/ In c' (categories (tables st))).
  { apply in_app_or in Fin as [H | [<- | []]]; auto. }
  assert (Hnew : c' = new_category data now (next_category_id st)).
  { destruct Hc as [H | H]; [exact H|]. exfalso. apply Z.eqb_eq in Fid.
    assert (B : Category.id c' <= fold_right Z.max (categories_seq st)
                                   (map Category.id (categories (tables st)))).
    { clear - H. induction (categories (tables st)) as [|x l IH]; simpl in *; [tauto|].
      destruct H as [-> | H]; [lia|]. specialize (IH H). lia. }
    unfold next_category_id in Fid. lia. }
  split; [exact Fin|]. split; [now rewrite Hnew|].
  destruct (safeParse_field categorySchema input data "name" _ eq_refl V eq_refl)
    as (r & P & G).
  destruct (get "name" input) as [v|] eqn:Hin; [|discriminate].
  pose proof P as P'. apply parse_field_present in P'. subst r.
  simpl in P. destruct v as [| | |name]; try discriminate.
  unfold create_category. rewrite V.
  rewrite insert_category_taken; [reflexivity|].
  cbn [tables categories]. rewrite existsb_app. apply orb_true_iff. right.
  cbn [existsb].
  destruct (new_category_name _ _ now (next_category_id st) _ V Hin) as [E1 _].
  destruct (new_category_name _ _ later
              (next_category_id
                 {| tables := {| posts := posts (tables st);
                                 categories := categories (tables st)
                                               ++ [new_category data now (next_category_id st)];
                                 comments := comments (tables st);
                                 posts_seq := posts_seq (tables st) |};
                    categories_seq := next_category_id st;
                    comments_seq := comments_seq st |}) _ V Hin) as [E2 _].
  rewrite E1, E2. now rewrite String.eqb_refl.
Qed.

(** ** Comments: submission and moderation *)

Lemma find_nothing {A} (f : A -> bool) l :
  (forall x, In x l -> f x = false) -> find f l = None.
Proof.
  intros H. apply find_none_filter. now apply filter_nothing.
Qed.

(** X25. A valid comment for a post that does not exist, or is not
    published, is answered 404 and stores nothing. *)
Theorem create_comment_no_post (is_email : string -> bool) (st : Store) (postId : Z)
    (input data : object) (now : string) :
  parse_comment is_email input = Some data ->
  (forall p, In p (posts (tables st)) -> Post.id p = postId ->
             Post.status p <> "published") ->
  create_comment is_email st postId input now
  = (answer_json (RError "Post not found") 404, st).
Proof.
  intros V Hnone. unfold create_comment. rewrite V.
  rewrite find_nothing; [reflexivity|].
  intros p Hp. destruct (Post.id p =? postId) eqn:E; [|reflexivity].
  apply Z.eqb_eq in E. simpl. apply String.eqb_neq. now apply Hnone.
Qed.

Lemma next_comment_id_fresh st :
  find (fun c => Comment.id c =? next_comment_id st) (comments (tables st)) = None.
Proof.
  apply find_nothing. intros c Hc. apply Z.eqb_neq. unfold next_comment_id.
  assert (B : Comment.id c <= fold_right Z.max (comments_seq st)
                                (map Comment.id (comments (tables st)))).
  { clear - Hc. induction (comments (tables st)) as [|x l IH]; simpl in *; [tauto|].
    destruct Hc as [-> | H]; [lia|]. specialize (IH H). lia. }
  lia.
Qed.

(** X26. A valid comment for a published post is answered 201 and stored
    after the comments there were. It is attached to the post of the
    path, whatever [post_id] the body gives, and it is pending, so the
    listing of the post's approved comments does not show it. *)
Theorem create_comment_pending (is_email : string -> bool) (st : Store) (postId : Z)
    (input data : object) (now : string) (p : Post.t) :
  parse_comment is_email input = Some data ->
  In p (posts (tables st)) -> Post.id p = postId -> Post.status p = "published" ->
  exists c st',
    create_comment is_email st postId input now = (answer_json (RComment c) 201, st')
    /\ Comment.post_id c = postId
    /\ Comment.status c = "pending"
    /\ Comment.created_at c = now
    /\ comments (tables st') = (comments (tables st) ++ [c])%list
    /\ posts (tables st') = posts (tables st)
    /\ forall cs, get_post_comments (tables st') postId [] = json (BComments cs) 200 ->
                  ~ In c cs.
Proof.
  intros V Hp Hid Hst. unfold create_comment. rewrite V.
  destruct (find _ (posts (tables st))) as [p'|] eqn:F.
  2:{ exfalso. eapply find_none in F; [|exact Hp].
      rewrite Hid, Z.eqb_refl, Hst in F. discriminate. }
  unfold insert_comment. cbv zeta.
  change (Comment.post_id (new_comment postId data now (next_comment_id st)))
    with postId.
  assert (E : existsb (fun q => Post.id q =? postId) (posts (tables st)) = true).
  { apply existsb_exists. exists p. split; [exact Hp|]. subst. apply Z.eqb_refl. }
  rewrite E. cbn [meta last_row_id tables comments].
  rewrite find_app_fresh; [|apply next_comment_id_fresh|apply Z.eqb_refl].
  eexists. eexists. split; [reflexivity|].
  repeat split.
  intros cs [= <-] Hin. apply comments_of_post_In in Hin as (_ & _ & Hs).
  discriminate.
Qed.

Lemma statusSchema_valid input s :
  get "status" input = Some (VStr s) -> In s moderation_statuses ->
  safeParse statusSchema input = Some [("status", VStr s)].
Proof.
  intros Hin Hs. unfold safeParse, statusSchema. rewrite Hin. simpl.
  unfold moderation_statuses in Hs. simpl in Hs.
  destruct Hs as [<- | [<- | [<- | []]]]; reflexivity.
Qed.


Lemma put_comment_status_bound db id input s :
  get "status" input = Some (VStr s) -> In s moderation_statuses ->
  put_comment_status db id input
  = (answer_json (RMessage "Comment status updated successfully") 200,
     {| posts := posts db; categories := categories db;
        comments := moderated s id (comments db); posts_seq := posts_seq db |}).
Proof.
  intros Hin Hs. unfold put_comment_status.
  rewrite (statusSchema_valid _ _ Hin Hs). unfold update_comment_status, get_string.
  simpl get. cbv iota. reflexivity.
Qed.


(** X28. Moderation and listing. After a decision for a comment, the
    listing of its post's approved comments shows it, with the new
    status, when the decision is [approved], and shows no comment with
    its id when the decision is [pending] or [rejected]. *)
Theorem moderate_then_list (db : DB) (id : Z) (input : object) (s : string)
    (c : Comment.t) :
  get "status" input = Some (VStr s) ->
  In s moderation_statuses ->
  In c (comments db) -> Comment.id c = id ->
  exists cs,
    get_post_comments (snd (put_comment_status db id input)) (Comment.post_id c) []
      = json (BComments cs) 200
    /\ (s = "approved" -> In (set_comment_status "approved" c) cs)
    /\ (s <> "approved" -> forall x, In x cs -> Comment.id x <> id).
Proof.
  intros Hin Hs Hc Hid. rewrite (put_comment_status_bound _ _ _ _ Hin Hs).
  eexists. split; [reflexivity|]. simpl snd. split.
  - intros ->.
    apply (Permutation_in _ (Permutation_sym (comments_of_post_perm _ _ _))).
    apply filter_In. simpl. split.
    + unfold moderated. apply in_map_iff. exists c. split; [|exact Hc].
      now rewrite Hid, Z.eqb_refl.
    + now rewrite Z.eqb_refl.
  - intros Hne x Hx Hxid.
    apply comments_of_post_In in Hx as (Hx & _ & Hxs). simpl in Hx.
    unfold moderated in Hx. apply in_map_iff in Hx as (y & Hy & _).
    destruct (Comment.id y =? id) eqn:E.
    + subst x. simpl in Hxs. congruence.
    + subst x. apply Z.eqb_neq in E. contradiction.
Qed.

End Handlers.

(* ================================================================== *)
(** * The properties on the sample database *)

(** The stand-ins have what is assumed of the built-ins. *)
Lemma lower_ascii_ascii s :
  forallb is_ascii s = true -> lower_ascii s = map lower_char s.
Proof. intros _. reflexivity. Qed.

Lemma read_int_1 : read_int "1" = Int 1.
Proof. reflexivity. Qed.

Lemma read_int_10 : read_int "10" = Int 10.
Proof. reflexivity. Qed.

Example slug_hello : generateSlug lower_ascii "  Hello, World!  " = "hello-world".
Proof. reflexivity. Qed.
Example slug_dash : generateSlug lower_ascii "--a--b--" = "a-b".
Proof. reflexivity. Qed.
Example slug_blank : generateSlug lower_ascii "   " = "".
Proof. reflexivity. Qed.

Lemma posts_pagination_second_page :
  posts_page read_int [] = Int 1
  /\ posts_limit read_int [] = Int 10
  /\ posts_page read_int second_page = Int 2
  /\ posts_limit read_int second_page = Int 1
  /\ posts_offset read_int second_page = Int ((2 - 1) * 1)
  /\ exists rows pg,
       get_posts read_int same_iso seeded second_page = json (BPosts rows pg) 200
       /\ map (fun r => Post.id (post r)) rows = [1]
       /\ exists n, pages pg = Int n /\ is_ceiling n 2 1.
Proof.
  destruct (posts_pagination read_int read_int_1 read_int_10 same_iso seeded [])
    as (Hpage & Hlimit & _).
  destruct (posts_pagination read_int read_int_1 read_int_10 same_iso seeded second_page)
    as (_ & _ & Hpaged).
  assert (S2 : safe 2) by (unfold safe; split; reflexivity).
  assert (S1 : safe 1) by (unfold safe; split; reflexivity).
  assert (N1 : 1 <> 0) by discriminate.
  assert (Hrows : Z.of_nat (length (posts seeded)) < 2 ^ 53) by reflexivity.
  destruct (Hpaged 2 1 eq_refl eq_refl S2 S1 N1 S1) as (Ho & _ & _ & Hpg).
  split; [apply Hpage; now left|]. split; [apply Hlimit; now left|].
  split; [reflexivity|]. split; [reflexivity|]. split; [exact Ho|].
  eexists. eexists. split; [vm_compute; reflexivity|]. split; [reflexivity|].
  edestruct Hpg as (_ & _ & _ & _ & Hn); [vm_compute; reflexivity|]. exact (Hn Hrows).
Defined.

(** C1 as stated fails for [limit=0]: the listing is answered 200 with a
    pagination object whose [pages] is [Infinity], the quotient of the
    total by zero, which is no integer (JSON renders it as [null]). *)
Lemma zero_limit_pages :
  posts_limit read_int [("limit", "0")] = Int 0
  /\ exists rows pg,
       get_posts read_int same_iso seeded [("limit", "0")] = json (BPosts rows pg) 200
       /\ total pg = Int 2
       /\ pages pg = Infinity
       /\ ~ exists n, pages pg = Int n /\ is_ceiling n 2 0.
Proof.
  split; [reflexivity|].
  eexists. eexists. split; [vm_compute; reflexivity|].
  split; [reflexivity|]. split; [reflexivity|].
  intros (n & Hn & _). discriminate.
Qed.

Lemma count_matches_list_seeded :
  distinct (map Category.id (categories seeded)) = true
  /\ count_posts seeded (fst (count_statement [("category", "technology")]))
                 (snd (count_statement [("category", "technology")]))
     = Done (Z.of_nat (length (unpaginated seeded [("category", "technology")]))).
Proof.
  split; [reflexivity|].
  apply (count_matches_list read_int same_iso seeded [("category", "technology")]).
  reflexivity.
Defined.

Lemma generateSlug_idempotent_sample :
  generateSlug lower_ascii "Hello, World!" = "hello-world"
  /\ generateSlug lower_ascii (generateSlug lower_ascii "Hello, World!") = "hello-world".
Proof.
  split; [reflexivity|].
  rewrite (generateSlug_idempotent lower_ascii lower_ascii_ascii "Hello, World!").
  reflexivity.
Defined.

Lemma create_published_sample :
  a_moment <> ""
  /\ exists p db',
       create_post lower_ascii http_url same_iso seeded published_input a_moment
         = (json (BPost p) 201, db')
       /\ exists stored,
            post_by_id db' (Post.id p) = Some stored
            /\ Post.published_at stored = Some a_moment
            /\ Post.published_at p <> None.
Proof.
  assert (Hnow : a_moment <> "") by discriminate.
  split; [exact Hnow|].
  eexists. eexists. split; [vm_compute; reflexivity|].
  edestruct (create_post_published_at lower_ascii http_url same_iso seeded published_input
               a_moment) as (stored & Hs & _ & _ & Hpub & _);
    [exact Hnow | vm_compute; reflexivity |].
  exists stored. split; [exact Hs|]. apply Hpub. reflexivity.
Defined.

Lemma retitle_sample :
  safeParse http_url (partial postSchema) retitle_input
    = Some [("title", VStr "A New Title")]
  /\ (exists q db',
        put_post lower_ascii http_url same_iso seeded 1 retitle_input a_moment
          = (json (BPost q) 200, db')
        /\ Post.slug q = generateSlug lower_ascii "A New Title")
  /\ map creation (posts (snd (put_post lower_ascii http_url same_iso seeded 1 retitle_input
                                        a_moment)))
     = map creation (posts seeded).
Proof.
  destruct (put_post_slug_and_created_at lower_ascii http_url same_iso seeded 1 retitle_input
              [("title", VStr "A New Title")] a_moment eq_refl)
    as (_ & Hslug & _ & Hframe).
  split; [reflexivity|]. split; [|exact Hframe].
  eexists. eexists. split; [vm_compute; reflexivity|].
  eapply Hslug; [reflexivity|vm_compute; reflexivity].
Defined.

Lemma comment_listings_sample :
  exists cs,
    get_post_comments seeded 1 [] = json (BComments cs) 200
    /\ StronglySorted chronological cs.
Proof.
  exact (proj1 (comment_listings_order read_int same_iso seeded []) 1).
Defined.


Lemma pending_comments_sample :
  req_query "status" [("status", "pending")] = Some "pending"
  /\ exists cs,
       get_post_comments seeded 2 [("status", "pending")] = json (BComments cs) 200
       /\ Permutation cs (post_comments_with seeded 2 "pending").
Proof.
  split; [reflexivity|].
  apply (proj1 (public_comments_by_status seeded 2 [("status", "pending")]) "pending");
    [reflexivity | discriminate].
Defined.

(** C8 as stated fails on the moderation queue: the two approved comments
    of the sample come latest first. *)
Lemma moderation_queue_latest_first :
  exists rows pg,
    get_admin_comments read_int seeded [("status", "approved")]
      = json (BCommentQueue rows pg) 200
    /\ map (fun r => Comment.created_at (comment r)) rows
       = ["2024-01-04T09:00:00.000Z"; "2024-01-03T09:00:00.000Z"]
    /\ ~ StronglySorted chronological (map comment rows).
Proof.
  eexists. eexists. split; [vm_compute; reflexivity|]. split; [reflexivity|].
  intros H. simpl in H. inversion H as [|? ? _ Hall]; subst.
  inversion Hall as [|? ? Hle _]; subst. vm_compute in Hle. discriminate.
Qed.


(** C10 as stated fails for the empty status: the listing answers the
    approved comments, none of which has the empty status. *)
Lemma empty_status_lists_approved :
  exists cs,
    get_post_comments seeded 1 [("status", "")] = json (BComments cs) 200
    /\ map Comment.status cs = ["approved"; "approved"]
    /\ post_comments_with seeded 1 "" = []
    /\ ~ Permutation cs (post_comments_with seeded 1 "").
Proof.
  eexists. split; [vm_compute; reflexivity|]. split; [reflexivity|].
  split; [reflexivity|].
  intros H. apply Permutation_sym, Permutation_nil in H. discriminate.
Qed.

(** C7. The sample database has no post 99. The delete of post 99
    changes no row, and yet it is answered with the success message and
    status 200, not with "Post not found" and 404: the handler compares
    [result.changes] with 0, and the result of [run()] has its count of
    changed rows under [meta]. *)
Theorem remove_post_missing_id :
  post_by_id seeded 99 = None
  /\ (exists result,
        delete_post seeded 99 = Done (result, seeded)
        /\ changes (meta result) = 0
        /\ result_changes result = None)
  /\ remove_post seeded 99
     = (json (BMessage "Post deleted successfully") 200, seeded).
Proof.
  split; [reflexivity|]. split.
  - eexists. split; [reflexivity|]. split; reflexivity.
  - reflexivity.
Qed.

(* ================================================================== *)
(** * The further properties on the sample data *)

Lemma generateSlug_keeps_alphanumerics_sample :
  ascii_text "Hello, World!" = true
  /\ filter (fun c => negb (is_hyphen c))
            (list_ascii_of_string (generateSlug lower_ascii "Hello, World!"))
     = list_ascii_of_string "helloworld".
Proof.
  split; [reflexivity|].
  rewrite (proj2 (generateSlug_keeps_alphanumerics lower_ascii lower_ascii_ascii
                    "Hello, World!") eq_refl).
  reflexivity.
Defined.

Lemma generateSlug_empty_iff_sample :
  ascii_text "?!" = true
  /\ no_alnum "?!" = true
  /\ generateSlug lower_ascii "?!" = "".
Proof.
  split; [reflexivity|]. split; [reflexivity|].
  apply (proj2 (generateSlug_empty_iff lower_ascii lower_ascii_ascii "?!") eq_refl).
  reflexivity.
Defined.

Lemma generateSlug_length_sample :
  ascii_text "Hello, World!" = true
  /\ (String.length (generateSlug lower_ascii "Hello, World!") <= 13)%nat.
Proof.
  split; [reflexivity|].
  apply (proj2 (generateSlug_length lower_ascii lower_ascii_ascii "Hello, World!") eq_refl).
Defined.

Lemma create_post_invalid_sample :
  get "title" [("title", VStr ""); ("content", VStr "Hello"); ("author", VStr "Ann")]
    = Some (VStr "")
  /\ create_post lower_ascii http_url same_iso seeded
       [("title", VStr ""); ("content", VStr "Hello"); ("author", VStr "Ann")] a_moment
     = (json (BError "Invalid input") 400, seeded).
Proof.
  split; [reflexivity|].
  apply (create_post_invalid lower_ascii). right. left. exists "". split; [reflexivity|now left].
Defined.

Lemma create_post_conflict_sample :
  generateSlug lower_ascii "Modern API design principles!" = Post.slug api_post
  /\ create_post lower_ascii http_url same_iso seeded same_slug_input a_moment
     = (json (BError "A post with this title already exists") 409, seeded).
Proof.
  split; [reflexivity|].
  eapply (create_post_conflict lower_ascii http_url same_iso seeded same_slug_input _ a_moment
            "Modern API design principles!"); reflexivity.
Defined.

Lemma create_post_appends_sample :
  exists p db',
    create_post lower_ascii http_url same_iso seeded published_input a_moment
      = (json (BPost p) 201, db')
    /\ (exists row, posts db' = (posts seeded ++ [row])%list /\ Post.id row = Post.id p)
    /\ comments db' = comments seeded.
Proof.
  eexists. eexists. split; [vm_compute; reflexivity|].
  edestruct (create_post_appends lower_ascii http_url same_iso seeded published_input a_moment)
    as (Hrow & _ & _ & Hc); [vm_compute; reflexivity|].
  split; [exact Hrow|exact Hc].
Defined.

Lemma create_post_excerpt_sample :
  exists p db' stored,
    create_post lower_ascii http_url same_iso seeded published_input a_moment
      = (json (BPost p) 201, db')
    /\ post_by_id db' (Post.id p) = Some stored
    /\ Post.excerpt stored = Some "Hello...".
Proof.
  eexists. eexists.
  edestruct (create_post_excerpt lower_ascii http_url same_iso seeded published_input a_moment "Hello")
    as (stored & Hs & He); [vm_compute; reflexivity | reflexivity |].
  exists stored. split; [vm_compute; reflexivity|]. split; [exact Hs|exact He].
Defined.

Lemma put_post_missing_sample :
  post_by_id seeded 99 = None
  /\ put_post lower_ascii http_url same_iso seeded 99 retitle_input a_moment
     = (json (BError "Post not found") 404, seeded).
Proof.
  split; [reflexivity|].
  eapply (put_post_missing lower_ascii http_url same_iso seeded 99 retitle_input); reflexivity.
Defined.

Lemma put_post_timestamps_sample :
  exists q db' stored,
    put_post lower_ascii http_url same_iso seeded 1 republish_input a_moment
      = (json (BPost q) 200, db')
    /\ post_by_id db' 1 = Some stored
    /\ Post.updated_at stored = a_moment
    /\ Post.published_at stored = Some a_moment.
Proof.
  eexists. eexists.
  edestruct (put_post_timestamps lower_ascii http_url same_iso seeded 1 republish_input a_moment)
    as (old & stored & _ & Hs & Hu & Hp); [vm_compute; reflexivity|].
  exists stored. split; [vm_compute; reflexivity|]. split; [exact Hs|].
  split; [exact Hu|exact Hp].
Defined.

Lemma put_post_slug_taken_sample :
  Post.slug api_post = generateSlug lower_ascii "Modern API Design Principles"
  /\ put_post lower_ascii http_url same_iso seeded 1 take_slug_input a_moment
     = (json (BError "Failed to update post") 500, seeded).
Proof.
  split; [reflexivity|].
  eapply (put_post_slug_taken lower_ascii http_url same_iso seeded 1 take_slug_input _ a_moment
            "Modern API Design Principles" workers_post api_post);
    try reflexivity; simpl; auto; discriminate.
Defined.

Lemma put_post_empty_body_sample :
  safeParse http_url (partial postSchema) [] = Some []
  /\ posts_valid seeded = true
  /\ posts (snd (put_post lower_ascii http_url same_iso seeded 1 [] a_moment))
     = [touched a_moment workers_post; api_post].
Proof.
  split; [reflexivity|]. split; [reflexivity|].
  apply (put_post_empty_body lower_ascii http_url same_iso seeded 1 [] a_moment); reflexivity.
Defined.

Lemma remove_post_cascade_sample :
  post_by_id seeded 1 <> None
  /\ posts (snd (remove_post seeded 1)) = [api_post]
  /\ comments (snd (remove_post seeded 1)) = [charlie_comment].
Proof.
  assert (H : post_by_id seeded 1 <> None) by discriminate.
  split; [exact H|].
  destruct (proj2 (remove_post_cascade seeded 1) H) as (Hp & Hc & _).
  split; [exact Hp|exact Hc].
Defined.

Lemma get_post_draft_sample :
  get_post same_iso drafted "notes" [] = json (BError "Post not found") 404.
Proof.
  apply (proj1 (get_post_published_only same_iso drafted "notes" [])).
  intros p [<- | [<- | [<- | []]]]; discriminate.
Defined.

Lemma create_then_get_post_sample :
  exists p db' row,
    create_post lower_ascii http_url same_iso seeded published_input a_moment
      = (json (BPost p) 201, db')
    /\ Post.slug p = "hello-world"
    /\ Post.status p = "published"
    /\ get_post same_iso db' (Post.slug p) [] = json (BPostRow row) 200
    /\ post row = p
    /\ category_name row = None.
Proof.
  eexists. eexists.
  edestruct (create_then_get_post lower_ascii http_url same_iso seeded published_input
               a_moment) as [Hpub _];
    [vm_compute; reflexivity | discriminate |].
  destruct (Hpub eq_refl) as (row & Hget & Hrow & Hname & _).
  exists row. split; [reflexivity|]. split; [reflexivity|]. split; [reflexivity|].
  split; [exact Hget|]. split; [exact Hrow|]. exact Hname.
Defined.

Lemma get_posts_rows_match_sample :
  exists rows pg,
    get_posts read_int same_iso drafted [("category", "technology")] = json (BPosts rows pg) 200
    /\ map (fun r => Post.id (post r)) rows = [2; 1]
    /\ forall r, In r rows ->
         Post.status (post r) = "published" /\ category_slug r = Some "technology".
Proof.
  eexists. eexists. split; [vm_compute; reflexivity|]. split; [reflexivity|].
  intros r Hr.
  edestruct (get_posts_rows_match read_int same_iso drafted [("category", "technology")])
    as (Hs & Hc & _); [vm_compute; reflexivity | exact Hr |].
  split; [exact Hs|]. now apply Hc.
Defined.

Lemma get_posts_unknown_category_sample :
  truthy (req_query "category" [("category", "cooking")]) = Some "cooking"
  /\ get_posts read_int same_iso seeded [("category", "cooking")]
     = json (BPosts [] {| page := Int 1; limit := Int 10; total := Int 0;
                          pages := Int 0 |}) 200.
Proof.
  split; [reflexivity|].
  apply (proj2 (get_posts_unknown_category read_int same_iso seeded
                  [("category", "cooking")] "cooking" eq_refl
                  ltac:(intros cat [<- | [<- | []]]; discriminate)) 1 10);
    try reflexivity; try discriminate; unfold safe; split; reflexivity.
Defined.


Lemma posts_pages_cover_sample :
  exists rows,
    select_posts seeded (fst (list_statement read_int second_page))
                 (snd (list_statement read_int second_page)) = Done rows
    /\ map (fun r => Post.id (post r)) (unpaginated seeded second_page) = [2; 1]
    /\ map (fun r => Post.id (post r)) rows = [1]
    /\ (firstn 1 (unpaginated seeded second_page) ++ rows)%list
       = firstn 2 (unpaginated seeded second_page).
Proof.
  destruct (posts_pages_cover read_int seeded second_page 2 1 eq_refl eq_refl)
    as (rows & Hrows & Hcover & _); try reflexivity; try discriminate.
  exists rows. split; [exact Hrows|]. split; [reflexivity|]. split; [|exact Hcover].
  vm_compute in Hrows. now injection Hrows as <-.
Defined.

Lemma select_posts_negative_limit_sample :
  posts_limit read_int [("limit", "-1")] = Int (-1)
  /\ select_posts seeded (fst (list_statement read_int [("limit", "-1")]))
                  (snd (list_statement read_int [("limit", "-1")]))
     = Done (unpaginated seeded [("limit", "-1")]).
Proof.
  split; [reflexivity|].
  apply (select_posts_negative_limit read_int seeded [("limit", "-1")] 1 (-1));
    try reflexivity; try discriminate; unfold safe; split; reflexivity.
Defined.

Lemma search_contains_sample :
  plain "api" = true
  /\ like "Modern API Design Principles" ("%" ++ "api" ++ "%") = true.
Proof.
  split; [reflexivity|].
  apply (search_contains "Modern API Design Principles" "api" eq_refl).
  exists (list_ascii_of_string "Modern "), (list_ascii_of_string "API"),
         (list_ascii_of_string " Design Principles").
  split; reflexivity.
Defined.

Lemma get_categories_counts_sample :
  distinct (map Category.id (categories drafted)) = true
  /\ exists rows,
       get_categories drafted = answer_json (RCategories rows) 200
       /\ Permutation (map category rows) (categories drafted)
       /\ StronglySorted by_name rows.
Proof.
  split; [reflexivity|].
  destruct (get_categories_counts drafted eq_refl) as (rows & H & Hp & _ & Hs).
  exists rows. split; [exact H|]. split; [exact Hp|exact Hs].
Defined.

Lemma create_category_conflict_sample :
  create_category lower_ascii http_url seeded_store [("name", VStr "technology!")] a_moment
  = (answer_json (RError "A category with this name already exists") 409, seeded_store).
Proof.
  eapply (create_category_conflict lower_ascii http_url seeded_store
            [("name", VStr "technology!")] _ a_moment "technology!"); reflexivity.
Defined.

Lemma create_category_twice_sample :
  exists c st',
    create_category lower_ascii http_url seeded_store travel_input a_moment
      = (answer_json (RCategory c) 201, st')
    /\ Category.slug c = generateSlug lower_ascii (Category.name c)
    /\ create_category lower_ascii http_url st' travel_input a_moment
       = (answer_json (RError "A category with this name already exists") 409, st').
Proof.
  eexists. eexists. split; [vm_compute; reflexivity|].
  eapply proj2.
  eapply (create_category_twice lower_ascii http_url seeded_store _ travel_input a_moment a_moment).
  vm_compute; reflexivity.
Defined.

Lemma create_comment_no_post_sample :
  create_comment http_url has_at seeded_store 3 comment_input a_moment
  = (answer_json (RError "Post not found") 404, seeded_store).
Proof.
  eapply (create_comment_no_post http_url has_at seeded_store 3 comment_input);
    [vm_compute; reflexivity|].
  intros p [<- | [<- | [<- | []]]]; discriminate.
Defined.

Lemma create_comment_pending_sample :
  exists c st',
    create_comment http_url has_at seeded_store 1 comment_input a_moment
      = (answer_json (RComment c) 201, st')
    /\ Comment.post_id c = 1
    /\ Comment.status c = "pending".
Proof.
  edestruct (create_comment_pending http_url has_at seeded_store 1 comment_input
               comment_input a_moment workers_post)
    as (c & st' & H & Hp & Hs & _);
    [vm_compute; reflexivity | simpl; auto | reflexivity | reflexivity |].
  exists c, st'. split; [exact H|]. split; [exact Hp|exact Hs].
Defined.


Lemma moderate_then_list_sample :
  exists cs,
    get_post_comments (snd (put_comment_status http_url seeded 3 approve_input)) 2 []
      = json (BComments cs) 200
    /\ In (set_comment_status "approved" charlie_comment) cs.
Proof.
  destruct (moderate_then_list http_url seeded 3 approve_input "approved" charlie_comment
              eq_refl (or_intror (or_introl eq_refl))
              (or_intror (or_intror (or_introl eq_refl))) eq_refl)
    as (cs & H & Happ & _).
  exists cs. split; [exact H|]. now apply Happ.
Defined.
